(** * FluffySurvival: the authoritative room and the client around it

    A shallow embedding of

    - [server/src/rooms/GameRoom.js] (class [GameRoom]: the message handlers
      registered in [onCreate], [onJoin], [onLeave], [update],
      [generateWorld]),
    - the schema classes [Player], [WorldObject], [GameState],
    - [NetworkManager.processState] of the client,
    - the handlers of the class [Game] that the network manager calls
      ([handleConnect], [handlePlayerJoin], [handlePlayerLeave],
      [handlePlayerUpdate], [handleWorldObjectAdd], [handleStateChange]),
      with the bookkeeping of [GameEngine] and [UIManager] that they reach,
    - [InputManager]: the keyboard and touch listeners, [handleKey],
      [updateMovement], [resetKeys], [handleJoystickMove],

    together with the properties the specification states about them and
    further properties that the code has.

    JavaScript numbers are IEEE-754 binary64 values; they are modelled by the
    primitive floats of Rocq, which are the same format with the same
    round-to-nearest-even operations, so [+], [*], [/], [Math.sqrt] and the
    comparisons below compute exactly what the JavaScript engine computes. *)

From Stdlib Require Import ZArith Floats Sorted.
From stdpp Require Import base gmap strings list pretty.

Set Warnings "-inexact-float".
Set Warnings "-clear-no-such-hyp".

(** ** The JavaScript operations on numbers that the sources use *)

Module JS.

(** [a !== b] on two numbers: [NaN !== x] is true, [-0 !== 0] is false. *)
Definition strict_neq (a b : float) : bool := negb (a =? b)%float.

(** [Math.min(a, b)]: NaN if either argument is NaN; [-0] is below [+0]. *)
Definition Math_min (a b : float) : float :=
  if is_nan a || is_nan b then nan
  else if (a <? b)%float then a
  else if (b <? a)%float then b
  else if get_sign a then a else b.

(** [Math.max(a, b)]: NaN if either argument is NaN; [+0] is above [-0]. *)
Definition Math_max (a b : float) : float :=
  if is_nan a || is_nan b then nan
  else if (a <? b)%float then b
  else if (b <? a)%float then a
  else if get_sign a then b else a.

(** [n % d], the remainder with the sign of the dividend; it is exact (no
    rounding), so it is computed on the integer mantissas. *)
Definition rem (n d : float) : float :=
  match Prim2SF n, Prim2SF d with
  | S754_nan, _ | _, S754_nan => nan
  | S754_infinity _, _ => nan
  | _, S754_zero _ => nan
  | S754_zero _, _ => n
  | S754_finite _ _ _, S754_infinity _ => n
  | S754_finite sn mn en, S754_finite _ md ed =>
      let e := Z.min en ed in
      let N := (Zpos mn * 2 ^ (en - e))%Z in
      let D := (Zpos md * 2 ^ (ed - e))%Z in
      let r := (N mod D)%Z in
      if (r =? 0)%Z then (if sn then neg_zero else zero)
      else SF2Prim (binary_normalize prec emax (cond_Zopp sn r) e false)
  end.

(** A finite number in the specification format: a zero or a finite nonzero
    value. *)
Definition SF_finite (a : spec_float) : Prop :=
  match a with S754_zero _ | S754_finite _ _ _ => True | _ => False end.

(** The correctly rounded doubles of pi/4, pi/2, 3pi/4 and pi, which is what
    the engines return where ECMAScript asks for "an
    implementation-approximated value representing" them. *)
Definition PI_4 : float := 0x1.921fb54442d18p-1.
Definition PI_2 : float := 0x1.921fb54442d18p+0.
Definition PI_3_4 : float := 0x1.2d97c7f3321d2p+1.
Definition PI : float := 0x1.921fb54442d18p+1.

Section Atan2.

(** [Math.atan2] is a built-in of the engine.  ECMAScript fixes its value on
    NaN, the zeros and the infinities (the table below); on finite nonzero
    coordinates the result is "implementation-approximated", and is left to
    [approx]. *)
Variable approx : float -> float -> float.

Definition Math_atan2 (y x : float) : float :=
  let neg v := get_sign v in
  if is_nan y || is_nan x then nan
  else if is_infinity y then
    if is_infinity x
    then (if neg x then (if neg y then - PI_3_4 else PI_3_4)
          else (if neg y then - PI_4 else PI_4))%float
    else (if neg y then - PI_2 else PI_2)%float
  else if is_zero y then
    if neg x then (if neg y then - PI else PI)%float
    else y
  else if is_infinity x then
    if neg x then (if neg y then - PI else PI)%float
    else (if neg y then neg_zero else zero)
  else if is_zero x then (if neg y then - PI_2 else PI_2)%float
  else approx y x.

End Atan2.

(** [s.slice(n)] for [0 <= n]. *)
Fixpoint slice (n : nat) (s : string) : string :=
  match n, s with
  | O, _ => s
  | S n', String _ s' => slice n' s'
  | S _, EmptyString => EmptyString
  end.

(** [s.replace(pattern, replacement)] with a string [pattern] and a
    [replacement] without [$]: the first occurrence of [pattern] in [s], if
    there is one, is replaced. *)
Fixpoint replace (pattern replacement s : string) : string :=
  if String.prefix pattern s
  then replacement +:+ slice (String.length pattern) s
  else match s with
       | EmptyString => s
       | String c s' => String c (replace pattern replacement s')
       end.

End JS.

(** ** The schema classes (GameState.js) *)

Module Player.

Record t := mk {
  id : string;
  name : string;
  x : float;
  y : float;
  z : float;
  rotation : float;
  state : string;
  velocityX : float;
  velocityZ : float;
  health : float;
  hunger : float;
  sanity : float
}.

(** [new Player()] *)
Definition new : t :=
  {| id := ""; name := ""; x := 0; y := 0; z := 0; rotation := 0;
     state := "idle"; velocityX := 0; velocityZ := 0;
     health := 100; hunger := 100; sanity := 100 |}.

(** Assignments to one field.  [defineTypes] makes every field an accessor
    of [Schema], whose setter returns at once when the value assigned is
    [===] the value that the field holds.  For a string, and for a number
    other than a zero, the object is then what a store makes it.  A zero
    assigned over the zero of the other sign is not stored, though, and the
    message handlers assign such zeros: the constant [0] of "stop", a
    quotient [-0 / length * MOVE_SPEED] and an angle [Math.atan2(-0, 1)] of
    "move".  The setters of [rotation], [velocityX] and [velocityZ] spell the
    test out.  ([NaN === NaN] is false: a NaN is stored, also over a NaN.)

    No coordinate is a zero of negative sign: [y] is only assigned [0], a
    spawn coordinate [(Math.random() - 0.5) * WORLD_SIZE * 0.8] is a zero
    only as [0.5 - 0.5], and the sum [x + velocityX * deltaTime] of [update]
    and its clamp are [-0] only where [x] is.  For [x], [y] and [z] a store
    is therefore what the setter does. *)
Definition set_id (v : string) (p : t) : t :=
  mk v (name p) (x p) (y p) (z p) (rotation p) (state p)
     (velocityX p) (velocityZ p) (health p) (hunger p) (sanity p).
Definition set_name (v : string) (p : t) : t :=
  mk (id p) v (x p) (y p) (z p) (rotation p) (state p)
     (velocityX p) (velocityZ p) (health p) (hunger p) (sanity p).
Definition set_x (v : float) (p : t) : t :=
  mk (id p) (name p) v (y p) (z p) (rotation p) (state p)
     (velocityX p) (velocityZ p) (health p) (hunger p) (sanity p).
Definition set_y (v : float) (p : t) : t :=
  mk (id p) (name p) (x p) v (z p) (rotation p) (state p)
     (velocityX p) (velocityZ p) (health p) (hunger p) (sanity p).
Definition set_z (v : float) (p : t) : t :=
  mk (id p) (name p) (x p) (y p) v (rotation p) (state p)
     (velocityX p) (velocityZ p) (health p) (hunger p) (sanity p).
Definition set_rotation (v : float) (p : t) : t :=
  if (v =? rotation p)%float then p
  else mk (id p) (name p) (x p) (y p) (z p) v (state p)
          (velocityX p) (velocityZ p) (health p) (hunger p) (sanity p).
Definition set_state (v : string) (p : t) : t :=
  mk (id p) (name p) (x p) (y p) (z p) (rotation p) v
     (velocityX p) (velocityZ p) (health p) (hunger p) (sanity p).
Definition set_velocityX (v : float) (p : t) : t :=
  if (v =? velocityX p)%float then p
  else mk (id p) (name p) (x p) (y p) (z p) (rotation p) (state p)
          v (velocityZ p) (health p) (hunger p) (sanity p).
Definition set_velocityZ (v : float) (p : t) : t :=
  if (v =? velocityZ p)%float then p
  else mk (id p) (name p) (x p) (y p) (z p) (rotation p) (state p)
          (velocityX p) v (health p) (hunger p) (sanity p).

(** The magnitude of the velocity. *)
Definition speed (p : t) : float :=
  sqrt (velocityX p * velocityX p + velocityZ p * velocityZ p).

End Player.

Module WorldObject.

Record t := mk {
  id : string;
  type : string;
  x : float;
  y : float;
  z : float;
  rotation : float;
  interactable : bool
}.

End WorldObject.

(** ** The room (GameRoom.js) *)

Module GameRoom.

Definition MOVE_SPEED : float := 5.
Definition WORLD_SIZE : float := 50.
Definition TICK_RATE : float := 1000 / 60.

(** A [Player] is a mutable object.  The [players] map holds references to
    such objects, and so does the closure that the "action" handler passes to
    [setTimeout]; a reference is an address in [heap]. *)
Definition ref := nat.

(** [GameState]: [players] and [worldObjects] are [MapSchema]s keyed by
    session id and object id. *)
Record GameState := mkState {
  players : gmap string ref;
  worldObjects : gmap string WorldObject.t;
  worldTime : float;
  dayPhase : string
}.

(** A callback scheduled with [setTimeout(.., 500)] by the "action" handler:
    the time (ms) at which it becomes due and the player object it closed
    over. *)
Record Timer := mkTimer { due : Z; target : ref }.

Record Room := mkRoom {
  heap : gmap ref Player.t;
  nextRef : ref;
  state : GameState;
  now : Z;
  timers : list Timer
}.

Definition set_heap (h : gmap ref Player.t) (r : Room) : Room :=
  mkRoom h (nextRef r) (state r) (now r) (timers r).
Definition set_state (s : GameState) (r : Room) : Room :=
  mkRoom (heap r) (nextRef r) s (now r) (timers r).
Definition set_timers (ts : list Timer) (r : Room) : Room :=
  mkRoom (heap r) (nextRef r) (state r) (now r) ts.
Definition set_now (t : Z) (r : Room) : Room :=
  mkRoom (heap r) (nextRef r) (state r) t (timers r).

(** [this.state.players.get(sessionId)], dereferenced. *)
Definition getPlayer (r : Room) (sessionId : string) : option Player.t :=
  players (state r) !! sessionId ≫= λ l, heap r !! l.

(** The room after [onCreate]: [setState(new GameState())], with
    [worldObjects] holding the objects [objs] that [generateWorld] made. *)
Definition create (objs : gmap string WorldObject.t) : Room :=
  {| heap := ∅; nextRef := 0;
     state := {| players := ∅; worldObjects := objs;
                 worldTime := 0; dayPhase := "day" |};
     now := 0; timers := [] |}.

(** The payload of a "move" message, with [dirX] and [dirZ] read as numbers. *)
Record MoveData := mkMove { dirX : float; dirZ : float }.

(** What a handler does: it returns, or it throws. *)
Inductive outcome :=
| Done (r : Room)
| Threw (error : string).

Inductive message :=
| Move (data : option MoveData)
| Stop
| Action.

(** What happens to a room: a client joins or leaves, a message arrives, the
    simulation interval ticks, or time just passes. *)
Inductive event :=
| Join (sessionId : string) (optName : option string) (rx rz : float)
| Leave (sessionId : string)
| Message (sessionId : string) (m : message)
| Tick
| Wait.

(** [this.onMessage('stop', (client) => ...)] *)
Definition onStop (r : Room) (sessionId : string) : outcome :=
  match players (state r) !! sessionId with
  | None => Done r
  | Some l =>
      Done (set_heap
              (alter (λ player,
                   Player.set_state "idle"
                     (Player.set_velocityZ 0 (Player.set_velocityX 0 player)))
                 l (heap r)) r)
  end.

(** [this.onMessage('action', (client, data) => ...)]: the state is set and
    the revert is scheduled 500 ms from now. *)
Definition onAction (r : Room) (sessionId : string) : outcome :=
  match players (state r) !! sessionId with
  | None => Done r
  | Some l =>
      Done (set_timers (timers r ++ [mkTimer (now r + 500)%Z l])
              (set_heap (alter (Player.set_state "action") l (heap r)) r))
  end.

(** The body of the callback given to [setTimeout]:
    [if (player.state === 'action') player.state = 'idle']. *)
Definition revert (player : Player.t) : Player.t :=
  if String.eqb (Player.state player) "action"
  then Player.set_state "idle" player
  else player.

Definition fire (tm : Timer) (r : Room) : Room :=
  set_heap (alter revert (target tm) (heap r)) r.

(** [onJoin(client, options)]; [rx] and [rz] are the two values drawn from
    [Math.random()], [optName] is [options.name]. *)
Definition onJoin (r : Room) (sessionId : string) (optName : option string)
    (rx rz : float) : Room :=
  let name :=
    match optName with
    | Some n =>
        if String.eqb n "" then "Player_" +:+ String.substring 0 4 sessionId else n
    | None => "Player_" +:+ String.substring 0 4 sessionId
    end in
  let player :=
    Player.set_y 0
      (Player.set_z ((rz - 0.5) * WORLD_SIZE * 0.8)
         (Player.set_x ((rx - 0.5) * WORLD_SIZE * 0.8)
            (Player.set_name name (Player.set_id sessionId Player.new)))) in
  let l := nextRef r in
  let s := state r in
  mkRoom (<[l := player]> (heap r)) (S l)
    (mkState (<[sessionId := l]> (players s)) (worldObjects s)
       (worldTime s) (dayPhase s))
    (now r) (timers r).

(** [onLeave(client, consented)] *)
Definition onLeave (r : Room) (sessionId : string) : Room :=
  let s := state r in
  set_state (mkState (delete sessionId (players s)) (worldObjects s)
               (worldTime s) (dayPhase s)) r.

Definition deltaTime : float := TICK_RATE / 1000.
Definition halfWorld : float := WORLD_SIZE / 2.

(** The callback of [this.state.players.forEach] in [update]. *)
Definition movePlayer (player : Player.t) : Player.t :=
  if JS.strict_neq (Player.velocityX player) 0
     || JS.strict_neq (Player.velocityZ player) 0
  then
    let x1 := (Player.x player + Player.velocityX player * deltaTime)%float in
    let z1 := (Player.z player + Player.velocityZ player * deltaTime)%float in
    Player.set_z (JS.Math_max (- halfWorld) (JS.Math_min halfWorld z1))
      (Player.set_x (JS.Math_max (- halfWorld) (JS.Math_min halfWorld x1))
         player)
  else player.

Definition dayLength : float := 480.

(** The day/night branch of [update], on [timeOfDay]. *)
Definition phaseOf (timeOfDay : float) : string :=
  if (timeOfDay <? dayLength * 0.5)%float then "day"
  else if (timeOfDay <? dayLength * 0.625)%float then "dusk"
  else "night".

(** [update()]: one tick of the simulation interval. *)
Definition update (r : Room) : Room :=
  let s := state r in
  let heap' :=
    foldr (λ '(_, l) h, alter movePlayer l h) (heap r)
      (map_to_list (players s)) in
  let worldTime' := (worldTime s + deltaTime)%float in
  let timeOfDay := JS.rem worldTime' dayLength in
  mkRoom heap' (nextRef r)
    (mkState (players s) (worldObjects s) worldTime' (phaseOf timeOfDay))
    (now r) (timers r).

(** The callbacks of [setTimeout] run when their delay has elapsed, in the
    order in which they were scheduled (all delays are 500 ms). *)
Definition advance (t : Z) (r : Room) : Room :=
  let dueNow := filter (λ tm, (due tm <=? t)%Z = true) (timers r) in
  let later := filter (λ tm, (due tm <=? t)%Z = false) (timers r) in
  set_now (Z.max (now r) t)
    (foldl (λ r' tm, fire tm r') (set_timers later r) dueNow).

Section Handlers.

Variable atan2_approx : float -> float -> float.

(** [this.onMessage('move', (client, data) => ...)].  [data] is [None] when
    the message carries no payload ([undefined]), on which the destructuring
    [const { dirX, dirZ } = data] throws. *)
Definition onMove (r : Room) (sessionId : string) (data : option MoveData)
  : outcome :=
  match players (state r) !! sessionId with
  | None => Done r
  | Some l =>
      match data with
      | None => Threw "TypeError"
      | Some d =>
          let dirX := dirX d in
          let dirZ := dirZ d in
          let length := sqrt (dirX * dirX + dirZ * dirZ) in
          if (0 <? length)%float then
            Done (set_heap
                    (alter (λ player,
                         Player.set_rotation (JS.Math_atan2 atan2_approx dirX dirZ)
                           (Player.set_state "walking"
                              (Player.set_velocityZ (dirZ / length * MOVE_SPEED)
                                 (Player.set_velocityX (dirX / length * MOVE_SPEED)
                                    player))))
                       l (heap r)) r)
          else Done r
      end
  end.

Definition onMessage (r : Room) (sessionId : string) (m : message) : outcome :=
  match m with
  | Move data => onMove r sessionId data
  | Stop => onStop r sessionId
  | Action => onAction r sessionId
  end.

(** One event on the server.  Nothing catches what a handler throws: the
    exception ends the server process, and there is no room from then on
    ([None]). *)
Definition step (r : Room) (e : event) : option Room :=
  match e with
  | Join sid n rx rz => Some (onJoin r sid n rx rz)
  | Leave sid => Some (onLeave r sid)
  | Message sid m =>
      match onMessage r sid m with
      | Done r' => Some r'
      | Threw _ => None
      end
  | Tick => Some (update r)
  | Wait => Some r
  end.

(** The server over a trace: each event comes with the time (ms since the
    room was created) at which it is processed, and the timers due by then
    run first.  The result is the room at the end, if the process is still
    there. *)
Fixpoint serve (r : Room) (trace : list (Z * event)) : option Room :=
  match trace with
  | [] => Some r
  | (t, e) :: rest => step (advance t r) e ≫= λ r', serve r' rest
  end.

(** [step] made total: where the handler throws, [handle] gives the room as
    it was.  [run] below thus goes on where the server has gone; it reaches
    every room that [serve] reaches and others besides, so that what holds of
    all the rooms of [run] holds of all the rooms of the server. *)
Definition handle (r : Room) (e : event) : Room :=
  match e with
  | Join sid n rx rz => onJoin r sid n rx rz
  | Leave sid => onLeave r sid
  | Message sid m =>
      match onMessage r sid m with
      | Done r' => r'
      | Threw _ => r
      end
  | Tick => update r
  | Wait => r
  end.

(** A run of [handle] over a trace. *)
Definition run (r : Room) (trace : list (Z * event)) : Room :=
  foldl (λ r' te, handle (advance te.1 r') te.2) r trace.

End Handlers.

(** A "move" message with a payload. *)
Definition move (sessionId : string) (dx dz : float) : event :=
  Message sessionId (Move (Some (mkMove dx dz))).

(** [|x| <= WORLD_SIZE/2] and [|z| <= WORLD_SIZE/2] *)
Definition in_bounds (p : Player.t) : bool :=
  ((abs (Player.x p) <=? halfWorld) && (abs (Player.z p) <=? halfWorld))%float.

(** The clamp that [update] applies to each coordinate. *)
Definition clamp (v : float) : float :=
  JS.Math_max (- halfWorld) (JS.Math_min halfWorld v).

(** A player inside the bounds whose velocity components are numbers. *)
Definition safe (p : Player.t) : Prop :=
  in_bounds p = true /\ is_nan (Player.velocityX p) = false
  /\ is_nan (Player.velocityZ p) = false.

(** What the "stop" handler leaves of a player. *)
Definition stopped (p : Player.t) : Player.t :=
  Player.set_state "idle" (Player.set_velocityZ 0 (Player.set_velocityX 0 p)).

(** The day phase as the specification words it: with [t] the world time
    modulo the day length (480), "day" when [t < 0.5 * dayLength], "dusk" when
    [0.5 * dayLength <= t < 0.625 * dayLength], "night" otherwise. *)
Definition dayPhase_spec (t : float) : string :=
  if (t <? 0.5 * 480)%float then "day"
  else if ((0.5 * 480 <=? t) && (t <? 0.625 * 480))%float then "dusk"
  else "night".

(** [generateWorld()].  [random k] is what the [k]-th call of [Math.random()]
    returns; the accumulator carries the [worldObjects] map and the number of
    calls made so far.  One pass of a [for] loop: *)
Definition addObject (random : nat -> float) (prefix type : string)
    (acc : gmap string WorldObject.t * nat) (i : nat)
  : gmap string WorldObject.t * nat :=
  let '(objs, k) := acc in
  let id := prefix +:+ pretty i in
  let x := ((random k - 0.5) * WORLD_SIZE * 0.9)%float in
  let z := ((random (k + 1)%nat - 0.5) * WORLD_SIZE * 0.9)%float in
  let rotation := (random (k + 2)%nat * JS.PI * 2)%float in
  (<[id := WorldObject.mk id type x 0 z rotation true]> objs, k + 3).

Definition generateWorld (random : nat -> float) : gmap string WorldObject.t :=
  let trees := foldl (addObject random "tree_" "tree") (∅, 0) (seq 0 30) in
  let rocks := foldl (addObject random "rock_" "rock") trees (seq 0 15) in
  let grass := foldl (addObject random "grass_" "grass") rocks (seq 0 40) in
  let bushes := foldl (addObject random "bush_" "berry_bush") grass (seq 0 10) in
  bushes.1.

(** Every session id of [players] refers to a [Player] object that exists,
    allocated before [nextRef], and no two session ids refer to the same
    object. *)
Definition wf (r : Room) : Prop :=
  (forall sid l, players (state r) !! sid = Some l ->
     l < nextRef r /\ is_Some (heap r !! l)) /\
  (forall sid1 sid2 l, players (state r) !! sid1 = Some l ->
     players (state r) !! sid2 = Some l -> sid1 = sid2).

(** The player that a tick makes of [p] when no clamp applies. *)
Definition stepped (p : Player.t) : Player.t :=
  if JS.strict_neq (Player.velocityX p) 0 || JS.strict_neq (Player.velocityZ p) 0
  then Player.set_z (Player.z p + Player.velocityZ p * deltaTime)
         (Player.set_x (Player.x p + Player.velocityX p * deltaTime) p)
  else p.

(** Whether the session [sid] has a player after the events of [trace], where
    [had] tells whether it had one before: its last [Join] or [Leave]
    decides. *)
Definition present (sid : string) (had : bool) (trace : list (Z * event)) : bool :=
  foldl (λ b te,
           match te.2 with
           | Join s _ _ _ => if decide (s = sid) then true else b
           | Leave s => if decide (s = sid) then false else b
           | _ => b
           end) had trace.

Definition is_tick (e : event) : bool :=
  match e with Tick => true | _ => false end.

(** The number of ticks in a trace. *)
Definition ticks (trace : list (Z * event)) : nat :=
  length (filter (λ te, is_tick te.2 = true) trace).


(** The objects of [worldObjects] of the type [type]. *)
Definition objectsOfType (type : string) (objs : gmap string WorldObject.t)
  : list (string * WorldObject.t) :=
  filter (λ kv, WorldObject.type kv.2 = type) (map_to_list objs).

(** The session an event comes from. *)
Definition sender (e : event) : option string :=
  match e with
  | Join s _ _ _ | Leave s | Message s _ => Some s
  | Tick | Wait => None
  end.



End GameRoom.

(** ** The client reconciliation layer (NetworkManager.js) *)

Module NetworkManager.

(** The room state as the client receives it in [onStateChange]: the two maps
    in their iteration order. *)
Record Snapshot := mkSnapshot {
  players : list (string * Player.t);
  worldObjects : list (string * WorldObject.t);
  worldTime : float;
  dayPhase : string
}.

(** The object literals handed to the callbacks. *)
Record JoinData := mkJoinData {
  j_id : string; j_name : string; j_x : float; j_y : float; j_z : float;
  j_rotation : float; j_state : string;
  j_health : float; j_hunger : float; j_sanity : float
}.
Record UpdateData := mkUpdateData {
  u_x : float; u_y : float; u_z : float; u_rotation : float; u_state : string;
  u_health : float; u_hunger : float; u_sanity : float
}.
Record ObjectData := mkObjectData {
  o_id : string; o_type : string; o_x : float; o_y : float; o_z : float;
  o_rotation : float
}.

(** One invocation of a callback. *)
Inductive call :=
| onPlayerJoin (sessionId : string) (data : JoinData)
| onPlayerUpdate (sessionId : string) (data : UpdateData)
| onPlayerLeave (sessionId : string)
| onWorldObjectAdd (id : string) (data : ObjectData)
| onStateChange (worldTime : float) (dayPhase : string).

(** The fields of a [NetworkManager] that [processState] reads or writes.  The
    two [Set]s are kept in insertion order, which is the order a JavaScript
    [Set] iterates in; a callback field is [true] when a function has been
    assigned to it and [false] while it is [null]. *)
Record t := mk {
  trackedPlayers : list string;
  trackedObjects : list string;
  hasOnPlayerJoin : bool;
  hasOnPlayerLeave : bool;
  hasOnPlayerUpdate : bool;
  hasOnWorldObjectAdd : bool;
  hasOnStateChange : bool
}.

(** [new NetworkManager()] followed by the assignments of the callbacks that
    [Game.init] makes before it connects. *)
Definition new : t :=
  {| trackedPlayers := []; trackedObjects := [];
     hasOnPlayerJoin := true; hasOnPlayerLeave := true;
     hasOnPlayerUpdate := true; hasOnWorldObjectAdd := true;
     hasOnStateChange := true |}.

(** [Set.prototype.has], [add] and [delete]. *)
Definition Set_has (s : list string) (k : string) : bool := bool_decide (k ∈ s).
Definition Set_add (s : list string) (k : string) : list string :=
  if Set_has s k then s else s ++ [k].
Definition Set_delete (s : list string) (k : string) : list string :=
  filter (λ k', k' ≠ k) s.

Definition joinData (player : Player.t) : JoinData :=
  mkJoinData (Player.id player) (Player.name player)
    (Player.x player) (Player.y player) (Player.z player)
    (Player.rotation player) (Player.state player)
    (Player.health player) (Player.hunger player) (Player.sanity player).
Definition updateData (player : Player.t) : UpdateData :=
  mkUpdateData (Player.x player) (Player.y player) (Player.z player)
    (Player.rotation player) (Player.state player)
    (Player.health player) (Player.hunger player) (Player.sanity player).
Definition objectData (obj : WorldObject.t) : ObjectData :=
  mkObjectData (WorldObject.id obj) (WorldObject.type obj)
    (WorldObject.x obj) (WorldObject.y obj) (WorldObject.z obj)
    (WorldObject.rotation obj).

(** A callback is invoked only if one is registered ([if (this.onX)]). *)
Definition invoke (registered : bool) (c : call) : list call :=
  if registered then [c] else [].

(** [state.players.forEach((player, sessionId) => ...)]: returns the tracked
    set, [currentPlayerIds] and the calls made. *)
Fixpoint forEachPlayer (nm : t) (ps : list (string * Player.t))
    (tracked current : list string) : list string * list string * list call :=
  match ps with
  | [] => (tracked, current, [])
  | (sessionId, player) :: rest =>
      let current := Set_add current sessionId in
      let '(tracked, joined) :=
        if negb (Set_has tracked sessionId)
        then (Set_add tracked sessionId,
              invoke (hasOnPlayerJoin nm) (onPlayerJoin sessionId (joinData player)))
        else (tracked, []) in
      let updated :=
        invoke (hasOnPlayerUpdate nm) (onPlayerUpdate sessionId (updateData player)) in
      let '(tracked, current, calls) := forEachPlayer nm rest tracked current in
      (tracked, current, joined ++ updated ++ calls)
  end.

(** [for (const sessionId of this.trackedPlayers)]: [ids] are the elements
    still to be visited; deleting the visited element does not disturb the
    iteration. *)
Fixpoint forOfTracked (nm : t) (ids : list string) (current tracked : list string)
  : list string * list call :=
  match ids with
  | [] => (tracked, [])
  | sessionId :: rest =>
      let '(tracked, gone) :=
        if negb (Set_has current sessionId)
        then (Set_delete tracked sessionId,
              invoke (hasOnPlayerLeave nm) (onPlayerLeave sessionId))
        else (tracked, []) in
      let '(tracked, calls) := forOfTracked nm rest current tracked in
      (tracked, gone ++ calls)
  end.

(** [state.worldObjects.forEach((obj, id) => ...)] *)
Fixpoint forEachObject (nm : t) (os : list (string * WorldObject.t))
    (tracked : list string) : list string * list call :=
  match os with
  | [] => (tracked, [])
  | (id, obj) :: rest =>
      let '(tracked, added) :=
        if negb (Set_has tracked id)
        then (Set_add tracked id,
              invoke (hasOnWorldObjectAdd nm) (onWorldObjectAdd id (objectData obj)))
        else (tracked, []) in
      let '(tracked, calls) := forEachObject nm rest tracked in
      (tracked, added ++ calls)
  end.

(** [processState(state)]: the manager afterwards and the callbacks invoked,
    in order. *)
Definition processState (nm : t) (state : Snapshot) : t * list call :=
  let '(tracked1, currentPlayerIds, calls1) :=
    forEachPlayer nm (players state) (trackedPlayers nm) [] in
  let '(tracked2, calls2) := forOfTracked nm tracked1 currentPlayerIds tracked1 in
  let '(objects, calls3) := forEachObject nm (worldObjects state) (trackedObjects nm) in
  let calls4 :=
    invoke (hasOnStateChange nm) (onStateChange (worldTime state) (dayPhase state)) in
  (mk tracked2 objects (hasOnPlayerJoin nm) (hasOnPlayerLeave nm)
      (hasOnPlayerUpdate nm) (hasOnWorldObjectAdd nm) (hasOnStateChange nm),
   calls1 ++ calls2 ++ calls3 ++ calls4).

(** The snapshots [states] processed one after the other: the manager at the
    end and, per snapshot, the calls it caused. *)
Fixpoint processStates (nm : t) (states : list Snapshot) : t * list (list call) :=
  match states with
  | [] => (nm, [])
  | s :: rest =>
      let '(nm1, calls) := processState nm s in
      let '(nm2, log) := processStates nm1 rest in
      (nm2, calls :: log)
  end.

(** Arrival and departure events of the entity [k] among [calls]. *)
Definition is_player_arrival (k : string) (c : call) : bool :=
  match c with
  | onPlayerJoin sid _ => bool_decide (sid = k)
  | _ => false
  end.
Definition is_object_arrival (k : string) (c : call) : bool :=
  match c with
  | onWorldObjectAdd id _ => bool_decide (id = k)
  | _ => false
  end.
Definition is_departure (k : string) (c : call) : bool :=
  match c with
  | onPlayerLeave sid => bool_decide (sid = k)
  | _ => false
  end.
Definition count (f : call -> bool) (calls : list call) : nat :=
  length (filter (λ c, f c = true) calls).

(** The entity [k] is in the snapshot. *)
Definition has_player (k : string) (s : Snapshot) : bool :=
  bool_decide (k ∈ (players s).*1).
Definition has_object (k : string) (s : Snapshot) : bool :=
  bool_decide (k ∈ (worldObjects s).*1).

(** 1 if [P] holds, 0 otherwise. *)
Definition ind (P : Prop) `{Decision P} : nat := if decide P then 1 else 0.

(** A manager on which the arrival and departure counts can be stated:
    [trackedPlayers] is a set (no id twice), and the arrival and departure
    callbacks are registered. *)
Definition ready (nm : t) : Prop :=
  NoDup (trackedPlayers nm) /\ hasOnPlayerJoin nm = true /\
  hasOnPlayerLeave nm = true /\ hasOnWorldObjectAdd nm = true.

(** Update and state-change notifications among [calls]. *)
Definition is_update (c : call) : bool :=
  match c with
  | onPlayerUpdate _ _ => true
  | _ => false
  end.
Definition is_state_change (c : call) : bool :=
  match c with
  | onStateChange _ _ => true
  | _ => false
  end.

(** The calls that concern the player [k]. *)
Definition about (k : string) (c : call) : bool :=
  match c with
  | onPlayerJoin sid _ | onPlayerUpdate sid _ | onPlayerLeave sid => bool_decide (sid = k)
  | _ => false
  end.

(** All five callbacks are registered. *)
Definition wired (nm : t) : Prop :=
  hasOnPlayerJoin nm = true /\ hasOnPlayerLeave nm = true /\
  hasOnPlayerUpdate nm = true /\ hasOnWorldObjectAdd nm = true /\
  hasOnStateChange nm = true.

(** The four stages of [processState], by the calls they make: the players
    present, the players gone, the world objects, the state change. *)
Definition stage (c : call) : nat :=
  match c with
  | onPlayerJoin _ _ | onPlayerUpdate _ _ => 0
  | onPlayerLeave _ => 1
  | onWorldObjectAdd _ _ => 2
  | onStateChange _ _ => 3
  end.

End NetworkManager.

(** ** The scene bookkeeping of the client (GameEngine.js) *)

Module GameEngine.

(** A [TransformNode]: its name and the two coordinates of [position] that
    the game writes. *)
Record Node := mkNode { name : string; posX : float; posZ : float }.

(** An entry of [playerMeshes], without the Babylon objects: [isLocal] and
    [walkAnimation], which is [undefined] until [setPlayerState] sets it. *)
Record PlayerData := mkPlayerData { isLocal : bool; walkAnimation : option bool }.

(** The fields that the game's handlers reach: [playerMeshes];
    [worldObjectMeshes], with the kind of mesh built for each id;
    [cameraTarget], by the name of the node; [dayPhase]. *)
Record t := mk {
  playerMeshes : gmap string PlayerData;
  worldObjectMeshes : gmap string string;
  cameraTarget : option string;
  dayPhase : string
}.

(** [new GameEngine(canvas)] *)
Definition new : t :=
  {| playerMeshes := ∅; worldObjectMeshes := ∅; cameraTarget := None;
     dayPhase := "day" |}.

(** [createPlayer(id, isLocal)]: the engine afterwards and the node returned,
    at the origin. *)
Definition createPlayer (e : t) (id : string) (isLocal : bool) : t * Node :=
  let playerNode := mkNode ("player_" +:+ id) 0 0 in
  (mk (<[id := mkPlayerData isLocal None]> (playerMeshes e))
      (worldObjectMeshes e) (cameraTarget e) (dayPhase e),
   playerNode).

(** [removePlayer(playerNode)] *)
Definition removePlayer (e : t) (playerNode : Node) : t :=
  let id := JS.replace "player_" "" (name playerNode) in
  match playerMeshes e !! id with
  | Some _ =>
      mk (delete id (playerMeshes e)) (worldObjectMeshes e) (cameraTarget e)
         (dayPhase e)
  | None => e
  end.

(** [setPlayerState(playerNode, state)]: of the animation it starts, the flag
    [walkAnimation] is kept. *)
Definition setPlayerState (e : t) (playerNode : Node) (state : string) : t :=
  let id := JS.replace "player_" "" (name playerNode) in
  match playerMeshes e !! id with
  | None => e
  | Some playerData =>
      let walking := String.eqb state "walking" in
      mk (<[id := mkPlayerData (isLocal playerData) (Some walking)]> (playerMeshes e))
         (worldObjectMeshes e) (cameraTarget e) (dayPhase e)
  end.

(** [createWorldObject(id, type, x, z, rotation)]: the [switch] picks the
    builder, and the mesh is stored under [id]. *)
Definition createWorldObject (e : t) (id type : string) : t :=
  let mesh :=
    if String.eqb type "tree" then "tree"
    else if String.eqb type "rock" then "rock"
    else if String.eqb type "grass" then "grass"
    else if String.eqb type "berry_bush" then "berry_bush"
    else "generic" in
  mk (playerMeshes e) (<[id := mesh]> (worldObjectMeshes e)) (cameraTarget e)
     (dayPhase e).

Definition setCameraTarget (e : t) (target : Node) : t :=
  mk (playerMeshes e) (worldObjectMeshes e) (Some (name target)) (dayPhase e).

(** [setDayPhase(phase)], without the lighting. *)
Definition setDayPhase (e : t) (phase : string) : t :=
  mk (playerMeshes e) (worldObjectMeshes e) (cameraTarget e) phase.

End GameEngine.

(** ** What the page shows (UIManager.js) *)

Module UIManager.

(** What has been written into the elements: [None] while an element is as
    the page delivered it (for [dayClass], while the indicator has none of
    the three phase classes). *)
Record t := mk {
  connected : option bool;
  playerCount : option nat;
  dayClass : option string;
  dayText : option string;
  health : option float;
  hunger : option float;
  sanity : option float
}.

Definition new : t :=
  {| connected := None; playerCount := None; dayClass := None; dayText := None;
     health := None; hunger := None; sanity := None |}.

Definition setConnected (u : t) (c : bool) : t :=
  mk (Some c) (playerCount u) (dayClass u) (dayText u) (health u) (hunger u) (sanity u).
Definition setPlayerCount (u : t) (count : nat) : t :=
  mk (connected u) (Some count) (dayClass u) (dayText u) (health u) (hunger u) (sanity u).

(** [setDayPhase(phase)]: the classes are removed, and one is added and the
    text set only for the three known phases. *)
Definition setDayPhase (u : t) (phase : string) : t :=
  let known :=
    String.eqb phase "day" || String.eqb phase "dusk" || String.eqb phase "night" in
  mk (connected u) (playerCount u)
     (if known then Some phase else None)
     (if known then Some phase else dayText u)
     (health u) (hunger u) (sanity u).

Definition setHealth (u : t) (value : float) : t :=
  mk (connected u) (playerCount u) (dayClass u) (dayText u) (Some value) (hunger u) (sanity u).
Definition setHunger (u : t) (value : float) : t :=
  mk (connected u) (playerCount u) (dayClass u) (dayText u) (health u) (Some value) (sanity u).
Definition setSanity (u : t) (value : float) : t :=
  mk (connected u) (playerCount u) (dayClass u) (dayText u) (health u) (hunger u) (Some value).

(** The three bars. *)
Definition stats (u : t) : option float * option float * option float :=
  (health u, hunger u, sanity u).

End UIManager.

(** ** The game client (main.js, class [Game]) *)

Module Game.

(** The [changes] argument of [handlePlayerUpdate]; a field is [None] when it
    is [undefined]. *)
Record Changes := mkChanges {
  c_x : option float;
  c_z : option float;
  c_state : option string;
  c_rotation : option float;
  c_health : option float;
  c_hunger : option float;
  c_sanity : option float
}.

(** An entry of [Game.players]. *)
Record Entry := mkEntry {
  mesh : GameEngine.Node;
  data : NetworkManager.JoinData;
  targetX : float;
  targetZ : float;
  isLocal : bool
}.

Record t := mk {
  engine : GameEngine.t;
  ui : UIManager.t;
  localPlayerId : option string;
  players : gmap string Entry;
  worldObjects : gmap string (string * NetworkManager.ObjectData)
}.

(** The game when [init] has created the engine and the UI manager. *)
Definition new : t :=
  {| engine := GameEngine.new; ui := UIManager.new; localPlayerId := None;
     players := ∅; worldObjects := ∅ |}.

Definition handleConnect (g : t) (playerId : string) : t :=
  mk (engine g) (UIManager.setConnected (ui g) true) (Some playerId)
     (players g) (worldObjects g).

Definition handleDisconnect (g : t) : t :=
  mk (engine g) (UIManager.setConnected (ui g) false) (localPlayerId g)
     (players g) (worldObjects g).

Definition handlePlayerJoin (g : t) (id : string) (playerData : NetworkManager.JoinData)
  : t :=
  let isLocal := bool_decide (localPlayerId g = Some id) in
  let '(engine1, playerMesh) := GameEngine.createPlayer (engine g) id isLocal in
  let playerMesh :=
    GameEngine.mkNode (GameEngine.name playerMesh)
      (NetworkManager.j_x playerData) (NetworkManager.j_z playerData) in
  let players1 :=
    <[id := mkEntry playerMesh playerData (NetworkManager.j_x playerData)
              (NetworkManager.j_z playerData) isLocal]> (players g) in
  let engine2 :=
    if isLocal then GameEngine.setCameraTarget engine1 playerMesh else engine1 in
  mk engine2 (UIManager.setPlayerCount (ui g) (size players1)) (localPlayerId g)
     players1 (worldObjects g).

Definition handlePlayerLeave (g : t) (id : string) : t :=
  let '(engine1, players1) :=
    match players g !! id with
    | Some player =>
        (GameEngine.removePlayer (engine g) (mesh player), delete id (players g))
    | None => (engine g, players g)
    end in
  mk engine1 (UIManager.setPlayerCount (ui g) (size players1)) (localPlayerId g)
     players1 (worldObjects g).

Definition set_data_state (v : string) (d : NetworkManager.JoinData)
  : NetworkManager.JoinData :=
  NetworkManager.mkJoinData (NetworkManager.j_id d) (NetworkManager.j_name d)
    (NetworkManager.j_x d) (NetworkManager.j_y d) (NetworkManager.j_z d)
    (NetworkManager.j_rotation d) v
    (NetworkManager.j_health d) (NetworkManager.j_hunger d) (NetworkManager.j_sanity d).
Definition set_data_rotation (v : float) (d : NetworkManager.JoinData)
  : NetworkManager.JoinData :=
  NetworkManager.mkJoinData (NetworkManager.j_id d) (NetworkManager.j_name d)
    (NetworkManager.j_x d) (NetworkManager.j_y d) (NetworkManager.j_z d)
    v (NetworkManager.j_state d)
    (NetworkManager.j_health d) (NetworkManager.j_hunger d) (NetworkManager.j_sanity d).

(** [if (changes.f !== undefined) ...] *)
Definition whenDefined {A B : Type} (field : option A) (assign : A -> B -> B) (b : B) : B :=
  match field with
  | Some v => assign v b
  | None => b
  end.

Definition handlePlayerUpdate (g : t) (id : string) (changes : Changes) : t :=
  match players g !! id with
  | None => g
  | Some player =>
      let player :=
        whenDefined (c_x changes)
          (λ v p, mkEntry (mesh p) (data p) v (targetZ p) (isLocal p)) player in
      let player :=
        whenDefined (c_z changes)
          (λ v p, mkEntry (mesh p) (data p) (targetX p) v (isLocal p)) player in
      let '(player, engine1) :=
        whenDefined (c_state changes)
          (λ v '(p, e),
             (mkEntry (mesh p) (set_data_state v (data p)) (targetX p) (targetZ p)
                (isLocal p),
              GameEngine.setPlayerState e (mesh p) v))
          (player, engine g) in
      let player :=
        whenDefined (c_rotation changes)
          (λ v p, mkEntry (mesh p) (set_data_rotation v (data p)) (targetX p)
                    (targetZ p) (isLocal p)) player in
      let ui1 :=
        if isLocal player then
          whenDefined (c_sanity changes) (λ v u, UIManager.setSanity u v)
            (whenDefined (c_hunger changes) (λ v u, UIManager.setHunger u v)
               (whenDefined (c_health changes) (λ v u, UIManager.setHealth u v)
                  (ui g)))
        else ui g in
      mk engine1 ui1 (localPlayerId g) (<[id := player]> (players g)) (worldObjects g)
  end.

Definition handleWorldObjectAdd (g : t) (id : string) (objData : NetworkManager.ObjectData)
  : t :=
  let engine1 := GameEngine.createWorldObject (engine g) id (NetworkManager.o_type objData) in
  mk engine1 (ui g) (localPlayerId g) (players g)
     (<[id := (id, objData)]> (worldObjects g)).

Definition handleStateChange (g : t) (dayPhase : string) : t :=
  mk (GameEngine.setDayPhase (engine g) dayPhase)
     (UIManager.setDayPhase (ui g) dayPhase)
     (localPlayerId g) (players g) (worldObjects g).

(** The object literal that [processState] passes to [onPlayerUpdate] has all
    its fields. *)
Definition changesOf (u : NetworkManager.UpdateData) : Changes :=
  mkChanges (Some (NetworkManager.u_x u)) (Some (NetworkManager.u_z u))
    (Some (NetworkManager.u_state u)) (Some (NetworkManager.u_rotation u))
    (Some (NetworkManager.u_health u)) (Some (NetworkManager.u_hunger u))
    (Some (NetworkManager.u_sanity u)).

(** The callbacks that [init] assigns to the network manager. *)
Definition dispatch (g : t) (c : NetworkManager.call) : t :=
  match c with
  | NetworkManager.onPlayerJoin id player => handlePlayerJoin g id player
  | NetworkManager.onPlayerLeave id => handlePlayerLeave g id
  | NetworkManager.onPlayerUpdate id changes => handlePlayerUpdate g id (changesOf changes)
  | NetworkManager.onWorldObjectAdd id obj => handleWorldObjectAdd g id obj
  | NetworkManager.onStateChange _ dayPhase => handleStateChange g dayPhase
  end.

(** The game after the snapshots [states] have come in, on a fresh network
    manager with the callbacks assigned.  The handlers read and write nothing
    of the network manager, so running them on the log of [processState] is
    running them at the moment each call is made. *)
Definition receive (g : t) (states : list NetworkManager.Snapshot) : t :=
  foldl dispatch g (concat (NetworkManager.processStates NetworkManager.new states).2).

(** The entry of [k] shows the player [p]: the targets, the state and the
    rotation are those of [p], the mesh is animated as the state says, and
    if [k] is the local player the three bars show the stats of [p]. *)
Definition mirrors (k : string) (p : Player.t) (g : t) : Prop :=
  exists e, players g !! k = Some e /\
    targetX e = Player.x p /\ targetZ e = Player.z p /\
    NetworkManager.j_state (data e) = Player.state p /\
    NetworkManager.j_rotation (data e) = Player.rotation p /\
    isLocal e = bool_decide (localPlayerId g = Some k) /\
    GameEngine.walkAnimation <$> GameEngine.playerMeshes (engine g) !! k
      = Some (Some (String.eqb (Player.state p) "walking")) /\
    (isLocal e = true ->
     UIManager.stats (ui g)
     = (Some (Player.health p), Some (Player.hunger p), Some (Player.sanity p))).

(** The game's map of players, the engine's map of meshes and the tracked set
    of the network manager hold the same ids, each mesh is named after its
    id, the local player and no other is marked as local and the camera
    follows it, and the count shown is the number of players (nothing is
    shown only as long as there has been no player). *)
Definition coupled (g : t) (tracked : list string) : Prop :=
  (forall k, k ∈ tracked <-> is_Some (players g !! k)) /\
  (forall k, is_Some (GameEngine.playerMeshes (engine g) !! k)
             <-> is_Some (players g !! k)) /\
  (forall k e, players g !! k = Some e ->
     GameEngine.name (mesh e) = "player_" +:+ k /\
     isLocal e = bool_decide (localPlayerId g = Some k)) /\
  (forall k, localPlayerId g = Some k -> is_Some (players g !! k) ->
     GameEngine.cameraTarget (engine g) = Some ("player_" +:+ k)) /\
  ((UIManager.playerCount (ui g) = None /\ players g = ∅) \/
   UIManager.playerCount (ui g) = Some (size (players g))).

End Game.

(** ** Keyboard and touch input (InputManager.js) *)

Module InputManager.

Record Keys := mkKeys {
  up : bool;
  down : bool;
  left : bool;
  right : bool;
  action : bool
}.

(** The fields of an [InputManager], the two variables [joystickActive] and
    [joystickCenter] that the touch listeners close over, and for each
    callback whether one is assigned. *)
Record t := mk {
  keys : Keys;
  isMoving : bool;
  forwardX : float;
  forwardZ : float;
  rightX : float;
  rightZ : float;
  hasOnMove : bool;
  hasOnStop : bool;
  hasOnAction : bool;
  joystickActive : bool;
  joystickCenter : float * float
}.

(** One invocation of a callback. *)
Inductive call :=
| onMove (dirX dirZ : float)
| onStop
| onAction.

(** [new InputManager()] followed by the three assignments that [Game.init]
    makes. *)
Definition new : t :=
  {| keys := mkKeys false false false false false; isMoving := false;
     forwardX := 0; forwardZ := -1; rightX := 1; rightZ := 0;
     hasOnMove := true; hasOnStop := true; hasOnAction := true;
     joystickActive := false; joystickCenter := (0%float, 0%float) |}.

Definition set_keys (v : Keys) (im : t) : t :=
  mk v (isMoving im) (forwardX im) (forwardZ im) (rightX im) (rightZ im)
     (hasOnMove im) (hasOnStop im) (hasOnAction im)
     (joystickActive im) (joystickCenter im).
Definition set_isMoving (v : bool) (im : t) : t :=
  mk (keys im) v (forwardX im) (forwardZ im) (rightX im) (rightZ im)
     (hasOnMove im) (hasOnStop im) (hasOnAction im)
     (joystickActive im) (joystickCenter im).
Definition set_joystick (active : bool) (center : float * float) (im : t) : t :=
  mk (keys im) (isMoving im) (forwardX im) (forwardZ im) (rightX im) (rightZ im)
     (hasOnMove im) (hasOnStop im) (hasOnAction im) active center.

Definition set_up (v : bool) (k : Keys) : Keys :=
  mkKeys v (down k) (left k) (right k) (action k).
Definition set_down (v : bool) (k : Keys) : Keys :=
  mkKeys (up k) v (left k) (right k) (action k).
Definition set_left (v : bool) (k : Keys) : Keys :=
  mkKeys (up k) (down k) v (right k) (action k).
Definition set_right (v : bool) (k : Keys) : Keys :=
  mkKeys (up k) (down k) (left k) v (action k).
Definition set_action (v : bool) (k : Keys) : Keys :=
  mkKeys (up k) (down k) (left k) (right k) v.

(** A callback is invoked only if one is assigned ([if (this.onX)]). *)
Definition invoke (registered : bool) (c : call) : list call :=
  if registered then [c] else [].

(** [setCameraDirections(forwardX, forwardZ, rightX, rightZ)] *)
Definition setCameraDirections (im : t) (fx fz rx rz : float) : t :=
  mk (keys im) (isMoving im) fx fz rx rz
     (hasOnMove im) (hasOnStop im) (hasOnAction im)
     (joystickActive im) (joystickCenter im).

(** [updateMovement()] *)
Definition updateMovement (im : t) : t * list call :=
  let inputForward : float := 0%float in
  let inputRight : float := 0%float in
  let inputForward := if up (keys im) then 1%float else inputForward in
  let inputForward := if down (keys im) then (-1)%float else inputForward in
  let inputRight := if left (keys im) then (-1)%float else inputRight in
  let inputRight := if right (keys im) then 1%float else inputRight in
  let isNowMoving := JS.strict_neq inputForward 0 || JS.strict_neq inputRight 0 in
  if isNowMoving then
    let worldX := (inputForward * forwardX im + inputRight * rightX im)%float in
    let worldZ := (inputForward * forwardZ im + inputRight * rightZ im)%float in
    (set_isMoving true im, invoke (hasOnMove im) (onMove worldX worldZ))
  else if isMoving im then
    (set_isMoving false im, invoke (hasOnStop im) onStop)
  else (im, []).

(** [handleKey(code, isDown)]: the manager afterwards, the callbacks invoked
    and the value returned. *)
Definition handleKey (im : t) (code : string) (isDown : bool)
  : t * list call * bool :=
  let '(im1, calls1, handled) :=
    if String.eqb code "KeyW" || String.eqb code "ArrowUp" then
      (set_keys (set_up isDown (keys im)) im, [], true)
    else if String.eqb code "KeyS" || String.eqb code "ArrowDown" then
      (set_keys (set_down isDown (keys im)) im, [], true)
    else if String.eqb code "KeyA" || String.eqb code "ArrowLeft" then
      (set_keys (set_left isDown (keys im)) im, [], true)
    else if String.eqb code "KeyD" || String.eqb code "ArrowRight" then
      (set_keys (set_right isDown (keys im)) im, [], true)
    else if String.eqb code "Space" then
      if isDown && negb (action (keys im)) then
        (set_keys (set_action true (keys im)) im, invoke (hasOnAction im) onAction,
         true)
      else if negb isDown then
        (set_keys (set_action false (keys im)) im, [], true)
      else (im, [], true)
    else (im, [], false) in
  if handled then
    let '(im2, calls2) := updateMovement im1 in
    (im2, calls1 ++ calls2, true)
  else (im1, calls1, false).

(** [resetKeys()] *)
Definition resetKeys (im : t) : t * list call :=
  let im1 := set_keys (mkKeys false false false false false) im in
  if isMoving im1 then (set_isMoving false im1, invoke (hasOnStop im1) onStop)
  else (im1, []).

Section Touch.

(** [Math.cos], [Math.sin] and, off the special cases, [Math.atan2] are
    "implementation-approximated". *)
Variables (Math_cos Math_sin : float -> float) (atan2_approx : float -> float -> float).

Definition maxDistance : float := 45.

(** [handleJoystickMove(touchX, touchY, center, maxDistance, knob)], without
    the placement of the knob. *)
Definition handleJoystickMove (im : t) (touchX touchY : float) (center : float * float)
  : t * list call :=
  let dx := (touchX - center.1)%float in
  let dy := (touchY - center.2)%float in
  let distance := JS.Math_min (sqrt (dx * dx + dy * dy)) maxDistance in
  let angle := JS.Math_atan2 atan2_approx dy dx in
  let knobX := (Math_cos angle * distance)%float in
  let knobY := (Math_sin angle * distance)%float in
  if (10 <? distance)%float then
    let inputRight := (knobX / maxDistance)%float in
    let inputForward := (- knobY / maxDistance)%float in
    let worldX := (inputForward * forwardX im + inputRight * rightX im)%float in
    let worldZ := (inputForward * forwardZ im + inputRight * rightZ im)%float in
    (set_isMoving true im, invoke (hasOnMove im) (onMove worldX worldZ))
  else if isMoving im then
    (set_isMoving false im, invoke (hasOnStop im) onStop)
  else (im, []).

(** What the listeners react to.  A joystick [touchstart] comes with the
    centre of the joystick area as [getBoundingClientRect] gives it. *)
Inductive event :=
| keydown (code : string)
| keyup (code : string)
| blur
| cameraDirections (forwardX forwardZ rightX rightZ : float)
| joystick_touchstart (clientX clientY centerX centerY : float)
| joystick_touchmove (clientX clientY : float)
| joystick_touchend
| action_touchstart
| action_touchend.

(** The listeners that [setupListeners] and [setupTouchControls] install, and
    the call that [Game.update] makes. *)
Definition handle (im : t) (e : event) : t * list call :=
  match e with
  | keydown code => (handleKey im code true).1
  | keyup code => (handleKey im code false).1
  | blur => resetKeys im
  | cameraDirections fx fz rx rz => (setCameraDirections im fx fz rx rz, [])
  | joystick_touchstart x y cx cy =>
      let im1 := set_joystick true (cx, cy) im in
      handleJoystickMove im1 x y (joystickCenter im1)
  | joystick_touchmove x y =>
      if joystickActive im then handleJoystickMove im x y (joystickCenter im)
      else (im, [])
  | joystick_touchend =>
      let im1 := set_joystick false (joystickCenter im) im in
      if isMoving im1 then (set_isMoving false im1, invoke (hasOnStop im1) onStop)
      else (im1, [])
  | action_touchstart => (im, invoke (hasOnAction im) onAction)
  | action_touchend => (im, [])
  end.

(** The manager after the events, and all the callbacks invoked, in order. *)
Fixpoint run (im : t) (events : list event) : t * list call :=
  match events with
  | [] => (im, [])
  | e :: rest =>
      let '(im1, calls1) := handle im e in
      let '(im2, calls2) := run im1 rest in
      (im2, calls1 ++ calls2)
  end.

End Touch.

(** The events of the keyboard and the window. *)
Definition is_keyboard (e : event) : bool :=
  match e with
  | keydown _ | keyup _ | blur | cameraDirections _ _ _ _ => true
  | _ => false
  end.

(** One of the four direction keys is held. *)
Definition anyDirection (k : Keys) : bool := up k || down k || left k || right k.

(** A log in which every [onStop] comes after an [onMove] with no other
    [onStop] between them; [moving] tells whether the log starts in
    motion. *)
Fixpoint alternates (moving : bool) (calls : list call) : bool :=
  match calls with
  | [] => true
  | onMove _ _ :: rest => alternates true rest
  | onStop :: rest => moving && alternates false rest
  | onAction :: rest => alternates moving rest
  end.

(** The number of [onAction] calls. *)
Definition is_action (c : call) : bool :=
  match c with onAction => true | _ => false end.
Definition actions (calls : list call) : nat :=
  length (filter (λ c, is_action c = true) calls).

(** The events that release the action key. *)
Definition releases_action (e : event) : bool :=
  match e with
  | keyup code => String.eqb code "Space"
  | blur => true
  | _ => false
  end.

Definition presses_action (e : event) : bool :=
  match e with
  | keydown code => String.eqb code "Space"
  | _ => false
  end.

(** A listener that takes the manager from [im] to [im'] and makes the calls
    [calls] keeps the callbacks, and keeps the log in step with [isMoving]:
    whatever alternating log follows, the whole log alternates. *)
Definition steady (im im' : t) (calls : list call) : Prop :=
  hasOnMove im' = hasOnMove im /\
  forall rest,
    alternates (isMoving im') rest = true ->
    alternates (isMoving im) (calls ++ rest) = true.

End InputManager.

(** The case analysis of [handleKey] on the key code and on [isDown], and the
    step through [updateMovement] by a lemma [spec] about it. *)
Ltac key_cases :=
  unfold InputManager.handleKey;
  repeat match goal with
  | |- context [if ?b then _ else _] =>
      lazymatch b with
      | context [String.eqb] => destruct b eqn:?
      | andb _ _ => destruct b eqn:?
      | negb _ => destruct b eqn:?
      end
  end; cbv beta iota zeta.

Ltac by_updateMovement spec :=
  match goal with
  | |- context [InputManager.updateMovement ?im1] =>
      let K := fresh "K" in
      let M := fresh "M" in
      let A := fresh "A" in
      let N := fresh "N" in
      destruct (spec im1) as (K & M & A & N);
      destruct (InputManager.updateMovement im1); simpl in *
  end.

(** * Properties *)

(** ** Comparisons of binary64 numbers *)

Section FloatFacts.

Local Open Scope float_scope.

Lemma SFcompare_antisym (a b : spec_float) :
  SFcompare b a = option_map CompOpp (SFcompare a b).
Proof.
  destruct a as [sa|sa| |sa ma ea], b as [sb|sb| |sb mb eb]; simpl;
    try reflexivity; try (destruct sa; reflexivity);
    try (destruct sb; reflexivity); try (destruct sa, sb; reflexivity).
  destruct sa, sb; simpl; try reflexivity;
    rewrite (Z.compare_antisym ea eb);
    destruct (ea ?= eb)%Z eqn:E; simpl; try reflexivity;
    rewrite (Pos.compare_cont_antisym ma mb Eq); simpl;
    destruct (Pos.compare_cont Eq ma mb); reflexivity.
Qed.

Lemma SFcompare_None (a b : spec_float) :
  SFcompare a b = None -> a = S754_nan \/ b = S754_nan.
Proof.
  destruct a as [sa|sa| |sa ma ea], b as [sb|sb| |sb mb eb]; simpl;
    intros H; try discriminate; auto.
Qed.

Lemma is_nan_spec (v : float) : is_nan v = true <-> Prim2SF v = S754_nan.
Proof.
  unfold is_nan. rewrite FloatAxioms.eqb_spec. unfold SFeqb. split.
  - intros H. destruct (SFcompare (Prim2SF v) (Prim2SF v)) as [c|] eqn:E.
    + pose proof (SFcompare_antisym (Prim2SF v) (Prim2SF v)) as A.
      rewrite E in A. simpl in A. destruct c; discriminate.
    + apply SFcompare_None in E. tauto.
  - intros ->. reflexivity.
Qed.

Lemma is_nan_false_spec (v : float) : is_nan v = false <-> Prim2SF v <> S754_nan.
Proof.
  split.
  - intros H E. apply is_nan_spec in E. congruence.
  - intros H. destruct (is_nan v) eqn:E; [|reflexivity].
    apply is_nan_spec in E. contradiction.
Qed.

Lemma ltb_nan_l (a b : float) : (a <? b) = true -> is_nan a = false.
Proof.
  rewrite FloatAxioms.ltb_spec. intros H. destruct (is_nan a) eqn:E; [|reflexivity].
  apply is_nan_spec in E. rewrite E in H. discriminate.
Qed.

Lemma ltb_asym (a b : float) : (a <? b) = true -> (b <? a) = false.
Proof.
  rewrite !FloatAxioms.ltb_spec. unfold SFltb.
  rewrite (SFcompare_antisym (Prim2SF a) (Prim2SF b)).
  destruct (SFcompare (Prim2SF a) (Prim2SF b)) as [[]|]; simpl; congruence.
Qed.

(** On numbers, [a < b] fails exactly when [b <= a]. *)
Lemma ltb_false_leb (a b : float) :
  is_nan a = false -> is_nan b = false -> (a <? b) = false -> (b <=? a) = true.
Proof.
  intros Ha Hb. rewrite FloatAxioms.ltb_spec, FloatAxioms.leb_spec.
  unfold SFltb, SFleb. rewrite (SFcompare_antisym (Prim2SF a) (Prim2SF b)).
  destruct (SFcompare (Prim2SF a) (Prim2SF b)) as [[]|] eqn:E; simpl;
    try discriminate; try reflexivity.
  intros _. apply SFcompare_None in E as [E|E]; apply is_nan_spec in E; congruence.
Qed.

Lemma eqb_sym (a b : float) : (a =? b) = (b =? a).
Proof.
  rewrite !FloatAxioms.eqb_spec. unfold SFeqb.
  rewrite (SFcompare_antisym (Prim2SF a) (Prim2SF b)).
  destruct (SFcompare (Prim2SF a) (Prim2SF b)) as [[]|]; reflexivity.
Qed.

(** The numbers that [=== 0]: the two zeros. *)
Lemma eqb_zero (d : float) : (d =? 0) = true -> d = 0 \/ d = (-0).
Proof.
  rewrite FloatAxioms.eqb_spec. intros H.
  assert (exists s, Prim2SF d = S754_zero s) as [s Hs].
  { unfold SFeqb in H. change (Prim2SF 0) with (S754_zero false) in H.
    destruct (Prim2SF d) as [s|s| |s m e]; simpl in H; try discriminate.
    - eauto.
    - destruct s; discriminate.
    - destruct s; discriminate. }
  rewrite <- (SF2Prim_Prim2SF d), Hs. destruct s; [right|left]; reflexivity.
Qed.

Lemma mul_zero (d : float) : (d =? 0) = true -> d * d = 0.
Proof. intros H. destruct (eqb_zero d H) as [-> | ->]; reflexivity. Qed.

(** [|v| <= b] for a positive finite bound [b] once [v] is a number that is
    neither above [b] nor below [-b]. *)
Lemma abs_leb_bound (v b : float) mb eb :
  Prim2SF b = S754_finite false mb eb ->
  is_nan v = false -> (b <? v) = false -> (v <? - b) = false ->
  (abs v <=? b) = true.
Proof.
  intros Hb Hv.
  rewrite !FloatAxioms.ltb_spec, FloatAxioms.leb_spec, abs_spec, opp_spec, Hb.
  apply is_nan_false_spec in Hv. unfold SFltb, SFleb.
  destruct (Prim2SF v) as [s|s| |s m e]; simpl.
  - reflexivity.
  - destruct s; simpl; discriminate.
  - contradiction.
  - destruct s; simpl.
    + intros _. destruct (e ?= eb)%Z; simpl; try reflexivity; try discriminate.
      destruct (Pos.compare_cont Eq m mb); simpl; try reflexivity; discriminate.
    + rewrite (Z.compare_antisym e eb).
      destruct (e ?= eb)%Z; simpl; try reflexivity; try discriminate.
      change Eq with (CompOpp Eq) at 1.
      rewrite <- (Pos.compare_cont_antisym m mb Eq).
      destruct (Pos.compare_cont Eq m mb); simpl; try reflexivity; discriminate.
Qed.

Lemma abs_leb_finite (v b : float) s mb eb :
  Prim2SF b = S754_finite s mb eb -> (abs v <=? b) = true -> JS.SF_finite (Prim2SF v).
Proof.
  intros Hb. rewrite FloatAxioms.leb_spec, abs_spec, Hb. unfold SFleb.
  destruct (Prim2SF v) as [sv|sv| |sv mv ev]; simpl; try exact (fun _ => I).
  - destruct s; discriminate.
  - discriminate.
Qed.

(** Rounding never produces NaN. *)

Local Open Scope Z_scope.

Lemma shr_1_nonneg mrs : 0 <= shr_m mrs -> 0 <= shr_m (shr_1 mrs).
Proof.
  destruct mrs as [m r s]. simpl. intros H.
  destruct m as [|[p|p|]|[p|p|]]; simpl; lia.
Qed.

Lemma iter_pos_shr_1_nonneg p : forall mrs,
  0 <= shr_m mrs -> 0 <= shr_m (SpecFloat.iter_pos shr_1 p mrs).
Proof.
  induction p as [p IH|p IH|]; intros mrs H; simpl.
  - apply IH, IH, shr_1_nonneg, H.
  - apply IH, IH, H.
  - apply shr_1_nonneg, H.
Qed.

Lemma shr_fexp_nonneg m e l :
  0 <= m -> 0 <= shr_m (shr_fexp prec emax m e l).1.
Proof.
  intros H. unfold shr_fexp, shr.
  assert (H0 : 0 <= shr_m (shr_record_of_loc m l)).
  { destruct l as [|[]]; simpl; exact H. }
  destruct (fexp prec emax (Zdigits2 m + e) - e); simpl; try exact H0.
  apply iter_pos_shr_1_nonneg, H0.
Qed.

Lemma round_nearest_even_nonneg m l : 0 <= m -> 0 <= round_nearest_even m l.
Proof.
  intros H. destruct l as [|[]]; simpl; try lia. destruct (Z.even m); lia.
Qed.

Lemma binary_round_aux_not_nan s m e l :
  0 <= m -> binary_round_aux prec emax s m e l <> S754_nan.
Proof.
  intros H. unfold binary_round_aux.
  pose proof (shr_fexp_nonneg m e l H) as H1.
  destruct (shr_fexp prec emax m e l) as [mrs' e']. simpl in H1.
  pose proof (shr_fexp_nonneg _ e' loc_Exact
                (round_nearest_even_nonneg _ (loc_of_shr_record mrs') H1)) as H2.
  destruct (shr_fexp prec emax (round_nearest_even (shr_m mrs') (loc_of_shr_record mrs'))
              e' loc_Exact) as [mrs'' e'']. simpl in H2.
  destruct (shr_m mrs''); try discriminate; try lia.
  destruct (e'' <=? emax - prec); discriminate.
Qed.

Lemma binary_normalize_not_nan m e sz :
  binary_normalize prec emax m e sz <> S754_nan.
Proof.
  unfold binary_normalize, binary_round. destruct m as [|p|p]; try discriminate.
  - destruct (shl_align p e _). apply binary_round_aux_not_nan. lia.
  - destruct (shl_align p e _). apply binary_round_aux_not_nan. lia.
Qed.

Lemma SFmul_finite_not_nan a s m e :
  a <> S754_nan -> SFmul prec emax a (S754_finite s m e) <> S754_nan.
Proof.
  destruct a as [sa|sa| |sa ma ea]; simpl; intros H; try discriminate; try contradiction.
  apply binary_round_aux_not_nan. lia.
Qed.

Lemma SFadd_finite_not_nan a b :
  JS.SF_finite a -> b <> S754_nan -> SFadd prec emax a b <> S754_nan.
Proof.
  destruct a as [sa|sa| |sa ma ea], b as [sb|sb| |sb mb eb]; simpl;
    intros Ha Hb; try discriminate; try contradiction.
  - destruct sa, sb; discriminate.
  - apply binary_normalize_not_nan.
Qed.

End FloatFacts.

(** ** The accessors of a player *)

Section PlayerFacts.

Local Open Scope float_scope.

(** What a setter that tests [===] leaves in its field: the value assigned,
    or the value held where the two are [===]. *)
Lemma rotation_set_rotation v p :
  Player.rotation (Player.set_rotation v p)
  = if v =? Player.rotation p then Player.rotation p else v.
Proof. unfold Player.set_rotation. destruct (v =? _); reflexivity. Qed.

Lemma velocityX_set_velocityX v p :
  Player.velocityX (Player.set_velocityX v p)
  = if v =? Player.velocityX p then Player.velocityX p else v.
Proof. unfold Player.set_velocityX. destruct (v =? _); reflexivity. Qed.

Lemma velocityZ_set_velocityZ v p :
  Player.velocityZ (Player.set_velocityZ v p)
  = if v =? Player.velocityZ p then Player.velocityZ p else v.
Proof. unfold Player.set_velocityZ. destruct (v =? _); reflexivity. Qed.

(** A zero assigned leaves a zero, of either sign. *)
Lemma held_zero (v : float) : ((if 0 =? v then v else 0) =? 0) = true.
Proof.
  destruct (0 =? v) eqn:E; [|reflexivity]. now rewrite eqb_sym.
Qed.

(** The three setters touch no other field. *)
Lemma set_rotation_frame v p :
  let p' := Player.set_rotation v p in
  Player.id p' = Player.id p /\ Player.name p' = Player.name p /\
  Player.x p' = Player.x p /\ Player.y p' = Player.y p /\
  Player.z p' = Player.z p /\ Player.state p' = Player.state p /\
  Player.velocityX p' = Player.velocityX p /\
  Player.velocityZ p' = Player.velocityZ p /\
  Player.health p' = Player.health p /\ Player.hunger p' = Player.hunger p /\
  Player.sanity p' = Player.sanity p.
Proof.
  unfold Player.set_rotation. destruct (v =? _); cbv zeta; split_and!; reflexivity.
Qed.

Lemma set_velocityX_frame v p :
  let p' := Player.set_velocityX v p in
  Player.id p' = Player.id p /\ Player.name p' = Player.name p /\
  Player.x p' = Player.x p /\ Player.y p' = Player.y p /\
  Player.z p' = Player.z p /\ Player.rotation p' = Player.rotation p /\
  Player.state p' = Player.state p /\
  Player.velocityZ p' = Player.velocityZ p /\
  Player.health p' = Player.health p /\ Player.hunger p' = Player.hunger p /\
  Player.sanity p' = Player.sanity p.
Proof.
  unfold Player.set_velocityX. destruct (v =? _); cbv zeta; split_and!; reflexivity.
Qed.

Lemma set_velocityZ_frame v p :
  let p' := Player.set_velocityZ v p in
  Player.id p' = Player.id p /\ Player.name p' = Player.name p /\
  Player.x p' = Player.x p /\ Player.y p' = Player.y p /\
  Player.z p' = Player.z p /\ Player.rotation p' = Player.rotation p /\
  Player.state p' = Player.state p /\
  Player.velocityX p' = Player.velocityX p /\
  Player.health p' = Player.health p /\ Player.hunger p' = Player.hunger p /\
  Player.sanity p' = Player.sanity p.
Proof.
  unfold Player.set_velocityZ. destruct (v =? _); cbv zeta; split_and!; reflexivity.
Qed.

(** An assignment of the value held changes nothing. *)
Lemma set_state_same p : Player.set_state (Player.state p) p = p.
Proof. now destruct p. Qed.

End PlayerFacts.

(** ** The room *)

Section RoomFacts.

Import GameRoom.
Local Open Scope float_scope.

(** What "stop" leaves of a player: a zero velocity, the state "idle", and
    every other field as it was. *)
Lemma stopped_fields p :
  (Player.velocityX (stopped p) =? 0) = true /\
  (Player.velocityZ (stopped p) =? 0) = true /\
  Player.state (stopped p) = "idle" /\
  Player.id (stopped p) = Player.id p /\ Player.name (stopped p) = Player.name p /\
  Player.x (stopped p) = Player.x p /\ Player.y (stopped p) = Player.y p /\
  Player.z (stopped p) = Player.z p /\
  Player.rotation (stopped p) = Player.rotation p /\
  Player.health (stopped p) = Player.health p /\
  Player.hunger (stopped p) = Player.hunger p /\
  Player.sanity (stopped p) = Player.sanity p.
Proof.
  unfold stopped.
  pose proof (set_velocityX_frame 0 p) as Fx.
  pose proof (set_velocityZ_frame 0 (Player.set_velocityX 0 p)) as Fz.
  pose proof (velocityX_set_velocityX 0 p) as Vx.
  pose proof (velocityZ_set_velocityZ 0 (Player.set_velocityX 0 p)) as Vz.
  cbv zeta in Fx, Fz.
  set (p1 := Player.set_velocityX 0 p) in *.
  set (p2 := Player.set_velocityZ 0 p1) in *.
  destruct Fx as (? & ? & ? & ? & ? & ? & ? & ? & ? & ? & ?).
  destruct Fz as (? & ? & ? & ? & ? & ? & ? & Ex & ? & ? & ?).
  split_and!; simpl; try congruence.
  - rewrite Ex, Vx. apply held_zero.
  - rewrite Vz. apply held_zero.
Qed.

(** What "move" leaves of a player when the computed length is positive:
    the velocity and the angle as the accessors take them, the state
    "walking", and every other field as it was. *)
Lemma walking_fields (a vx vz : float) p :
  let p' := Player.set_rotation a
              (Player.set_state "walking"
                 (Player.set_velocityZ vz (Player.set_velocityX vx p))) in
  Player.rotation p' = (if a =? Player.rotation p then Player.rotation p else a) /\
  Player.state p' = "walking" /\
  Player.velocityX p' = (if vx =? Player.velocityX p then Player.velocityX p else vx) /\
  Player.velocityZ p' = (if vz =? Player.velocityZ p then Player.velocityZ p else vz) /\
  Player.id p' = Player.id p /\ Player.name p' = Player.name p /\
  Player.x p' = Player.x p /\ Player.y p' = Player.y p /\
  Player.z p' = Player.z p /\
  Player.health p' = Player.health p /\ Player.hunger p' = Player.hunger p /\
  Player.sanity p' = Player.sanity p.
Proof.
  cbv zeta. unfold Player.set_velocityX.
  destruct (vx =? Player.velocityX p); unfold Player.set_velocityZ; simpl;
    destruct (vz =? Player.velocityZ p); unfold Player.set_rotation; simpl;
    destruct (a =? Player.rotation p); simpl; split_and!; reflexivity.
Qed.

(** A second "stop" finds nothing to assign. *)
Lemma stopped_idemp p : stopped (stopped p) = stopped p.
Proof.
  destruct (stopped_fields p) as (Hx & Hz & Hs & _).
  generalize dependent (stopped p). intros q Hx Hz Hs. unfold stopped.
  unfold Player.set_velocityX at 1. rewrite eqb_sym, Hx.
  unfold Player.set_velocityZ. rewrite eqb_sym, Hz.
  rewrite <- Hs. apply set_state_same.
Qed.

Lemma getPlayer_Some r sid p :
  getPlayer r sid = Some p ->
  exists l, players (state r) !! sid = Some l /\ heap r !! l = Some p.
Proof.
  unfold getPlayer. destruct (players (state r) !! sid) as [l|] eqn:E; simpl.
  - intros H. exists l. auto.
  - discriminate.
Qed.

Lemma getPlayer_alter r sid l p f :
  players (state r) !! sid = Some l -> heap r !! l = Some p ->
  getPlayer (set_heap (alter f l (heap r)) r) sid = Some (f p).
Proof.
  intros Hl Hp. unfold getPlayer. simpl. rewrite Hl. simpl.
  rewrite lookup_alter_eq, Hp. reflexivity.
Qed.

(** The "move" handler on an existing player, in full: when the computed
    length is positive the four assignments are made, otherwise nothing
    changes. *)
Lemma onMove_existing approx r sid p dx dz :
  getPlayer r sid = Some p ->
  let len := sqrt (dx * dx + dz * dz) in
  exists r',
    onMove approx r sid (Some (mkMove dx dz)) = Done r' /\
    getPlayer r' sid =
      Some (if 0 <? len
            then Player.set_rotation (JS.Math_atan2 approx dx dz)
                   (Player.set_state "walking"
                      (Player.set_velocityZ (dz / len * MOVE_SPEED)
                         (Player.set_velocityX (dx / len * MOVE_SPEED) p)))
            else p).
Proof.
  intros Hp len. destruct (getPlayer_Some _ _ _ Hp) as (l & Hl & Hh).
  unfold onMove. rewrite Hl. simpl. fold len.
  destruct (0 <? len).
  - eexists. split; [reflexivity|]. by erewrite getPlayer_alter.
  - eexists. split; [reflexivity|]. assumption.
Qed.

(** The revert never touches a state other than "action". *)
Lemma revert_other p : Player.state p <> "action" -> revert p = p.
Proof.
  intros H. unfold revert.
  destruct (String.eqb_spec (Player.state p) "action"); [contradiction|reflexivity].
Qed.

Lemma revert_action p : Player.state p = "action" -> Player.state (revert p) = "idle".
Proof. intros H. unfold revert. rewrite H. reflexivity. Qed.

(** The code's phase test is the specification's. *)
Lemma phaseOf_spec t : phaseOf t = dayPhase_spec t.
Proof.
  unfold phaseOf, dayPhase_spec.
  change (dayLength * 0.5) with 240.
  change (dayLength * 0.625) with 300.
  change (0.5 * 480) with 240.
  change (0.625 * 480) with 300.
  destruct (t <? 240) eqn:E1; [reflexivity|].
  destruct (t <? 300) eqn:E2.
  - rewrite (ltb_false_leb t 240); [reflexivity| |reflexivity|assumption].
    eapply ltb_nan_l; eassumption.
  - rewrite andb_false_r. reflexivity.
Qed.

(** *** The clamp *)

Lemma clamp_nan : clamp nan = nan.
Proof. reflexivity. Qed.

Lemma clamp_in_range (v : float) :
  is_nan v = false -> (abs (clamp v) <=? halfWorld) = true.
Proof.
  intros Hv. unfold clamp, JS.Math_min.
  change halfWorld with 25. change (- 25) with (-25)%float.
  change (is_nan 25) with false. rewrite Hv. simpl.
  destruct (25 <? v) eqn:E1; [reflexivity|].
  assert (Htail : (if v <? 25 then v else v) = v) by (destruct (v <? 25); reflexivity).
  rewrite Htail. clear Htail.
  unfold JS.Math_max. change (is_nan (-25)) with false. rewrite Hv. simpl.
  assert (Hb : Prim2SF 25 = S754_finite false 7036874417766400 (-48)) by reflexivity.
  destruct (-25 <? v) eqn:E2.
  - apply (abs_leb_bound v 25 _ _ Hb Hv E1). apply ltb_asym. exact E2.
  - destruct (v <? -25) eqn:E3; [reflexivity|].
    apply (abs_leb_bound v 25 _ _ Hb Hv E1). exact E3.
Qed.

(** A coordinate inside the bounds moved by a velocity that is a number
    (possibly infinite) is a number. *)
Lemma moved_not_nan (c v : float) :
  (abs c <=? halfWorld) = true -> is_nan v = false ->
  is_nan (c + v * deltaTime) = false.
Proof.
  intros Hc Hv. apply is_nan_false_spec. apply is_nan_false_spec in Hv.
  rewrite add_spec, mul_spec. apply SFadd_finite_not_nan.
  - apply (abs_leb_finite c halfWorld false 7036874417766400 (-48));
      [reflexivity|exact Hc].
  - change (Prim2SF deltaTime) with (S754_finite false 4803839602528529 (-58)).
    apply SFmul_finite_not_nan, Hv.
Qed.

Lemma movePlayer_in_bounds (p : Player.t) :
  in_bounds p = true ->
  is_nan (Player.x p + Player.velocityX p * deltaTime) = false ->
  is_nan (Player.z p + Player.velocityZ p * deltaTime) = false ->
  in_bounds (movePlayer p) = true.
Proof.
  intros Hp Hx Hz. unfold movePlayer.
  destruct (JS.strict_neq (Player.velocityX p) 0 || JS.strict_neq (Player.velocityZ p) 0);
    [|assumption].
  change ((abs (clamp (Player.x p + Player.velocityX p * deltaTime)) <=? halfWorld)
          && (abs (clamp (Player.z p + Player.velocityZ p * deltaTime)) <=? halfWorld)
          = true).
  rewrite (clamp_in_range _ Hx), (clamp_in_range _ Hz). reflexivity.
Qed.

Lemma movePlayer_velocity p :
  Player.velocityX (movePlayer p) = Player.velocityX p /\
  Player.velocityZ (movePlayer p) = Player.velocityZ p.
Proof.
  unfold movePlayer.
  destruct (JS.strict_neq (Player.velocityX p) 0 || JS.strict_neq (Player.velocityZ p) 0);
    split; reflexivity.
Qed.

Lemma movePlayer_safe p : safe p -> safe (movePlayer p).
Proof.
  intros (Hb & Hx & Hz). destruct (movePlayer_velocity p) as [Ex Ez].
  unfold safe. rewrite Ex, Ez. split; [|split; assumption].
  apply andb_prop in Hb as Hb'. destruct Hb' as [Hbx Hbz].
  apply movePlayer_in_bounds; [assumption| |]; apply moved_not_nan; assumption.
Qed.

Lemma forEach_movePlayer_safe (ps : list (string * ref)) (h : gmap ref Player.t) l p :
  h !! l = Some p -> safe p ->
  exists p', foldr (λ '(_, l') h', alter movePlayer l' h') h ps !! l = Some p' /\ safe p'.
Proof.
  intros Hl Hs. induction ps as [|[sid l'] ps (p' & Hp' & Hs')]; simpl.
  - eauto.
  - destruct (decide (l' = l)) as [->|Hne].
    + rewrite lookup_alter_eq, Hp'. simpl. eauto using movePlayer_safe.
    + rewrite lookup_alter_ne by assumption. eauto.
Qed.

(** One tick keeps inside the bounds every player whose velocity components
    are numbers (finite or infinite, but not NaN). *)
Lemma update_keeps_bounds r sid p :
  getPlayer r sid = Some p ->
  in_bounds p = true ->
  is_nan (Player.velocityX p) = false -> is_nan (Player.velocityZ p) = false ->
  exists p', getPlayer (update r) sid = Some p' /\ in_bounds p' = true.
Proof.
  intros Hp Hb Hx Hz. destruct (getPlayer_Some _ _ _ Hp) as (l & Hl & Hh).
  destruct (forEach_movePlayer_safe (map_to_list (players (state r))) (heap r) l p Hh)
    as (p' & Hp' & Hs'); [repeat split; assumption|].
  exists p'. split; [|apply Hs'].
  unfold getPlayer, update. simpl. rewrite Hl. simpl. exact Hp'.
Qed.

(** The spawn point of [onJoin] is inside the bounds for the values that
    [Math.random()] returns at the two ends and in the middle of [0, 1). *)
Example spawn_in_bounds :
  in_bounds <$> getPlayer (onJoin (create ∅) "a" None 0 0) "a" = Some true /\
  in_bounds <$> getPlayer (onJoin (create ∅) "a" None 0.5 0.5) "a" = Some true /\
  in_bounds <$> getPlayer (onJoin (create ∅) "a" None 0x1.fffffffffffffp-1
                             0x1.fffffffffffffp-1) "a" = Some true.
Proof. vm_compute. repeat split. Qed.

End RoomFacts.

(** ** What the specification says of the room *)

Section RoomClaims.

Import GameRoom.
Local Open Scope float_scope.

(** C1 (the code does not keep it).  A player inside the world bounds must
    still be inside them after a tick.  [update] clamps each coordinate with
    [Math.max(-halfWorld, Math.min(halfWorld, x))], which returns NaN on NaN.
    A "move" whose [dirX] is [Infinity] has length [Infinity > 0], so the
    handler stores [Infinity / Infinity * MOVE_SPEED], that is NaN, in
    [velocityX]; the player is still inside the bounds then, and the next tick
    makes [x] NaN, which is not.  ([update_keeps_bounds] is the invariant for
    every velocity that is not NaN.) *)
Theorem update_nan_velocity_leaves_bounds (approx : float -> float -> float) :
  let joined := run approx (create ∅) [(0%Z, Join "a" None 0.5 0.5)] in
  let moved := run approx joined [(10%Z, move "a" infinity 0)] in
  let ticked := run approx moved [(17%Z, Tick)] in
  in_bounds <$> getPlayer joined "a" = Some true /\
  in_bounds <$> getPlayer moved "a" = Some true /\
  Player.velocityX <$> getPlayer moved "a" = Some nan /\
  Player.x <$> getPlayer ticked "a" = Some nan /\
  in_bounds <$> getPlayer ticked "a" = Some false.
Proof. vm_compute. repeat split. Qed.

(** C2 (the code does not keep it).  For a direction of magnitude [m > 0] the
    velocity must be [(dirX/m, dirZ/m) * MOVE_SPEED], of magnitude
    [MOVE_SPEED].  The handler computes the length as
    [Math.sqrt(dirX * dirX + dirZ * dirZ)].  For [dirX = 1e200] the square
    overflows, the length is [Infinity > 0], and the velocity stored is
    [(1e200 / Infinity) * 5 = 0] in a player that is now "walking"; for
    [dirX = Infinity] it is NaN; for [dirX = 1e-200] the square underflows to
    0, the length is 0 and the message is ignored. *)
Theorem onMove_overflow_loses_speed (approx : float -> float -> float) :
  let joined := run approx (create ∅) [(0%Z, Join "a" None 0.5 0.5)] in
  let big := run approx joined [(10%Z, move "a" 1e200 0)] in
  let inf := run approx joined [(10%Z, move "a" infinity 0)] in
  let tiny := run approx joined [(10%Z, move "a" 1e-200 0)] in
  (0 <? sqrt (1e200 * 1e200 + 0 * 0)) = true /\
  Player.velocityX <$> getPlayer big "a" = Some 0 /\
  Player.velocityZ <$> getPlayer big "a" = Some 0 /\
  Player.speed <$> getPlayer big "a" = Some 0 /\
  Player.state <$> getPlayer big "a" = Some "walking" /\
  (0 <? sqrt (infinity * infinity + 0 * 0)) = true /\
  Player.velocityX <$> getPlayer inf "a" = Some nan /\
  Player.speed <$> getPlayer inf "a" = Some nan /\
  (0 <? 1e-200) = true /\
  (0 <? sqrt (1e-200 * 1e-200 + 0 * 0)) = false /\
  Player.speed <$> getPlayer tiny "a" = Some 0 /\
  Player.state <$> getPlayer tiny "a" = Some "idle".
Proof. vm_compute. repeat split. Qed.

(** On directions whose squares neither overflow nor vanish the handler does
    what C2 says, up to the rounding of binary64: some instances, the last
    two of which are one unit in the last place off 5. *)
Example onMove_speed_examples (approx : float -> float -> float) :
  let joined := run approx (create ∅) [(0%Z, Join "a" None 0.5 0.5)] in
  let velocity r := (λ p, (Player.velocityX p, Player.velocityZ p, Player.speed p))
                      <$> getPlayer r "a" in
  let speed r := Player.speed <$> getPlayer r "a" in
  velocity (run approx joined [(10%Z, move "a" 1 0)]) = Some (5, 0, 5) /\
  velocity (run approx joined [(10%Z, move "a" 100 0)]) = Some (5, 0, 5) /\
  velocity (run approx joined [(10%Z, move "a" 3 4)]) = Some (3, 4, 5) /\
  velocity (run approx joined [(10%Z, move "a" 0 (-0.5))]) = Some (0, -5, 5) /\
  speed (run approx joined [(10%Z, move "a" 1 1)]) = Some 5 /\
  speed (run approx joined [(10%Z, move "a" 2 3)]) = Some 5.0000000000000009 /\
  speed (run approx joined [(10%Z, move "a" 3 5)]) = Some 4.9999999999999991.
Proof.
  vm_compute;
    repeat match goal with
           | |- context [if ?b then _ else _] => destruct b
           end;
    vm_compute; repeat split.
Qed.

(** The specification's movement scenarios: a player at the origin that moves
    towards +x is at [x = 5] (up to rounding) after the 60 ticks of one
    second, reaches the boundary on tick 301 and stays at exactly
    [WORLD_SIZE / 2] from then on. *)
Example movement_scenarios (approx : float -> float -> float) :
  let moving := run approx (create ∅)
                  [(0%Z, Join "a" None 0.5 0.5); (10%Z, move "a" 1 0)] in
  let x n := Player.x <$> getPlayer (run approx moving (replicate n (20%Z, Tick))) "a" in
  x 60%nat = Some 4.9999999999999991 /\
  x 300%nat = Some 24.999999999999915 /\
  x 301%nat = Some 25 /\
  x 1000%nat = Some 25.
Proof. vm_compute. repeat split. Qed.

(** C3, as stated, fails: after a "move" with the zero vector the rotation is
    the one the player had (here pi/2, from an earlier move towards +x), not
    [atan2(0, 0) = 0]. *)
Lemma onMove_zero_keeps_rotation :
  (forall approx,
     let r1 := run approx (create ∅)
                 [(0%Z, Join "a" None 0.5 0.5); (10%Z, move "a" 1 0)] in
     let r2 := run approx r1 [(20%Z, move "a" 0 0)] in
     Player.rotation <$> getPlayer r1 "a" = Some JS.PI_2 /\
     Player.rotation <$> getPlayer r2 "a" = Some JS.PI_2 /\
     JS.Math_atan2 approx 0 0 = 0) /\
  JS.PI_2 <> 0.
Proof.
  split.
  - intros approx. vm_compute. repeat split.
  - intros H. pose proof (f_equal (λ v, v =? 0) H) as E. vm_compute in E. discriminate.
Qed.

(** C3, amended.  For every "move" carrying [(dirX, dirZ)], handled for an
    existing player: when the computed length
    [Math.sqrt(dirX*dirX + dirZ*dirZ)] is [> 0], the rotation afterwards is
    [Math.atan2(dirX, dirZ)], as the accessor takes it: the angle, or the
    rotation held where the angle is [===] to it (a [-0] assigned over [0]
    leaves [0]).  When [dirX] and [dirZ] are both zero, the rotation is the
    one the player had.  (A vector that is not zero and whose computed
    length is 0 is the case of C2, and is left out.) *)
Theorem onMove_rotation (approx : float -> float -> float) r sid p dx dz :
  getPlayer r sid = Some p ->
  exists r' p',
    onMove approx r sid (Some (mkMove dx dz)) = Done r' /\
    getPlayer r' sid = Some p' /\
    ((0 <? sqrt (dx * dx + dz * dz)) = true ->
       Player.rotation p' =
         if JS.Math_atan2 approx dx dz =? Player.rotation p
         then Player.rotation p
         else JS.Math_atan2 approx dx dz) /\
    ((dx =? 0) = true -> (dz =? 0) = true ->
       Player.rotation p' = Player.rotation p).
Proof.
  intros Hp. destruct (onMove_existing approx r sid p dx dz Hp) as (r' & Hr & Hg).
  eexists r', _. split; [exact Hr|]. split; [exact Hg|]. split.
  - intros ->. apply walking_fields.
  - intros Hx Hz. rewrite (mul_zero dx Hx), (mul_zero dz Hz). reflexivity.
Qed.

Lemma onMove_rotation_witness :
  let approx : float -> float -> float := λ _ _, JS.PI_4 in
  let r := onJoin (create ∅) "a" None 0.5 0.5 in
  exists p, getPlayer r "a" = Some p /\
  (0 <? sqrt (1 * 1 + 1 * 1)) = true /\
  exists r' p',
    onMove approx r "a" (Some (mkMove 1 1)) = Done r' /\
    getPlayer r' "a" = Some p' /\
    Player.rotation p' = JS.PI_4.
Proof.
  intros approx r. eexists. split; [vm_compute; reflexivity|].
  split; [reflexivity|].
  destruct (onMove_rotation approx r "a" _ 1 1 eq_refl) as (r' & p' & H1 & H2 & H3 & _).
  exists r', p'. split; [exact H1|]. split; [exact H2|].
  exact (H3 eq_refl).
Defined.

(** C4, as stated, fails: a "move" with the zero vector leaves a player that
    was "idle" in the state "idle". *)
Lemma onMove_zero_keeps_state :
  (forall approx,
     let r1 := run approx (create ∅) [(0%Z, Join "a" None 0.5 0.5)] in
     let r2 := run approx r1 [(10%Z, move "a" 0 0)] in
     Player.state <$> getPlayer r1 "a" = Some "idle" /\
     Player.state <$> getPlayer r2 "a" = Some "idle") /\
  "idle" <> "walking".
Proof.
  split.
  - intros approx. vm_compute. repeat split.
  - discriminate.
Qed.

(** C4, amended.  For every "move" carrying [(dirX, dirZ)], handled for an
    existing player: when the computed length
    [Math.sqrt(dirX*dirX + dirZ*dirZ)] is [> 0], the state afterwards is
    "walking"; when [dirX] and [dirZ] are both zero, the state is the one the
    player had.  (A vector that is not zero and whose computed length is 0 is
    the case of C2, and is left out.) *)
Theorem onMove_state (approx : float -> float -> float) r sid p dx dz :
  getPlayer r sid = Some p ->
  exists r' p',
    onMove approx r sid (Some (mkMove dx dz)) = Done r' /\
    getPlayer r' sid = Some p' /\
    ((0 <? sqrt (dx * dx + dz * dz)) = true -> Player.state p' = "walking") /\
    ((dx =? 0) = true -> (dz =? 0) = true -> Player.state p' = Player.state p).
Proof.
  intros Hp. destruct (onMove_existing approx r sid p dx dz Hp) as (r' & Hr & Hg).
  eexists r', _. split; [exact Hr|]. split; [exact Hg|]. split.
  - intros ->. apply walking_fields.
  - intros Hx Hz. rewrite (mul_zero dx Hx), (mul_zero dz Hz). reflexivity.
Qed.

Lemma onMove_state_witness :
  let approx : float -> float -> float := λ _ _, JS.PI_4 in
  let r := onJoin (create ∅) "a" None 0.5 0.5 in
  exists p, getPlayer r "a" = Some p /\
  Player.state p = "idle" /\
  (0 <? sqrt (1 * 1 + 1 * 1)) = true /\
  exists r' p',
    onMove approx r "a" (Some (mkMove 1 1)) = Done r' /\
    getPlayer r' "a" = Some p' /\
    Player.state p' = "walking".
Proof.
  intros approx r. eexists. split; [vm_compute; reflexivity|].
  split; [reflexivity|]. split; [reflexivity|].
  destruct (onMove_state approx r "a" _ 1 1 eq_refl) as (r' & p' & H1 & H2 & H3 & _).
  exists r', p'. split; [exact H1|]. split; [exact H2|].
  exact (H3 eq_refl).
Defined.

(** C5.  After every tick, [dayPhase] is the specification's function of
    [worldTime % 480]: "day" below [0.5 * 480], "dusk" from there to below
    [0.625 * 480], "night" otherwise. *)
Theorem update_dayPhase (r : Room) :
  dayPhase (state (update r))
  = dayPhase_spec (JS.rem (worldTime (state (update r))) 480).
Proof. unfold update. simpl. apply phaseOf_spec. Qed.

(** The clock itself: a tick adds [deltaTime] to [worldTime]. *)
Lemma update_worldTime (r : Room) :
  worldTime (state (update r)) = worldTime (state r) + deltaTime.
Proof. reflexivity. Qed.

Example dayPhase_examples :
  dayPhase_spec (JS.rem 0 480) = "day" /\
  dayPhase_spec (JS.rem 239.5 480) = "day" /\
  dayPhase_spec (JS.rem 240 480) = "dusk" /\
  dayPhase_spec (JS.rem 299.5 480) = "dusk" /\
  dayPhase_spec (JS.rem 300 480) = "night" /\
  dayPhase_spec (JS.rem 479.5 480) = "night" /\
  dayPhase_spec (JS.rem 480 480) = "day" /\
  dayPhase_spec (JS.rem 1200 480) = "dusk".
Proof. vm_compute. repeat split. Qed.

(** C6 (the code does not keep it).  The revert scheduled by an "action" must
    not overwrite a state set after that "action".  The callback tests
    [player.state === 'action'], which cannot tell the action it was
    scheduled for from a later one: with "action" at 0 ms, "move" at 100 ms
    and "action" again at 400 ms, the state at 400 ms is "action" with
    reverts pending for 500 ms and 900 ms; the first of them fires at 500 ms
    and sets "idle", 100 ms after the second "action" set the state. *)
Theorem stale_revert_overwrites_later_action (approx : float -> float -> float) :
  let r400 := run approx (create ∅)
                [(0%Z, Join "a" None 0.5 0.5); (0%Z, Message "a" Action);
                 (100%Z, move "a" 1 0); (400%Z, Message "a" Action)] in
  let r500 := run approx r400 [(500%Z, Wait)] in
  Player.state <$> getPlayer r400 "a" = Some "action" /\
  timers r400 = [mkTimer 500 0%nat; mkTimer 900 0%nat] /\
  Player.state <$> getPlayer r500 "a" = Some "idle" /\
  timers r500 = [mkTimer 900 0%nat].
Proof. vm_compute. repeat split. Qed.

(** The two runs of the specification's scenario: with no further input the
    state is "action" until the 500 ms have elapsed and "idle" from then on;
    a "move" 100 ms after the "action" leaves "walking" in place at 500 ms. *)
Example action_scenario (approx : float -> float -> float) :
  let acted := run approx (create ∅)
                 [(0%Z, Join "a" None 0.5 0.5); (0%Z, Message "a" Action)] in
  Player.state <$> getPlayer acted "a" = Some "action" /\
  Player.state <$> getPlayer (run approx acted [(499%Z, Wait)]) "a" = Some "action" /\
  Player.state <$> getPlayer (run approx acted [(500%Z, Wait)]) "a" = Some "idle" /\
  Player.state <$> getPlayer (run approx acted [(100%Z, move "a" 1 0); (500%Z, Wait)]) "a"
    = Some "walking".
Proof. vm_compute. repeat split. Qed.

(** C7.  A "move", "stop" or "action" message from a session that has no
    player returns normally and leaves the whole room (players, world
    objects, world time, day phase, pending timers) as it was. *)
Theorem onMessage_no_player (approx : float -> float -> float) r sid m :
  players (state r) !! sid = None -> onMessage approx r sid m = Done r.
Proof.
  intros H. destruct m; simpl; unfold onMove, onStop, onAction; rewrite H; reflexivity.
Qed.

Lemma onMessage_no_player_witness :
  let approx : float -> float -> float := λ _ _, JS.PI_4 in
  let r := onJoin (create ∅) "a" None 0.5 0.5 in
  players (state r) !! "b" = None /\
  onMessage approx r "b" (Move None) = Done r /\
  onMessage approx r "b" (Move (Some (mkMove 1 1))) = Done r /\
  onMessage approx r "b" Stop = Done r /\
  onMessage approx r "b" Action = Done r.
Proof.
  intros approx r.
  assert (H : players (state r) !! "b" = None) by (vm_compute; reflexivity).
  split; [exact H|].
  split; [exact (onMessage_no_player approx r "b" (Move None) H)|].
  split; [exact (onMessage_no_player approx r "b" (Move (Some (mkMove 1 1))) H)|].
  split; [exact (onMessage_no_player approx r "b" Stop H)|].
  exact (onMessage_no_player approx r "b" Action H).
Defined.

(** C8.  "stop" is idempotent on an existing player: after one "stop" the
    velocity is zero ([velocityX === 0] and [velocityZ === 0]) and the state
    "idle"; a second "stop" returns normally and leaves the room exactly as
    the first one left it. *)
Theorem onStop_idempotent r sid p :
  getPlayer r sid = Some p ->
  exists r1 p1,
    onStop r sid = Done r1 /\ getPlayer r1 sid = Some p1 /\
    (Player.velocityX p1 =? 0) = true /\ (Player.velocityZ p1 =? 0) = true /\
    Player.state p1 = "idle" /\
    onStop r1 sid = Done r1.
Proof.
  intros Hp. destruct (getPlayer_Some _ _ _ Hp) as (l & Hl & Hh).
  unfold onStop. rewrite Hl.
  eexists. exists (stopped p). split; [reflexivity|].
  split; [by erewrite getPlayer_alter|].
  destruct (stopped_fields p) as (Hx & Hz & Hs & _).
  split; [exact Hx|]. split; [exact Hz|]. split; [exact Hs|].
  simpl. rewrite Hl. f_equal.
  destruct r as [h n s t ts]. unfold set_heap. simpl in *. f_equal.
  apply alter_id. intros q Hq. rewrite lookup_alter_eq, Hh in Hq.
  injection Hq as <-. apply stopped_idemp.
Qed.

Lemma onStop_idempotent_witness :
  let approx : float -> float -> float := λ _ _, JS.PI_4 in
  let r := run approx (create ∅)
             [(0%Z, Join "a" None 0.5 0.5); (10%Z, move "a" 3 4)] in
  exists p, getPlayer r "a" = Some p /\
  (Player.velocityX p = 3 /\ Player.velocityZ p = 4 /\ Player.state p = "walking") /\
  exists r1 p1,
    onStop r "a" = Done r1 /\ getPlayer r1 "a" = Some p1 /\
    (Player.velocityX p1 =? 0) = true /\ (Player.velocityZ p1 =? 0) = true /\
    Player.state p1 = "idle" /\
    onStop r1 "a" = Done r1.
Proof.
  intros approx r. eexists. split; [vm_compute; reflexivity|].
  split; [vm_compute; repeat split|].
  eapply (onStop_idempotent r "a"). vm_compute. reflexivity.
Defined.

(** The zero that "stop" leaves is the zero that it finds.  After
    [move(1, 0)] and [move(-1e200, 0)] the velocity is
    [-1e200 / Infinity * 5 = -0]; "stop" assigns [0], which is [===] to it,
    and [velocityX] stays [-0].  Likewise a rotation [0] stays where
    [Math.atan2(-0, 1) = -0] is assigned. *)
Example signed_zeros_stay (approx : float -> float -> float) :
  let moved := run approx (create ∅)
                 [(0%Z, Join "a" None 0.5 0.5); (10%Z, move "a" 1 0);
                  (20%Z, move "a" (-1e200) 0)] in
  let halted := run approx moved [(30%Z, Message "a" Stop)] in
  let turned := run approx (create ∅)
                  [(0%Z, Join "a" None 0.5 0.5); (10%Z, move "a" (-0) 1)] in
  Player.velocityX <$> getPlayer moved "a" = Some (-0) /\
  Player.velocityX <$> getPlayer halted "a" = Some (-0) /\
  Player.state <$> getPlayer halted "a" = Some "idle" /\
  JS.Math_atan2 approx (-0) 1 = -0 /\
  Player.rotation <$> getPlayer turned "a" = Some 0 /\
  Player.state <$> getPlayer turned "a" = Some "walking".
Proof. vm_compute. repeat split. Qed.

(** C10.  A "move" whose [dirX] and [dirZ] are both zero, handled for an
    existing player, changes nothing: the handler returns the room it was
    given, so position, velocity, rotation and state are the ones the player
    had (the state does not become "walking", the velocity is not zeroed). *)
Theorem onMove_zero_noop (approx : float -> float -> float) r sid p dx dz :
  getPlayer r sid = Some p ->
  (dx =? 0) = true -> (dz =? 0) = true ->
  exists r',
    onMove approx r sid (Some (mkMove dx dz)) = Done r' /\
    r' = r /\ getPlayer r' sid = Some p.
Proof.
  intros Hp Hx Hz. exists r. split; [|split; [reflexivity|exact Hp]].
  destruct (getPlayer_Some _ _ _ Hp) as (l & Hl & Hh).
  unfold onMove. rewrite Hl. simpl. rewrite (mul_zero dx Hx), (mul_zero dz Hz).
  reflexivity.
Qed.

Lemma onMove_zero_noop_witness :
  let approx : float -> float -> float := λ _ _, JS.PI_4 in
  let r := run approx (create ∅)
             [(0%Z, Join "a" None 0.5 0.5); (10%Z, move "a" 3 4)] in
  exists p, getPlayer r "a" = Some p /\
  (Player.velocityX p = 3 /\ Player.velocityZ p = 4 /\ Player.state p = "walking") /\
  (0 =? 0) = true /\ (-0 =? 0) = true /\
  exists r',
    onMove approx r "a" (Some (mkMove 0 (-0))) = Done r' /\
    r' = r /\ getPlayer r' "a" = Some p.
Proof.
  intros approx r. eexists. split; [vm_compute; reflexivity|].
  split; [vm_compute; repeat split|].
  split; [reflexivity|]. split; [reflexivity|].
  apply (onMove_zero_noop approx r "a" _ 0 (-0)); [vm_compute|..]; reflexivity.
Defined.

End RoomClaims.

(** ** The client reconciliation layer *)

Section ClientFacts.

Import NetworkManager.
Implicit Types (s tr cur : list string) (k x : string).

Lemma Set_has_true s k : Set_has s k = true <-> k ∈ s.
Proof. unfold Set_has. apply bool_decide_eq_true. Qed.

Lemma Set_has_false s k : Set_has s k = false <-> k ∉ s.
Proof. unfold Set_has. apply bool_decide_eq_false. Qed.

Lemma elem_of_Set_add s k x : x ∈ Set_add s k <-> x ∈ s \/ x = k.
Proof.
  unfold Set_add. destruct (Set_has s k) eqn:E.
  - apply Set_has_true in E. split; [auto|]. intros [H| ->]; assumption.
  - rewrite elem_of_app, list_elem_of_singleton. reflexivity.
Qed.

Lemma NoDup_Set_add s k : NoDup s -> NoDup (Set_add s k).
Proof.
  intros H. unfold Set_add. destruct (Set_has s k) eqn:E; [assumption|].
  apply Set_has_false in E. apply NoDup_app. split; [assumption|]. split.
  - intros x Hx Hk. apply list_elem_of_singleton in Hk as ->. contradiction.
  - apply NoDup_singleton.
Qed.

Lemma elem_of_Set_delete s k x : x ∈ Set_delete s k <-> x ∈ s /\ x <> k.
Proof. unfold Set_delete. rewrite list_elem_of_filter. tauto. Qed.

Lemma NoDup_Set_delete s k : NoDup s -> NoDup (Set_delete s k).
Proof. apply NoDup_filter. Qed.

Lemma count_app f (a b : list call) : count f (a ++ b) = count f a + count f b.
Proof. unfold count. rewrite filter_app, length_app. lia. Qed.

Lemma count_invoke f b c : count f (invoke b c) = if b && f c then 1 else 0.
Proof.
  destruct b; simpl; [|reflexivity]. unfold count.
  rewrite filter_cons, filter_nil. case_decide as H; destruct (f c); simpl; congruence.
Qed.

(** The three loops of [processState]. *)

Lemma forEachPlayer_spec nm ps : forall tr cur,
  let res := forEachPlayer nm ps tr cur in
  (forall x, x ∈ res.1.1 <-> x ∈ tr \/ x ∈ ps.*1) /\
  (forall x, x ∈ res.1.2 <-> x ∈ cur \/ x ∈ ps.*1) /\
  (NoDup tr -> NoDup res.1.1) /\
  (forall k, hasOnPlayerJoin nm = true ->
     count (is_player_arrival k) res.2 = ind (k ∈ ps.*1 /\ k ∉ tr)) /\
  (forall k, count (is_departure k) res.2 = 0) /\
  (forall k, count (is_object_arrival k) res.2 = 0).
Proof.
  induction ps as [|[sid p] rest IH]; intros tr cur; simpl.
  - split_and!; intros; try (unfold ind; case_decide); set_solver.
  - destruct (Set_has tr sid) eqn:E; simpl.
    + apply Set_has_true in E.
      specialize (IH tr (Set_add cur sid)).
      destruct (forEachPlayer nm rest tr (Set_add cur sid)) as [[tr' cur'] calls].
      simpl in *. destruct IH as (I1 & I2 & I3 & I4 & I5 & I6).
      split_and!.
      * intros x. rewrite I1. set_solver.
      * intros x. rewrite I2, elem_of_Set_add. set_solver.
      * assumption.
      * intros k Hj. rewrite count_app, count_invoke, I4 by assumption.
        rewrite andb_false_r. unfold ind. repeat case_decide; set_solver.
      * intros k. rewrite count_app, count_invoke, I5, andb_false_r. reflexivity.
      * intros k. rewrite count_app, count_invoke, I6, andb_false_r. reflexivity.
    + apply Set_has_false in E.
      specialize (IH (Set_add tr sid) (Set_add cur sid)).
      destruct (forEachPlayer nm rest (Set_add tr sid) (Set_add cur sid))
        as [[tr' cur'] calls].
      simpl in *. destruct IH as (I1 & I2 & I3 & I4 & I5 & I6).
      split_and!.
      * intros x. rewrite I1, elem_of_Set_add. set_solver.
      * intros x. rewrite I2, elem_of_Set_add. set_solver.
      * intros H. apply I3, NoDup_Set_add, H.
      * intros k Hj. rewrite !count_app, !count_invoke, I4, Hj by assumption.
        rewrite andb_false_r. simpl. unfold ind.
        pose proof (elem_of_Set_add tr sid k) as HA.
        repeat case_bool_decide; repeat case_decide; simpl; try lia; exfalso; set_solver.
      * intros k. rewrite !count_app, !count_invoke, I5, !andb_false_r. reflexivity.
      * intros k. rewrite !count_app, !count_invoke, I6, !andb_false_r. reflexivity.
Qed.

Lemma forOfTracked_spec nm ids : forall cur tr,
  NoDup ids ->
  let res := forOfTracked nm ids cur tr in
  (forall x, x ∈ res.1 <-> x ∈ tr /\ ~ (x ∈ ids /\ x ∉ cur)) /\
  (NoDup tr -> NoDup res.1) /\
  (forall k, hasOnPlayerLeave nm = true ->
     count (is_departure k) res.2 = ind (k ∈ ids /\ k ∉ cur)) /\
  (forall k, count (is_player_arrival k) res.2 = 0) /\
  (forall k, count (is_object_arrival k) res.2 = 0).
Proof.
  induction ids as [|sid rest IH]; intros cur tr Hnd; simpl.
  - split_and!; intros; try (unfold ind; case_decide); set_solver.
  - apply NoDup_cons in Hnd as [Hsid Hrest].
    destruct (Set_has cur sid) eqn:E; simpl.
    + apply Set_has_true in E.
      specialize (IH cur tr Hrest).
      destruct (forOfTracked nm rest cur tr) as [tr' calls].
      simpl in *. destruct IH as (I1 & I2 & I3 & I4 & I5).
      split_and!.
      * intros x. rewrite I1. set_solver.
      * assumption.
      * intros k Hl. rewrite I3 by assumption. unfold ind.
        repeat case_decide; set_solver.
      * assumption.
      * assumption.
    + apply Set_has_false in E.
      specialize (IH cur (Set_delete tr sid) Hrest).
      destruct (forOfTracked nm rest cur (Set_delete tr sid)) as [tr' calls].
      simpl in *. destruct IH as (I1 & I2 & I3 & I4 & I5).
      split_and!.
      * intros x. rewrite I1, elem_of_Set_delete. set_solver.
      * intros H. apply I2, NoDup_Set_delete, H.
      * intros k Hl. rewrite count_app, count_invoke, I3, Hl by assumption.
        simpl. unfold ind.
        repeat case_bool_decide; repeat case_decide; simpl; try lia; exfalso; set_solver.
      * intros k. rewrite count_app, count_invoke, I4, andb_false_r. reflexivity.
      * intros k. rewrite count_app, count_invoke, I5, andb_false_r. reflexivity.
Qed.

Lemma forEachObject_spec nm os : forall tr,
  let res := forEachObject nm os tr in
  (forall x, x ∈ res.1 <-> x ∈ tr \/ x ∈ os.*1) /\
  (forall k, hasOnWorldObjectAdd nm = true ->
     count (is_object_arrival k) res.2 = ind (k ∈ os.*1 /\ k ∉ tr)) /\
  (forall k, count (is_departure k) res.2 = 0) /\
  (forall k, count (is_player_arrival k) res.2 = 0).
Proof.
  induction os as [|[id o] rest IH]; intros tr; simpl.
  - split_and!; intros; try (unfold ind; case_decide); set_solver.
  - destruct (Set_has tr id) eqn:E; simpl.
    + apply Set_has_true in E.
      specialize (IH tr).
      destruct (forEachObject nm rest tr) as [tr' calls].
      simpl in *. destruct IH as (I1 & I2 & I3 & I4).
      split_and!.
      * intros x. rewrite I1. set_solver.
      * intros k Ha. rewrite I2 by assumption. unfold ind.
        repeat case_decide; set_solver.
      * assumption.
      * assumption.
    + apply Set_has_false in E.
      specialize (IH (Set_add tr id)).
      destruct (forEachObject nm rest (Set_add tr id)) as [tr' calls].
      simpl in *. destruct IH as (I1 & I2 & I3 & I4).
      split_and!.
      * intros x. rewrite I1, elem_of_Set_add. set_solver.
      * intros k Ha. rewrite count_app, count_invoke, I2, Ha by assumption.
        simpl. unfold ind.
        pose proof (elem_of_Set_add tr id k) as HA.
        repeat case_bool_decide; repeat case_decide; simpl; try lia; exfalso; set_solver.
      * intros k. rewrite count_app, count_invoke, I3, andb_false_r. reflexivity.
      * intros k. rewrite count_app, count_invoke, I4, andb_false_r. reflexivity.
Qed.

(** One call of [processState]: what it emits for an id and what it tracks
    afterwards. *)
Lemma processState_spec nm sn :
  ready nm ->
  let res := processState nm sn in
  (forall k, count (is_player_arrival k) res.2
             = ind (k ∈ (players sn).*1 /\ k ∉ trackedPlayers nm)) /\
  (forall k, count (is_departure k) res.2
             = ind (k ∈ trackedPlayers nm /\ k ∉ (players sn).*1)) /\
  (forall k, count (is_object_arrival k) res.2
             = ind (k ∈ (worldObjects sn).*1 /\ k ∉ trackedObjects nm)) /\
  (forall k, k ∈ trackedPlayers res.1 <-> k ∈ (players sn).*1) /\
  (forall k, k ∈ trackedObjects res.1
             <-> k ∈ trackedObjects nm \/ k ∈ (worldObjects sn).*1) /\
  ready res.1.
Proof.
  intros (Hnd & Hj & Hl & Ha). unfold processState.
  pose proof (forEachPlayer_spec nm (players sn) (trackedPlayers nm) []) as P.
  destruct (forEachPlayer nm (players sn) (trackedPlayers nm) []) as [[tr1 cur] c1].
  simpl in P. destruct P as (P1 & P2 & P3 & P4 & P5 & P6).
  pose proof (forOfTracked_spec nm tr1 cur tr1 (P3 Hnd)) as Q.
  destruct (forOfTracked nm tr1 cur tr1) as [tr2 c2].
  simpl in Q. destruct Q as (Q1 & Q2 & Q3 & Q4 & Q5).
  pose proof (forEachObject_spec nm (worldObjects sn) (trackedObjects nm)) as R.
  destruct (forEachObject nm (worldObjects sn) (trackedObjects nm)) as [objs c3].
  simpl in R. destruct R as (R1 & R2 & R3 & R4).
  simpl. split_and!.
  - intros k. rewrite !count_app, P4, Q4, R4, count_invoke by assumption.
    rewrite andb_false_r. lia.
  - intros k. rewrite !count_app, P5, Q3, R3, count_invoke by assumption.
    rewrite andb_false_r. unfold ind.
    pose proof (P1 k). pose proof (P2 k).
    repeat case_decide; try lia; exfalso; set_solver.
  - intros k. rewrite !count_app, P6, Q5, R2, count_invoke by assumption.
    rewrite andb_false_r. lia.
  - intros k. rewrite Q1, P1, P2.
    destruct (decide (k ∈ (players sn).*1)); set_solver.
  - exact R1.
  - split_and!; auto.
Qed.

Lemma processStates_cons nm sn ss :
  processStates nm (sn :: ss) =
    ((processStates (processState nm sn).1 ss).1,
     (processState nm sn).2 :: (processStates (processState nm sn).1 ss).2).
Proof.
  simpl. destruct (processState nm sn) as [nm1 calls]. simpl.
  destruct (processStates nm1 ss); reflexivity.
Qed.

Lemma processStates_app nm a b :
  processStates nm (a ++ b) =
    ((processStates (processStates nm a).1 b).1,
     (processStates nm a).2 ++ (processStates (processStates nm a).1 b).2).
Proof.
  revert nm. induction a as [|sn a IH]; intros nm; simpl.
  - destruct (processStates nm b); reflexivity.
  - destruct (processState nm sn) as [nm1 calls]. rewrite IH.
    destruct (processStates nm1 a) as [nm2 log]. simpl.
    destruct (processStates nm2 b); reflexivity.
Qed.

Lemma has_player_true k sn : has_player k sn = true <-> k ∈ (players sn).*1.
Proof. apply bool_decide_eq_true. Qed.
Lemma has_player_false k sn : has_player k sn = false <-> k ∉ (players sn).*1.
Proof. apply bool_decide_eq_false. Qed.
Lemma has_object_true k sn : has_object k sn = true <-> k ∈ (worldObjects sn).*1.
Proof. apply bool_decide_eq_true. Qed.
Lemma has_object_false k sn : has_object k sn = false <-> k ∉ (worldObjects sn).*1.
Proof. apply bool_decide_eq_false. Qed.

Lemma ready_new : ready new.
Proof. split_and!; try reflexivity. apply NoDup_nil_2. Qed.

(** While an untracked player stays out of the snapshots, nothing is emitted
    for it. *)
Lemma player_absent k ss : forall nm,
  ready nm -> k ∉ trackedPlayers nm ->
  Forall (λ sn, has_player k sn = false) ss ->
  let res := processStates nm ss in
  count (is_player_arrival k) <$> res.2 = replicate (length ss) 0 /\
  count (is_departure k) <$> res.2 = replicate (length ss) 0 /\
  (k ∉ trackedPlayers res.1) /\ ready res.1.
Proof.
  induction ss as [|sn ss IH]; intros nm Hr Hk Hall.
  - simpl. auto.
  - apply Forall_cons in Hall as [Hs Hall]. apply has_player_false in Hs.
    destruct (processState_spec nm sn Hr) as (P1 & P2 & _ & P4 & _ & P6).
    assert (Hk1 : k ∉ trackedPlayers (processState nm sn).1) by (rewrite P4; exact Hs).
    destruct (IH _ P6 Hk1 Hall) as (I1 & I2 & I3 & I4).
    rewrite processStates_cons. cbn [fst snd length replicate].
    rewrite !fmap_cons, P1, P2, I1, I2. unfold ind.
    rewrite !decide_False by tauto. auto.
Qed.

(** While a tracked player stays in the snapshots, nothing is emitted for
    it. *)
Lemma player_stays k ss : forall nm,
  ready nm -> k ∈ trackedPlayers nm ->
  Forall (λ sn, has_player k sn = true) ss ->
  let res := processStates nm ss in
  count (is_player_arrival k) <$> res.2 = replicate (length ss) 0 /\
  count (is_departure k) <$> res.2 = replicate (length ss) 0 /\
  k ∈ trackedPlayers res.1 /\ ready res.1.
Proof.
  induction ss as [|sn ss IH]; intros nm Hr Hk Hall.
  - simpl. auto.
  - apply Forall_cons in Hall as [Hs Hall]. apply has_player_true in Hs.
    destruct (processState_spec nm sn Hr) as (P1 & P2 & _ & P4 & _ & P6).
    destruct (IH _ P6 (proj2 (P4 k) Hs) Hall) as (I1 & I2 & I3 & I4).
    rewrite processStates_cons. cbn [fst snd length replicate].
    rewrite !fmap_cons, P1, P2, I1, I2. unfold ind.
    rewrite !decide_False by tauto. auto.
Qed.

(** A player that appears while untracked: one arrival. *)
Lemma player_arrives k nm sn :
  ready nm -> k ∉ trackedPlayers nm -> has_player k sn = true ->
  let res := processState nm sn in
  count (is_player_arrival k) res.2 = 1 /\ count (is_departure k) res.2 = 0 /\
  k ∈ trackedPlayers res.1 /\ ready res.1.
Proof.
  intros Hr Hk Hs. apply has_player_true in Hs.
  destruct (processState_spec nm sn Hr) as (P1 & P2 & _ & P4 & _ & P6).
  simpl. rewrite P1, P2. unfold ind.
  rewrite decide_True, decide_False by tauto. split_and!; auto. apply P4, Hs.
Qed.

(** A tracked player that is missing from a snapshot: one departure. *)
Lemma player_departs k nm sn :
  ready nm -> k ∈ trackedPlayers nm -> has_player k sn = false ->
  let res := processState nm sn in
  count (is_player_arrival k) res.2 = 0 /\ count (is_departure k) res.2 = 1 /\
  (k ∉ trackedPlayers res.1) /\ ready res.1.
Proof.
  intros Hr Hk Hs. apply has_player_false in Hs.
  destruct (processState_spec nm sn Hr) as (P1 & P2 & _ & P4 & _ & P6).
  simpl. rewrite P1, P2. unfold ind.
  rewrite decide_False, decide_True by tauto. split_and!; auto. rewrite P4. exact Hs.
Qed.

(** A tracked world object is never announced again and never untracked. *)
Lemma object_tracked k ss : forall nm,
  ready nm -> k ∈ trackedObjects nm ->
  let res := processStates nm ss in
  count (is_object_arrival k) <$> res.2 = replicate (length ss) 0 /\
  k ∈ trackedObjects res.1 /\ ready res.1.
Proof.
  induction ss as [|sn ss IH]; intros nm Hr Hk.
  - simpl. auto.
  - destruct (processState_spec nm sn Hr) as (_ & _ & P3 & _ & P5 & P6).
    destruct (IH _ P6 (proj2 (P5 k) (or_introl Hk))) as (I1 & I2 & I3).
    rewrite processStates_cons. cbn [fst snd length replicate].
    rewrite !fmap_cons, P3, I1. unfold ind.
    rewrite decide_False by tauto. auto.
Qed.

Lemma object_absent k ss : forall nm,
  ready nm -> k ∉ trackedObjects nm ->
  Forall (λ sn, has_object k sn = false) ss ->
  let res := processStates nm ss in
  count (is_object_arrival k) <$> res.2 = replicate (length ss) 0 /\
  (k ∉ trackedObjects res.1) /\ ready res.1.
Proof.
  induction ss as [|sn ss IH]; intros nm Hr Hk Hall.
  - simpl. auto.
  - apply Forall_cons in Hall as [Hs Hall]. apply has_object_false in Hs.
    destruct (processState_spec nm sn Hr) as (_ & _ & P3 & _ & P5 & P6).
    assert (Hk1 : k ∉ trackedObjects (processState nm sn).1) by (rewrite P5; tauto).
    destruct (IH _ P6 Hk1 Hall) as (I1 & I2 & I3).
    rewrite processStates_cons. cbn [fst snd length replicate].
    rewrite !fmap_cons, P3, I1. unfold ind.
    rewrite decide_False by tauto. auto.
Qed.

Lemma object_arrives k nm sn :
  ready nm -> k ∉ trackedObjects nm -> has_object k sn = true ->
  let res := processState nm sn in
  count (is_object_arrival k) res.2 = 1 /\
  k ∈ trackedObjects res.1 /\ ready res.1.
Proof.
  intros Hr Hk Hs. apply has_object_true in Hs.
  destruct (processState_spec nm sn Hr) as (_ & _ & P3 & _ & P5 & P6).
  simpl. rewrite P3. unfold ind.
  rewrite decide_True by tauto. split_and!; auto. apply P5. auto.
Qed.

End ClientFacts.

(** ** What the specification says of the client *)

Section ClientClaims.

Import NetworkManager.

(** C9, as stated, fails for world objects: [processState] never removes an
    id from [trackedObjects] and has no departure callback for objects.  An
    object that is in a snapshot, missing from the next and back in the third
    is announced once; its absence and its return cause no call but
    [onStateChange]. *)
Lemma world_object_reappears_silently :
  let tree := WorldObject.mk "tree_0" "tree" 1 0 2 0 true in
  let with_tree := mkSnapshot [] [("tree_0", tree)] 0 "day" in
  let without := mkSnapshot [] [] 0 "day" in
  (processStates new [with_tree; without; with_tree]).2
  = [ [onWorldObjectAdd "tree_0" (objectData tree); onStateChange 0 "day"];
      [onStateChange 0 "day"];
      [onStateChange 0 "day"] ].
Proof. vm_compute. reflexivity. Qed.

(** C9, amended.  On a manager whose arrival and departure callbacks are
    registered:

    - for every player id that is not tracked, and every run of snapshots in
      which the id is first absent ([before]), then present in one or more
      consecutive snapshots ([first :: present]), then missing ([gone]):
      [onPlayerJoin] fires for it exactly once, on [first], and
      [onPlayerLeave] exactly once, on [gone]; afterwards the id is untracked
      again, so the same holds of its next presence interval;
    - for every world object id that is not tracked: [onWorldObjectAdd] fires
      for it exactly once, on the first snapshot that has it, and never again
      whatever follows; the id stays tracked (no departure is ever emitted
      for a world object). *)
Theorem processStates_arrivals_departures (nm : t) :
  ready nm ->
  (forall k before first present gone,
     k ∉ trackedPlayers nm ->
     Forall (λ sn, has_player k sn = false) before ->
     Forall (λ sn, has_player k sn = true) (first :: present) ->
     has_player k gone = false ->
     let res := processStates nm (before ++ first :: present ++ [gone]) in
     count (is_player_arrival k) <$> res.2
       = replicate (length before) 0 ++ 1 :: replicate (length present) 0 ++ [0] /\
     count (is_departure k) <$> res.2
       = replicate (length before) 0 ++ 0 :: replicate (length present) 0 ++ [1] /\
     (k ∉ trackedPlayers res.1) /\ ready res.1) /\
  (forall k before first after,
     k ∉ trackedObjects nm ->
     Forall (λ sn, has_object k sn = false) before ->
     has_object k first = true ->
     let res := processStates nm (before ++ first :: after) in
     count (is_object_arrival k) <$> res.2
       = replicate (length before) 0 ++ 1 :: replicate (length after) 0 /\
     k ∈ trackedObjects res.1).
Proof.
  intros Hr. split.
  - intros k before first present gone Hk Hbefore Hall Hgone.
    apply Forall_cons in Hall as [Hfirst Hall].
    destruct (player_absent k before nm Hr Hk Hbefore) as (B1 & B2 & B3 & B4).
    destruct (player_arrives k _ first B4 B3 Hfirst) as (A1 & A2 & A3 & A4).
    destruct (player_stays k present _ A4 A3 Hall) as (S1 & S2 & S3 & S4).
    destruct (player_departs k _ gone S4 S3 Hgone) as (D1 & D2 & D3 & D4).
    rewrite processStates_app, processStates_cons, processStates_app, processStates_cons.
    cbn [fst snd processStates].
    rewrite !fmap_app, !fmap_cons, !fmap_app, !fmap_cons, B1, B2, A1, A2, S1, S2, D1, D2.
    auto.
  - intros k before first after Hk Hbefore Hfirst.
    destruct (object_absent k before nm Hr Hk Hbefore) as (B1 & B2 & B3).
    destruct (object_arrives k _ first B3 B2 Hfirst) as (A1 & A2 & A3).
    destruct (object_tracked k after _ A3 A2) as (T1 & T2 & T3).
    rewrite processStates_app, processStates_cons.
    cbn [fst snd].
    rewrite !fmap_app, !fmap_cons, B1, A1, T1. auto.
Qed.

Lemma processStates_arrivals_departures_witness :
  let player k := (k, Player.set_id k Player.new) in
  let tree := ("tree_0", WorldObject.mk "tree_0" "tree" 1 0 2 0 true) in
  let empty := mkSnapshot [player "b"] [] 0 "day" in
  let both := mkSnapshot [player "b"; player "a"] [tree] 0 "day" in
  ready new /\
  (let res := processStates new ([empty] ++ both :: [both; both] ++ [empty]) in
   count (is_player_arrival "a") <$> res.2 = [0; 1; 0; 0; 0] /\
   count (is_departure "a") <$> res.2 = [0; 0; 0; 0; 1] /\
   ("a" ∉ trackedPlayers res.1) /\ ready res.1) /\
  (let res := processStates new ([empty] ++ both :: [both; empty; both]) in
   count (is_object_arrival "tree_0") <$> res.2 = [0; 1; 0; 0; 0] /\
   "tree_0" ∈ trackedObjects res.1).
Proof.
  intros player tree empty both.
  destruct (processStates_arrivals_departures new ready_new) as [HP HO].
  split; [exact ready_new|]. split.
  - apply (HP "a" [empty] both [both; both] empty).
    + vm_compute. apply not_elem_of_nil.
    + repeat constructor.
    + repeat constructor.
    + reflexivity.
  - apply (HO "tree_0" [empty] both [both; empty; both]).
    + vm_compute. apply not_elem_of_nil.
    + repeat constructor.
    + reflexivity.
Defined.

End ClientClaims.

(** * Further properties *)

(** ** The room: the players map and the objects it refers to *)

Section RoomInvariant.

Import GameRoom.
Local Open Scope float_scope.

(** *** Every reachable room is well formed *)

Lemma wf_create objs : wf (create objs).
Proof. split; intros *; simpl; rewrite lookup_empty; discriminate. Qed.

Lemma wf_set_heap_alter f l r : wf r -> wf (set_heap (alter f l (heap r)) r).
Proof.
  intros [H1 H2]. split; [|exact H2]. intros sid l' Hl. simpl in *.
  destruct (H1 sid l' Hl) as [Hlt Hs]. split; [exact Hlt|].
  rewrite lookup_alter. case_decide; [subst|assumption].
  destruct Hs as [q Hq]. rewrite Hq. eauto.
Qed.

Lemma wf_onJoin r sid n rx rz : wf r -> wf (onJoin r sid n rx rz).
Proof.
  intros [H1 H2]. split.
  - intros sid' l. simpl. rewrite lookup_insert. case_decide.
    + intros [= <-]. split; [lia|]. rewrite lookup_insert_eq. eauto.
    + intros Hl. destruct (H1 sid' l Hl) as [Hlt Hs]. split; [lia|].
      rewrite lookup_insert_ne by lia. exact Hs.
  - intros sid1 sid2 l. simpl. rewrite !lookup_insert.
    repeat case_decide; subst; try congruence.
    + intros [= <-] Hl. destruct (H1 _ _ Hl). lia.
    + intros Hl [= <-]. destruct (H1 _ _ Hl). lia.
    + apply H2.
Qed.

Lemma wf_onLeave r sid : wf r -> wf (onLeave r sid).
Proof.
  intros [H1 H2]. split.
  - intros sid' l. simpl. rewrite lookup_delete. case_decide; [discriminate|]. apply H1.
  - intros sid1 sid2 l. simpl. rewrite !lookup_delete.
    repeat case_decide; try discriminate. apply H2.
Qed.

Lemma wf_onMessage approx r sid m r' :
  wf r -> onMessage approx r sid m = Done r' -> wf r'.
Proof.
  intros Hw. destruct m as [[d|]| |]; simpl; unfold onMove, onStop, onAction;
    destruct (players (state r) !! sid) as [l|]; try (intros [= <-]; assumption);
    try discriminate.
  - destruct (0 <? _); intros [= <-]; [apply wf_set_heap_alter|]; assumption.
  - intros [= <-]. apply wf_set_heap_alter, Hw.
  - intros [= <-].
    exact (wf_set_heap_alter (Player.set_state "action") l r Hw).
Qed.

Lemma wf_forEach (ps : list (string * ref)) f r h :
  wf (set_heap h r) ->
  wf (set_heap (foldr (λ '(_, l) h', alter f l h') h ps) r).
Proof.
  intros Hw. induction ps as [|[sid l] ps IH]; simpl; [exact Hw|].
  apply (wf_set_heap_alter f l) in IH. exact IH.
Qed.

Lemma wf_update r : wf r -> wf (update r).
Proof.
  intros Hw.
  pose proof (wf_forEach (map_to_list (players (state r))) movePlayer r (heap r)) as H.
  destruct r as [h n s t ts]. destruct s as [ps os wt dp]. simpl in *.
  specialize (H Hw). destruct H as [H1 H2]. split; [exact H1|exact H2].
Qed.

Lemma wf_fire tm r : wf r -> wf (fire tm r).
Proof. apply wf_set_heap_alter. Qed.

Lemma wf_fire_all (tms : list Timer) : forall r,
  wf r -> wf (foldl (λ r' tm, fire tm r') r tms).
Proof.
  induction tms as [|tm tms IH]; intros r Hw; simpl; [exact Hw|].
  apply IH, wf_fire, Hw.
Qed.

Lemma wf_advance t r : wf r -> wf (advance t r).
Proof.
  intros Hw. unfold advance.
  exact (wf_fire_all _ (set_timers _ r) Hw).
Qed.

Lemma wf_handle approx r e : wf r -> wf (handle approx r e).
Proof.
  intros Hw. destruct e as [sid n rx rz|sid|sid m| |]; simpl.
  - apply wf_onJoin, Hw.
  - apply wf_onLeave, Hw.
  - destruct (onMessage approx r sid m) as [r'|] eqn:E; [|exact Hw].
    eapply wf_onMessage; eassumption.
  - apply wf_update, Hw.
  - exact Hw.
Qed.

Lemma wf_run approx trace : forall r, wf r -> wf (run approx r trace).
Proof.
  induction trace as [|[t e] trace IH]; intros r Hw; simpl; [exact Hw|].
  apply IH, wf_handle, wf_advance, Hw.
Qed.

End RoomInvariant.

(** ** The room over whole runs *)

Section RoomRuns.

Import GameRoom.
Local Open Scope float_scope.

Variable approx : float -> float -> float.

Lemma state_fire_all (tms : list Timer) : forall r,
  state (foldl (λ r' tm, fire tm r') r tms) = state r.
Proof. induction tms as [|tm tms IH]; intros r; simpl; [reflexivity|]. now rewrite IH. Qed.

Lemma state_advance t r : state (advance t r) = state r.
Proof. unfold advance. simpl. now rewrite state_fire_all. Qed.

Lemma state_onMessage r sid m r' :
  onMessage approx r sid m = Done r' -> state r' = state r.
Proof.
  destruct m as [[d|]| |]; simpl; unfold onMove, onStop, onAction;
    destruct (players (state r) !! sid); try (intros [= <-]; reflexivity);
    try discriminate.
  destruct (0 <? _); intros [= <-]; reflexivity.
Qed.

Lemma revert_idemp p : revert (revert p) = revert p.
Proof.
  unfold revert. destruct (String.eqb (Player.state p) "action") eqn:E; simpl;
    [reflexivity | now rewrite E].
Qed.

Lemma revert_cases p :
  revert p = p \/ (Player.state p = "action" /\ revert p = Player.set_state "idle" p).
Proof.
  unfold revert. destruct (String.eqb (Player.state p) "action") eqn:E; [|now left].
  right. split; [now apply String.eqb_eq | reflexivity].
Qed.

(** The callbacks that fire together revert each targeted player once. *)
Lemma heap_fire_all (tms : list Timer) : forall r l,
  heap (foldl (λ r' tm, fire tm r') r tms) !! l =
    if bool_decide (l ∈ target <$> tms) then revert <$> heap r !! l else heap r !! l.
Proof.
  induction tms as [|tm tms IH]; intros r l.
  - case_bool_decide as H; [|reflexivity]. now apply elem_of_nil in H.
  - change (foldl _ r (tm :: tms)) with (foldl (λ r' tm, fire tm r') (fire tm r) tms).
    rewrite IH. change (heap (fire tm r)) with (alter revert (target tm) (heap r)).
    rewrite fmap_cons.
    destruct (decide (l = target tm)) as [->|Hne].
    + rewrite lookup_alter_eq.
      rewrite (bool_decide_eq_true_2 (target tm ∈ target tm :: _)) by left.
      case_bool_decide; [|reflexivity].
      destruct (heap r !! target tm); simpl; [|reflexivity]. now rewrite revert_idemp.
    + rewrite lookup_alter_ne by congruence.
      repeat case_bool_decide; try reflexivity; exfalso; set_solver.
Qed.

Lemma heap_advance t r l :
  heap (advance t r) !! l =
    if bool_decide (l ∈ target <$> filter (λ tm, (due tm <=? t)%Z = true) (timers r))
    then revert <$> heap r !! l else heap r !! l.
Proof. unfold advance. simpl. now rewrite heap_fire_all. Qed.

Lemma getPlayer_ref r sid l :
  players (state r) !! sid = Some l -> getPlayer r sid = heap r !! l.
Proof. intros H. unfold getPlayer. now rewrite H. Qed.

Lemma getPlayer_no_ref r sid :
  players (state r) !! sid = None -> getPlayer r sid = None.
Proof. intros H. unfold getPlayer. now rewrite H. Qed.

Lemma getPlayer_advance t r sid :
  getPlayer (advance t r) sid = getPlayer r sid \/
  getPlayer (advance t r) sid = revert <$> getPlayer r sid.
Proof.
  destruct (players (state r) !! sid) as [l|] eqn:E.
  - rewrite (getPlayer_ref (advance t r) sid l) by now rewrite state_advance.
    rewrite (getPlayer_ref r sid l E), heap_advance.
    case_bool_decide; [now right | now left].
  - left. rewrite !getPlayer_no_ref; [reflexivity | assumption |].
    now rewrite state_advance.
Qed.

(** [forEach] over a map none of whose values occurs twice applies the
    callback once to each. *)
Lemma foldr_alter_lookup (f : Player.t -> Player.t) (ps : list (string * ref))
    (h : gmap ref Player.t) l :
  NoDup ps.*2 ->
  foldr (λ '(_, l') h', alter f l' h') h ps !! l =
    if bool_decide (l ∈ ps.*2) then f <$> h !! l else h !! l.
Proof.
  induction ps as [|[k l0] ps IH]; intros Hnd.
  - case_bool_decide as H; [|reflexivity]. now apply elem_of_nil in H.
  - rewrite fmap_cons in Hnd |- *. apply NoDup_cons in Hnd as [Hl0 Hnd].
    specialize (IH Hnd).
    change (foldr _ h ((k, l0) :: ps))
      with (alter f l0 (foldr (λ '(_, l') h', alter f l' h') h ps)).
    change ((k, l0).2) with l0 in *.
    destruct (decide (l = l0)) as [->|Hne].
    + rewrite lookup_alter_eq, IH.
      rewrite (bool_decide_eq_false_2 _ Hl0).
      rewrite bool_decide_eq_true_2; [reflexivity | left].
    + rewrite lookup_alter_ne by congruence. rewrite IH.
      repeat case_bool_decide; try reflexivity; exfalso; set_solver.
Qed.

Lemma NoDup_players_refs r : wf r -> NoDup (map_to_list (players (state r))).*2.
Proof.
  intros [_ Hinj]. apply NoDup_fmap_2_strong; [|apply NoDup_map_to_list].
  intros [k1 l1] [k2 l2] H1 H2. simpl. intros <-.
  apply elem_of_map_to_list in H1, H2. f_equal. exact (Hinj _ _ _ H1 H2).
Qed.

Lemma getPlayer_update r sid :
  wf r -> getPlayer (update r) sid = movePlayer <$> getPlayer r sid.
Proof.
  intros Hw. unfold getPlayer, update. simpl.
  destruct (players (state r) !! sid) as [l|] eqn:E; simpl; [|reflexivity].
  rewrite foldr_alter_lookup by now apply NoDup_players_refs.
  rewrite bool_decide_eq_true_2; [reflexivity|].
  apply list_elem_of_fmap. exists (sid, l). split; [reflexivity|].
  now apply elem_of_map_to_list.
Qed.

Lemma getPlayer_alter_ne r sid l f :
  (forall l', players (state r) !! sid = Some l' -> l' <> l) ->
  getPlayer (set_heap (alter f l (heap r)) r) sid = getPlayer r sid.
Proof.
  intros Hne. unfold getPlayer. simpl.
  destruct (players (state r) !! sid) as [l'|] eqn:E; simpl; [|reflexivity].
  rewrite lookup_alter_ne; [reflexivity|]. intros ->. exact (Hne l' eq_refl eq_refl).
Qed.

Lemma getPlayer_alter_fmap r sid l f :
  players (state r) !! sid = Some l ->
  getPlayer (set_heap (alter f l (heap r)) r) sid = f <$> getPlayer r sid.
Proof.
  intros Hl. unfold getPlayer. simpl. rewrite Hl. simpl. apply lookup_alter_eq.
Qed.

Lemma getPlayer_onJoin_ne r sid sid' n rx rz :
  wf r -> sid' <> sid ->
  getPlayer (onJoin r sid n rx rz) sid' = getPlayer r sid'.
Proof.
  intros [Hdom _] Hne. unfold getPlayer, onJoin. simpl.
  rewrite lookup_insert_ne by congruence.
  destruct (players (state r) !! sid') as [l|] eqn:E; simpl; [|reflexivity].
  rewrite lookup_insert_ne; [reflexivity|].
  destruct (Hdom _ _ E) as [Hlt _]. lia.
Qed.

Lemma getPlayer_onLeave_ne r sid sid' :
  sid' <> sid -> getPlayer (onLeave r sid) sid' = getPlayer r sid'.
Proof.
  intros Hne. unfold getPlayer, onLeave. simpl. now rewrite lookup_delete_ne by congruence.
Qed.

Lemma getPlayer_onLeave_eq r sid : getPlayer (onLeave r sid) sid = None.
Proof. unfold getPlayer, onLeave. simpl. now rewrite lookup_delete_eq. Qed.

(** An event of another session leaves a player as it is; so does [Wait],
    on which [handle] is the identity (the callbacks that have become due run
    in [advance], before the event). *)
Lemma getPlayer_handle_other r e sid :
  wf r -> sender e <> Some sid -> is_tick e = false ->
  getPlayer (handle approx r e) sid = getPlayer r sid.
Proof.
  intros Hw Hs Ht. destruct e as [s n rx rz|s|s m| |]; simpl in *; try discriminate.
  - apply getPlayer_onJoin_ne; [assumption | congruence].
  - apply getPlayer_onLeave_ne. congruence.
  - assert (Hother : forall l f, players (state r) !! s = Some l ->
              getPlayer (set_heap (alter f l (heap r)) r) sid = getPlayer r sid).
    { intros l f Hl. apply getPlayer_alter_ne.
      intros l' Hl' ->. apply Hs. f_equal. exact (proj2 Hw _ _ _ Hl Hl'). }
    destruct m as [[d|]| |]; simpl; unfold onMove, onStop, onAction;
      destruct (players (state r) !! s) as [l|] eqn:E; try reflexivity.
    + destruct (0 <? _); [|reflexivity]. apply Hother. reflexivity.
    + apply Hother. reflexivity.
    + exact (Hother l (Player.set_state "action") eq_refl).
  - reflexivity.
Qed.

Lemma run_cons r t e trace :
  run approx r ((t, e) :: trace) = run approx (handle approx (advance t r) e) trace.
Proof. reflexivity. Qed.

Lemma run_snoc r trace t e :
  run approx r (trace ++ [(t, e)]) = handle approx (advance t (run approx r trace)) e.
Proof. unfold run. now rewrite foldl_app. Qed.

(** *** What is kept of every player *)






Lemma joined_name_nonempty (n : option string) sid :
  match n with
  | Some n => if String.eqb n "" then "Player_" +:+ String.substring 0 4 sid else n
  | None => "Player_" +:+ String.substring 0 4 sid
  end <> "".
Proof.
  destruct n as [n|]; [|discriminate].
  destruct (String.eqb n "") eqn:E; [discriminate|]. now apply String.eqb_neq.
Qed.



(** *** Who has a player *)

Lemma present_cons sid b t e trace :
  present sid b ((t, e) :: trace) =
    present sid (match e with
                 | Join s _ _ _ => if decide (s = sid) then true else b
                 | Leave s => if decide (s = sid) then false else b
                 | _ => b
                 end) trace.
Proof. reflexivity. Qed.

Lemma players_run sid trace : forall r,
  is_Some (players (state (run approx r trace)) !! sid) <->
  present sid (bool_decide (is_Some (players (state r) !! sid))) trace = true.
Proof.
  induction trace as [|[t e] trace IH]; intros r.
  - simpl. unfold present. simpl. now rewrite bool_decide_eq_true.
  - rewrite run_cons, IH, present_cons.
    assert (bool_decide (is_Some (players (state (handle approx (advance t r) e)) !! sid))
            = match e with
              | Join s _ _ _ =>
                  if decide (s = sid) then true
                  else bool_decide (is_Some (players (state r) !! sid))
              | Leave s =>
                  if decide (s = sid) then false
                  else bool_decide (is_Some (players (state r) !! sid))
              | _ => bool_decide (is_Some (players (state r) !! sid))
              end) as ->; [|reflexivity].
    generalize (state_advance t r). generalize (advance t r). intros r1 Hs.
    destruct e as [s n rx rz|s|s m| |]; simpl.
    + rewrite Hs, lookup_insert.
      destruct (decide (s = sid)); [|reflexivity].
      apply bool_decide_eq_true_2. eauto.
    + rewrite Hs, lookup_delete.
      destruct (decide (s = sid)); [|reflexivity].
      apply bool_decide_eq_false_2. intros [? ?]. discriminate.
    + destruct (onMessage approx r1 s m) as [r'|] eqn:E.
      * now rewrite (state_onMessage _ _ _ _ E), Hs.
      * now rewrite Hs.
    + now rewrite Hs.
    + now rewrite Hs.
Qed.

Lemma wf_getPlayer_is_Some r sid :
  wf r -> is_Some (getPlayer r sid) <-> is_Some (players (state r) !! sid).
Proof.
  intros [Hdom _]. unfold getPlayer.
  destruct (players (state r) !! sid) as [l|] eqn:E; simpl.
  - split; [eauto|]. intros _. exact (proj2 (Hdom _ _ E)).
  - split; intros [? ?]; discriminate.
Qed.

(** *** A player at rest *)

Lemma movePlayer_rest p :
  (Player.velocityX p =? 0) = true -> (Player.velocityZ p =? 0) = true ->
  movePlayer p = p.
Proof. intros Hx Hz. unfold movePlayer, JS.strict_neq. now rewrite Hx, Hz. Qed.

Lemma revert_stopped p : revert (stopped p) = stopped p.
Proof.
  unfold revert. now rewrite (proj1 (proj2 (proj2 (stopped_fields p)))).
Qed.

Lemma stopped_revert p : stopped (revert p) = stopped p.
Proof.
  unfold revert. destruct (String.eqb _ _); [|reflexivity].
  unfold stopped, Player.set_velocityX. simpl.
  destruct (0 =? Player.velocityX p); unfold Player.set_velocityZ; simpl;
    destruct (0 =? Player.velocityZ p); reflexivity.
Qed.

Lemma movePlayer_stopped p : movePlayer (stopped p) = stopped p.
Proof.
  destruct (stopped_fields p) as (Hx & Hz & _). now apply movePlayer_rest.
Qed.

End RoomRuns.

(** ** The clamp, case by case *)

Section ClampFacts.

Import GameRoom.
Local Open Scope float_scope.

(** [|v| <= b] for a positive finite [b] puts [v] neither above [b] nor
    below [-b]. *)
Lemma abs_leb_inv (v b : float) mb eb :
  Prim2SF b = S754_finite false mb eb -> (abs v <=? b) = true ->
  (b <? v) = false /\ (v <? - b) = false.
Proof.
  intros Hb. rewrite !FloatAxioms.ltb_spec, FloatAxioms.leb_spec, abs_spec, opp_spec, Hb.
  unfold SFltb, SFleb.
  destruct (Prim2SF v) as [s|s| |s m e]; simpl.
  - destruct s; auto.
  - discriminate.
  - discriminate.
  - destruct s; simpl.
    + intros H. split; [reflexivity|].
      destruct (e ?= eb)%Z; simpl in *; try reflexivity; try discriminate.
      destruct (Pos.compare_cont Eq m mb); simpl in *; try reflexivity; discriminate.
    + intros H. split; [|reflexivity].
      rewrite (Z.compare_antisym e eb).
      destruct (e ?= eb)%Z; simpl in *; try reflexivity; try discriminate.
      change Eq with (CompOpp Eq) at 1.
      rewrite <- (Pos.compare_cont_antisym m mb Eq).
      destruct (Pos.compare_cont Eq m mb); simpl in *; try reflexivity; discriminate.
Qed.

Lemma ltb_nan_r (a b : float) : (a <? b) = true -> is_nan b = false.
Proof.
  rewrite FloatAxioms.ltb_spec. intros H. destruct (is_nan b) eqn:E; [|reflexivity].
  apply is_nan_spec in E. rewrite E in H.
  destruct (Prim2SF a) as [[]|[]| |[] ? ?]; discriminate.
Qed.

Lemma leb_not_nan (a b : float) : (a <=? b) = true -> is_nan b = false.
Proof.
  rewrite FloatAxioms.leb_spec. intros H. destruct (is_nan b) eqn:E; [|reflexivity].
  apply is_nan_spec in E. rewrite E in H.
  destruct (Prim2SF a) as [[]|[]| |[] ? ?]; discriminate.
Qed.

Lemma abs_not_nan (v : float) : is_nan (abs v) = false -> is_nan v = false.
Proof.
  intros H. apply is_nan_false_spec. apply is_nan_false_spec in H.
  rewrite abs_spec in H. intros E. rewrite E in H. now apply H.
Qed.

Lemma halfWorld_SF : Prim2SF halfWorld = S754_finite false 7036874417766400 (-48).
Proof. reflexivity. Qed.

(** Inside the bounds the clamp changes nothing. *)
Lemma clamp_inside (v : float) : (abs v <=? halfWorld) = true -> clamp v = v.
Proof.
  intros H. destruct (abs_leb_inv v halfWorld _ _ halfWorld_SF H) as [H1 H2].
  assert (Hv : is_nan v = false).
  { apply abs_not_nan. rewrite FloatAxioms.leb_spec in H.
    destruct (is_nan (abs v)) eqn:E; [|reflexivity].
    apply is_nan_spec in E. rewrite E in H. discriminate. }
  assert (Hopp : - halfWorld = (-25)%float) by reflexivity. rewrite Hopp in H2.
  unfold clamp. rewrite Hopp. unfold JS.Math_min. change halfWorld with 25 in *.
  change (is_nan 25) with false. rewrite Hv, H1. simpl.
  assert (Htail : (if v <? 25 then v else v) = v) by (destruct (v <? 25); reflexivity).
  rewrite Htail. clear Htail.
  unfold JS.Math_max. change (is_nan (-25)) with false. rewrite Hv, H2. simpl.
  destruct (-25 <? v); reflexivity.
Qed.

(** Above the bounds the clamp gives the upper bound. *)
Lemma clamp_above (v : float) : (halfWorld <? v) = true -> clamp v = halfWorld.
Proof.
  intros H. pose proof (ltb_nan_r _ _ H) as Hv.
  unfold clamp, JS.Math_min. change halfWorld with 25 in *.
  change (is_nan 25) with false. rewrite Hv, H. reflexivity.
Qed.

(** Below [-b], for a positive finite [b], is below [b] and not above it. *)
Lemma ltb_opp_bound (v b : float) mb eb :
  Prim2SF b = S754_finite false mb eb -> (v <? - b) = true ->
  (b <? v) = false /\ (v <? b) = true.
Proof.
  intros Hb. rewrite !FloatAxioms.ltb_spec, opp_spec, Hb. unfold SFltb.
  destruct (Prim2SF v) as [s|s| |s m e]; simpl; try discriminate.
  - destruct s; [auto|discriminate].
  - destruct s; [auto|discriminate].
Qed.

(** Below the bounds the clamp gives the lower bound. *)
Lemma clamp_below (v : float) : (v <? - halfWorld) = true -> clamp v = - halfWorld.
Proof.
  intros H. pose proof (ltb_nan_l _ _ H) as Hv.
  destruct (ltb_opp_bound v halfWorld _ _ halfWorld_SF H) as [H1 H2].
  assert (Hopp : - halfWorld = (-25)%float) by reflexivity. rewrite Hopp in H |- *.
  unfold clamp. rewrite Hopp. unfold JS.Math_min. change halfWorld with 25 in *.
  change (is_nan 25) with false. rewrite Hv, H1, H2. simpl.
  unfold JS.Math_max. change (is_nan (-25)) with false.
  rewrite Hv, (ltb_asym _ _ H), H. reflexivity.
Qed.

Lemma movePlayer_clamp p :
  movePlayer p =
    if JS.strict_neq (Player.velocityX p) 0 || JS.strict_neq (Player.velocityZ p) 0
    then Player.set_z (clamp (Player.z p + Player.velocityZ p * deltaTime))
           (Player.set_x (clamp (Player.x p + Player.velocityX p * deltaTime)) p)
    else p.
Proof. reflexivity. Qed.

End ClampFacts.

(** ** The server, which a throwing handler ends, and the runs *)

Section ServerRuns.

Import GameRoom.
Local Open Scope float_scope.

Variable approx : float -> float -> float.

Lemma step_handle r e r' : step approx r e = Some r' -> handle approx r e = r'.
Proof.
  destruct e as [s n rx rz|s|s m| |]; simpl; try (intros [= <-]; reflexivity).
  destruct (onMessage approx r s m); [intros [= <-]; reflexivity | discriminate].
Qed.

(** Every room of the server is a room of [run]. *)
Lemma serve_run trace : forall r r',
  serve approx r trace = Some r' -> run approx r trace = r'.
Proof.
  induction trace as [|[t e] trace IH]; intros r r'; simpl.
  - now intros [= <-].
  - destruct (step approx (advance t r) e) as [r1|] eqn:E; simpl; [|discriminate].
    intros H. rewrite (step_handle _ _ _ E). apply IH, H.
Qed.

(** One event only ends the server: a "move" without a payload from a
    session that has a player. *)
Lemma step_None r e :
  step approx r e = None <->
  exists sid, e = Message sid (Move None) /\ is_Some (players (state r) !! sid).
Proof.
  split.
  - destruct e as [s n rx rz|s|s m| |]; simpl; try discriminate.
    destruct m as [[d|]| |]; simpl; unfold onMove, onStop, onAction;
      destruct (players (state r) !! s) as [l|] eqn:E; try discriminate.
    + destruct (0 <? _); discriminate.
    + intros _. exists s. rewrite E. eauto.
  - intros (sid & -> & [l Hl]). simpl. unfold onMove. now rewrite Hl.
Qed.

(** A trace in which every "move" carries a payload is served to its end. *)
Lemma serve_payload trace : forall r,
  Forall (λ te, forall sid, te.2 <> Message sid (Move None)) trace ->
  is_Some (serve approx r trace).
Proof.
  induction trace as [|[t e] trace IH]; intros r Hp; simpl; [eauto|].
  apply Forall_cons in Hp as [He Hp]. simpl in He.
  destruct (step approx (advance t r) e) as [r1|] eqn:E; simpl; [now apply IH|].
  apply step_None in E as (sid & -> & _). now destruct (He sid).
Qed.

Lemma step_wf r e r' : wf r -> step approx r e = Some r' -> wf r'.
Proof. intros Hw H. rewrite <- (step_handle _ _ _ H). now apply wf_handle. Qed.

Lemma timers_fire_all (tms : list Timer) : forall r,
  timers (foldl (λ r' tm, fire tm r') r tms) = timers r.
Proof. induction tms as [|tm tms IH]; intros r; simpl; [reflexivity|]. now rewrite IH. Qed.

Lemma timers_advance t r :
  timers (advance t r) = filter (λ tm, (due tm <=? t)%Z = false) (timers r).
Proof. unfold advance. simpl. now rewrite timers_fire_all. Qed.

Lemma now_advance t r : now (advance t r) = Z.max (now r) t.
Proof. reflexivity. Qed.

(** What an event that does not come from the session [sid] does to the
    room, as far as the player of [sid] and the timers go: the session keeps
    its player object, which a tick moves and nothing else touches; the
    clock stands; at most one callback is added, due 500 ms from now. *)
Lemma step_quiet r e r' sid l q :
  wf r -> players (state r) !! sid = Some l -> heap r !! l = Some q ->
  sender e <> Some sid -> step approx r e = Some r' ->
  players (state r') !! sid = Some l /\
  heap r' !! l = Some (if is_tick e then movePlayer q else q) /\
  now r' = now r /\
  (timers r' = timers r \/
   exists l', timers r' = timers r ++ [mkTimer (now r + 500)%Z l']).
Proof.
  intros Hw Hl Hq Hs Hstep.
  assert (Hg : getPlayer r sid = Some q) by now rewrite (getPlayer_ref r sid l Hl).
  destruct (is_tick e) eqn:Et.
  - destruct e; try discriminate. injection Hstep as <-.
    split; [exact Hl|]. split; [|split; [reflexivity | now left]].
    rewrite <- (getPlayer_ref (update r) sid l Hl), getPlayer_update, Hg by exact Hw.
    reflexivity.
  - pose proof (getPlayer_handle_other approx r e sid Hw Hs Et) as Hsame.
    rewrite (step_handle _ _ _ Hstep), Hg in Hsame.
    assert (Hplayers : players (state r') !! sid = Some l).
    { destruct e as [s n rx rz|s|s m| |]; simpl in *; try discriminate.
      - injection Hstep as <-. simpl. rewrite lookup_insert_ne; [exact Hl | congruence].
      - injection Hstep as <-. simpl. rewrite lookup_delete_ne; [exact Hl | congruence].
      - destruct (onMessage approx r s m) as [r1|] eqn:E; [|discriminate].
        injection Hstep as <-. now rewrite (state_onMessage _ _ _ _ _ E).
      - now injection Hstep as <-. }
    split; [exact Hplayers|].
    split; [now rewrite <- (getPlayer_ref r' sid l Hplayers)|].
    destruct e as [s n rx rz|s|s m| |]; simpl in *; try discriminate;
      try (injection Hstep as <-; split; [reflexivity | now left]).
    destruct m as [[d|]| |]; simpl in Hstep; unfold onMove, onStop, onAction in Hstep;
      destruct (players (state r) !! s) as [l'|]; try discriminate;
      try (injection Hstep as <-; split; [reflexivity | now left]).
    + destruct (0 <? _); injection Hstep as <-; (split; [reflexivity | now left]).
    + injection Hstep as <-. split; [reflexivity|]. right. now exists l'.
Qed.

(** The same for the passing of time: the callbacks that are due revert the
    player if one of them closed over it, and leave the list. *)
Lemma advance_quiet t r sid l q :
  players (state r) !! sid = Some l -> heap r !! l = Some q ->
  players (state (advance t r)) !! sid = Some l /\
  heap (advance t r) !! l =
    Some (if bool_decide (l ∈ target <$> filter (λ tm, (due tm <=? t)%Z = true) (timers r))
          then revert q else q).
Proof.
  intros Hl Hq. split; [now rewrite state_advance|].
  rewrite heap_advance, Hq. now case_bool_decide.
Qed.

(** *** An action on its way to its end *)

(** After "action", and as long as the session sends nothing: the player
    keeps its velocity and its rotation, and it is "idle", or it is in the
    state "action" and the callback due at [D] is pending. *)
Lemma ending_advance t r sid l D (vx vz rot : float) :
  players (state r) !! sid = Some l ->
  (exists q, heap r !! l = Some q /\
     Player.velocityX q = vx /\ Player.velocityZ q = vz /\ Player.rotation q = rot /\
     (Player.state q = "idle" \/
      Player.state q = "action" /\ mkTimer D l ∈ timers r)) ->
  exists q, heap (advance t r) !! l = Some q /\
     Player.velocityX q = vx /\ Player.velocityZ q = vz /\ Player.rotation q = rot /\
     (Player.state q = "idle" \/
      Player.state q = "action" /\ (t < D)%Z /\ mkTimer D l ∈ timers (advance t r)).
Proof.
  intros Hl (q & Hq & Hx & Hz & Hr & Hst).
  destruct (advance_quiet t r sid l q Hl Hq) as [_ Hh]. rewrite Hh.
  destruct Hst as [Hidle | [Hact Hin]].
  - exists q. rewrite revert_other by (rewrite Hidle; discriminate).
    split; [now destruct (bool_decide _)|]. auto.
  - destruct (Z.leb_spec D t) as [Hle | Hlt].
    + rewrite bool_decide_eq_true_2.
      * exists (revert q). split; [reflexivity|].
        unfold revert. rewrite Hact. simpl. auto.
      * apply list_elem_of_fmap. exists (mkTimer D l). split; [reflexivity|].
        apply list_elem_of_filter. split; [|exact Hin]. simpl. now apply Z.leb_le.
    + assert (Hin' : mkTimer D l ∈ timers (advance t r)).
      { rewrite timers_advance. apply list_elem_of_filter. split; [|exact Hin].
        simpl. now apply Z.leb_gt. }
      case_bool_decide.
      * exists (revert q). split; [reflexivity|].
        unfold revert. rewrite Hact. simpl. auto.
      * exists q. split; [reflexivity|]. auto 10.
Qed.

Lemma ending_serve sid l D (vx vz rot : float) later : forall r r1,
  wf r -> players (state r) !! sid = Some l ->
  (exists q, heap r !! l = Some q /\
     Player.velocityX q = vx /\ Player.velocityZ q = vz /\ Player.rotation q = rot /\
     (Player.state q = "idle" \/
      Player.state q = "action" /\ mkTimer D l ∈ timers r)) ->
  Forall (λ te, sender te.2 <> Some sid) later ->
  serve approx r later = Some r1 ->
  players (state r1) !! sid = Some l /\
  exists q, heap r1 !! l = Some q /\
     Player.velocityX q = vx /\ Player.velocityZ q = vz /\ Player.rotation q = rot /\
     (Player.state q = "idle" \/
      Player.state q = "action" /\ mkTimer D l ∈ timers r1).
Proof.
  induction later as [|[t e] later IH]; intros r r1 Hw Hl Hinv Hquiet Hserve.
  - injection Hserve as <-. auto.
  - apply Forall_cons in Hquiet as [He Hquiet]. simpl in He, Hserve.
    destruct (step approx (advance t r) e) as [r2|] eqn:Hstep; [|discriminate].
    simpl in Hserve.
    destruct (ending_advance t r sid l D vx vz rot Hl Hinv)
      as (q & Hq & Hx & Hz & Hr & Hst).
    assert (Hla : players (state (advance t r)) !! sid = Some l)
      by now rewrite state_advance.
    destruct (step_quiet (advance t r) e r2 sid l q (wf_advance t r Hw) Hla Hq He Hstep)
      as (Hl2 & Hq2 & _ & Htm).
    apply (IH r2 r1); try assumption.
    + exact (step_wf _ _ _ (wf_advance t r Hw) Hstep).
    + eexists. split; [exact Hq2|].
      assert (Hin : forall tm, tm ∈ timers (advance t r) -> tm ∈ timers r2).
      { intros tm Hin. destruct Htm as [-> | [l' ->]]; [exact Hin|].
        apply elem_of_app. now left. }
      destruct (is_tick e).
      * destruct (movePlayer_velocity q) as [Ex Ez]. rewrite Ex, Ez.
        assert (Es : Player.state (movePlayer q) = Player.state q
                     /\ Player.rotation (movePlayer q) = Player.rotation q).
        { unfold movePlayer. destruct (_ || _); split; reflexivity. }
        destruct Es as [Es Er]. rewrite Es, Er.
        split_and!; try assumption.
        destruct Hst as [? | (? & _ & ?)]; [now left | right; auto].
      * split_and!; try assumption.
        destruct Hst as [? | (? & _ & ?)]; [now left | right; auto].
Qed.

(** *** An action that lasts *)

(** As long as no callback is due by [T], the clock has reached [N], and the
    session sends nothing, a player in the state "action" stays in it. *)
Lemma lasting_serve sid l T N (vx vz rot : float) later : forall r r1,
  wf r -> players (state r) !! sid = Some l ->
  (exists q, heap r !! l = Some q /\
     Player.velocityX q = vx /\ Player.velocityZ q = vz /\ Player.rotation q = rot /\
     Player.state q = "action") ->
  Forall (λ tm, (T < due tm)%Z) (timers r) -> (N <= now r)%Z -> (T < N + 500)%Z ->
  Forall (λ te, sender te.2 <> Some sid /\ (te.1 <= T)%Z) later ->
  serve approx r later = Some r1 ->
  players (state r1) !! sid = Some l /\
  Forall (λ tm, (T < due tm)%Z) (timers r1) /\
  exists q, heap r1 !! l = Some q /\
     Player.velocityX q = vx /\ Player.velocityZ q = vz /\ Player.rotation q = rot /\
     Player.state q = "action".
Proof.
  induction later as [|[t e] later IH];
    intros r r1 Hw Hl (q & Hq & Hx & Hz & Hr & Hst) Htm Hnow HT Hquiet Hserve.
  - injection Hserve as <-. eauto 10.
  - apply Forall_cons in Hquiet as [[He Ht] Hquiet]. simpl in He, Ht, Hserve.
    destruct (step approx (advance t r) e) as [r2|] eqn:Hstep; [|discriminate].
    simpl in Hserve.
    destruct (advance_quiet t r sid l q Hl Hq) as [Hla Hqa].
    rewrite bool_decide_eq_false_2 in Hqa.
    2:{ intros Hin. apply list_elem_of_fmap in Hin as (tm & _ & Hin).
        apply list_elem_of_filter in Hin as [Hdue Hin]. apply Z.leb_le in Hdue.
        rewrite Forall_forall in Htm. specialize (Htm _ Hin). lia. }
    destruct (step_quiet (advance t r) e r2 sid l q (wf_advance t r Hw) Hla Hqa He Hstep)
      as (Hl2 & Hq2 & Hnow2 & Htm2).
    assert (Htma : Forall (λ tm, (T < due tm)%Z) (timers (advance t r))).
    { rewrite timers_advance. rewrite Forall_forall in Htm |- *.
      intros tm Hin. apply list_elem_of_filter in Hin as [_ Hin]. now apply Htm. }
    rewrite now_advance in Hnow2.
    apply (IH r2 r1); try assumption.
    + exact (step_wf _ _ _ (wf_advance t r Hw) Hstep).
    + eexists. split; [exact Hq2|].
      destruct (is_tick e); [|auto].
      destruct (movePlayer_velocity q) as [Ex Ez]. rewrite Ex, Ez.
      assert (Es : Player.state (movePlayer q) = Player.state q
                   /\ Player.rotation (movePlayer q) = Player.rotation q).
      { unfold movePlayer. destruct (_ || _); split; reflexivity. }
      destruct Es as [Es Er]. rewrite Es, Er. auto.
    + destruct Htm2 as [-> | [l' ->]]; [exact Htma|].
      apply Forall_app. split; [exact Htma|].
      apply Forall_singleton. cbn [due]. rewrite now_advance. lia.
    + lia.
Qed.

End ServerRuns.

(** ** The room: sessions, ticks, timers and the world *)

Section RoomExtras.

Import GameRoom.
Local Open Scope float_scope.

Implicit Types (approx : float -> float -> float) (r : Room) (sid : string).

(** A player at rest whose state is not "action" is left as it is by the
    ticks, the timers and the events of the other sessions. *)
Lemma quiet_run approx sid q later : forall r,
  wf r -> getPlayer r sid = Some q -> revert q = q -> movePlayer q = q ->
  Forall (λ te, sender te.2 <> Some sid) later ->
  getPlayer (run approx r later) sid = Some q.
Proof.
  induction later as [|[t e] later IH]; intros r Hw Hq Hrev Hmove Hquiet;
    [exact Hq|].
  apply Forall_cons in Hquiet as [He Hquiet]. simpl in He.
  rewrite run_cons. apply IH; try assumption.
  - apply wf_handle, wf_advance, Hw.
  - assert (Ha : getPlayer (advance t r) sid = Some q).
    { destruct (getPlayer_advance t r sid) as [-> | ->]; [exact Hq|].
      rewrite Hq. simpl. now rewrite Hrev. }
    destruct (is_tick e) eqn:Et.
    + destruct e; try discriminate. simpl.
      rewrite getPlayer_update by apply wf_advance, Hw.
      rewrite Ha. simpl. now rewrite Hmove.
    + rewrite getPlayer_handle_other; [exact Ha | apply wf_advance, Hw | exact He
                                       | exact Et].
Qed.

(** X1.  What one session does (joining, leaving, sending a message whose
    handler returns) changes no other session's player. *)
Theorem other_session_keeps_player approx objs trace e s sid r' :
  let r := run approx (create objs) trace in
  sender e = Some s -> s <> sid ->
  step approx r e = Some r' ->
  getPlayer r' sid = getPlayer r sid.
Proof.
  intros r Hs Hne Hstep. rewrite <- (step_handle approx r e r' Hstep).
  apply getPlayer_handle_other.
  - apply wf_run, wf_create.
  - rewrite Hs. congruence.
  - destruct e; try reflexivity; discriminate.
Qed.

Lemma other_session_keeps_player_witness :
  let approx : float -> float -> float := λ _ _, JS.PI_4 in
  let r := run approx (create ∅)
             [(0%Z, Join "a" None 0.5 0.5); (1%Z, Join "b" None 0.25 0.75)] in
  (sender (move "a" 3 4) = Some "a" /\ "a" <> "b") /\
  exists r', step approx r (move "a" 3 4) = Some r' /\
    getPlayer r' "b" = getPlayer r "b" /\
    Player.velocityX <$> getPlayer r' "a" = Some 3 /\
    Player.velocityX <$> getPlayer r' "b" = Some 0.
Proof.
  split; [split; [reflexivity | discriminate]|].
  eexists. split; [vm_compute; reflexivity|]. split.
  - exact (other_session_keeps_player (λ _ _, JS.PI_4) ∅
             [(0%Z, Join "a" None 0.5 0.5); (1%Z, Join "b" None 0.25 0.75)]
             (move "a" 3 4) "a" "b" _ eq_refl ltac:(discriminate) eq_refl).
  - split; vm_compute; reflexivity.
Defined.

(** X2.  [onJoin] gives the session a new player at rest: its id is the
    session id, its name is not empty (the given name when there is a
    non-empty one), it stands at the drawn spawn point with [y = 0], state
    "idle" and velocity zero, also when the session already had a player;
    the players of the other sessions are not touched. *)
Theorem onJoin_player approx objs trace sid n rx rz :
  let r := run approx (create objs) trace in
  let r' := handle approx r (Join sid n rx rz) in
  (exists p, getPlayer r' sid = Some p /\
     Player.id p = sid /\ Player.name p <> "" /\
     (forall s, n = Some s -> s <> "" -> Player.name p = s) /\
     Player.x p = (rx - 0.5) * WORLD_SIZE * 0.8 /\ Player.y p = 0 /\
     Player.z p = (rz - 0.5) * WORLD_SIZE * 0.8 /\
     Player.state p = "idle" /\ Player.velocityX p = 0 /\ Player.velocityZ p = 0) /\
  (forall sid', sid' <> sid -> getPlayer r' sid' = getPlayer r sid').
Proof.
  intros r r'. split.
  - eexists. split.
    + unfold r', getPlayer. simpl. rewrite lookup_insert_eq. simpl.
      apply lookup_insert_eq.
    + simpl. split_and!; try reflexivity.
      * apply joined_name_nonempty.
      * intros s -> Hs. apply String.eqb_neq in Hs. now rewrite Hs.
  - intros sid' Hne. apply getPlayer_onJoin_ne; [|exact Hne].
    apply wf_run, wf_create.
Qed.

(** X3.  [onLeave] removes the player of the session and no other, and the
    messages that the session sends afterwards, with or without a payload,
    are dropped without an error. *)
Theorem onLeave_drops_session approx r sid m :
  let r' := handle approx r (Leave sid) in
  getPlayer r' sid = None /\
  (forall sid', sid' <> sid -> getPlayer r' sid' = getPlayer r sid') /\
  onMessage approx r' sid m = Done r'.
Proof.
  intros r'. split_and!.
  - apply getPlayer_onLeave_eq.
  - intros sid' Hne. now apply getPlayer_onLeave_ne.
  - assert (Hl : players (state r') !! sid = None) by apply lookup_delete_eq.
    destruct m as [[d|]| |]; simpl; unfold onMove, onStop, onAction;
      now rewrite Hl.
Qed.

(** X4.  After a run, a session has a player exactly if it has joined and
    has not left since. *)
Theorem player_present_iff approx objs trace sid :
  is_Some (getPlayer (run approx (create objs) trace) sid)
  <-> present sid false trace = true.
Proof.
  rewrite wf_getPlayer_is_Some by apply wf_run, wf_create.
  rewrite players_run. simpl. rewrite lookup_empty.
  rewrite bool_decide_eq_false_2; [reflexivity|]. intros [? ?]. discriminate.
Qed.



(** X6.  The world time is driven by the ticks alone: after a run it is the
    initial time with [TICK_RATE / 1000] added once per tick, whatever the
    times at which the events arrive and whatever else happens. *)
Theorem worldTime_counts_ticks approx r trace :
  worldTime (state (run approx r trace))
  = Nat.iter (ticks trace) (λ w, w + deltaTime) (worldTime (state r)).
Proof.
  revert r. induction trace as [|[t e] trace IH]; intros r; [reflexivity|].
  rewrite run_cons, IH. unfold ticks. rewrite filter_cons. simpl.
  generalize (state_advance t r). generalize (advance t r). intros r1 Hs.
  destruct e as [s n rx rz|s|s m| |]; simpl.
  - now rewrite Hs.
  - now rewrite Hs.
  - destruct (onMessage approx r1 s m) as [r'|] eqn:E.
    + now rewrite (state_onMessage _ _ _ _ _ E), Hs.
    + now rewrite Hs.
  - rewrite Hs. symmetry. exact (Nat.iter_succ_r _ (λ w, w + deltaTime) _).
  - now rewrite Hs.
Qed.

(** X7.  No handler, tick or timer adds, removes or changes a world object:
    after any run [worldObjects] is what it was. *)
Theorem worldObjects_never_change approx r trace :
  worldObjects (state (run approx r trace)) = worldObjects (state r).
Proof.
  revert r. induction trace as [|[t e] trace IH]; intros r; [reflexivity|].
  rewrite run_cons, IH.
  generalize (state_advance t r). generalize (advance t r). intros r1 Hs.
  destruct e as [s n rx rz|s|s m| |]; simpl; try now rewrite Hs.
  destruct (onMessage approx r1 s m) as [r'|] eqn:E.
  - now rewrite (state_onMessage _ _ _ _ _ E), Hs.
  - now rewrite Hs.
Qed.

(** X8.  In every room that a run leads to, also before the first tick and
    after the events that are not ticks, the day phase is the one that the
    world time modulo 480 determines. *)
Theorem reachable_dayPhase approx objs trace :
  let r := run approx (create objs) trace in
  dayPhase (state r) = dayPhase_spec (JS.rem (worldTime (state r)) 480).
Proof.
  simpl. generalize (create objs) (eq_refl : dayPhase (state (create objs))
    = dayPhase_spec (JS.rem (worldTime (state (create objs))) 480)).
  induction trace as [|[t e] trace IH]; intros r Hr; [exact Hr|].
  rewrite run_cons. apply IH.
  generalize (state_advance t r). generalize (advance t r). intros r1 Hs.
  destruct e as [s n rx rz|s|s m| |]; simpl; try now rewrite Hs.
  - destruct (onMessage approx r1 s m) as [r'|] eqn:E.
    + now rewrite (state_onMessage _ _ _ _ _ E), Hs.
    + now rewrite Hs.
  - apply phaseOf_spec.
Qed.

(** X9.  A tick applies the movement step to every player exactly once:
    after any run, the player of a session after [update] is the player
    before with [x] and [z] advanced and clamped (and the same player if it
    is at rest). *)
Theorem tick_moves_each_player_once approx objs trace sid :
  let r := run approx (create objs) trace in
  getPlayer (update r) sid = movePlayer <$> getPlayer r sid.
Proof. simpl. apply getPlayer_update, wf_run, wf_create. Qed.

(** X10.  Once a session has sent "stop", its player stays as the handler
    left it (velocity zero, of the sign that the accessor left; state
    "idle"; same position and rotation) for as long as the server runs and
    nothing further comes from the session: through all ticks, timers and
    events of other sessions. *)
Theorem stopped_player_stays approx objs trace t later sid p r' :
  let r := run approx (create objs) trace in
  getPlayer r sid = Some p ->
  Forall (λ te, sender te.2 <> Some sid) later ->
  serve approx r ((t, Message sid Stop) :: later) = Some r' ->
  exists q, getPlayer r' sid = Some q /\ q = stopped p /\
    (Player.velocityX q =? 0) = true /\ (Player.velocityZ q =? 0) = true /\
    Player.state q = "idle" /\
    Player.x q = Player.x p /\ Player.z q = Player.z p /\
    Player.rotation q = Player.rotation p.
Proof.
  intros r Hp Hquiet Hserve. exists (stopped p).
  destruct (stopped_fields p) as (Hx & Hz & Hs & _ & _ & Ex & _ & Ez & Er & _).
  split; [|auto 10].
  rewrite <- (serve_run approx _ _ _ Hserve). rewrite run_cons.
  assert (Hw : wf (advance t r)) by apply wf_advance, wf_run, wf_create.
  apply quiet_run; try assumption.
  - exact (wf_handle approx _ (Message sid Stop) Hw).
  - assert (Ha : exists q, getPlayer (advance t r) sid = Some q /\ stopped q = stopped p).
    { destruct (getPlayer_advance t r sid) as [-> | ->]; rewrite Hp; simpl.
      - eauto.
      - eexists. split; [reflexivity|]. apply stopped_revert. }
    destruct Ha as (q & Hq & Hqp).
    destruct (getPlayer_Some _ _ _ Hq) as (l & Hl & Hh).
    simpl. unfold onStop. rewrite Hl.
    rewrite (getPlayer_alter_fmap (advance t r) sid l _ Hl), Hq. simpl.
    f_equal. exact Hqp.
  - apply revert_stopped.
  - apply movePlayer_stopped.
Qed.

Lemma stopped_player_stays_witness :
  let approx : float -> float -> float := λ _ _, JS.PI_4 in
  let trace := [(0%Z, Join "a" None 0.5 0.5); (0%Z, Join "b" None 0.25 0.75);
                (10%Z, move "a" 3 4); (20%Z, Tick)] in
  let later := [(40%Z, Tick); (50%Z, move "b" 1 0); (60%Z, Tick);
                (70%Z, Leave "b"); (80%Z, Tick)] in
  let r := run approx (create ∅) trace in
  exists p r', getPlayer r "a" = Some p /\
    Player.velocityX p = 3 /\
    Forall (λ te, sender te.2 <> Some "a") later /\
    serve approx r ((30%Z, Message "a" Stop) :: later) = Some r' /\
    exists q, getPlayer r' "a" = Some q /\ q = stopped p /\
      (Player.velocityX q =? 0) = true /\ (Player.velocityZ q =? 0) = true /\
      Player.state q = "idle" /\
      Player.x q = Player.x p /\ Player.z q = Player.z p /\
      Player.rotation q = Player.rotation p.
Proof.
  eexists. eexists. split; [vm_compute; reflexivity|]. split; [reflexivity|].
  assert (Hq : Forall (λ te : Z * event, sender te.2 <> Some "a")
                 [(40%Z, Tick); (50%Z, move "b" 1 0); (60%Z, Tick);
                  (70%Z, Leave "b"); (80%Z, Tick)])
    by (repeat constructor; discriminate).
  split; [exact Hq|].
  assert (Hs : serve (λ _ _, JS.PI_4)
                 (run (λ _ _, JS.PI_4) (create ∅)
                    [(0%Z, Join "a" None 0.5 0.5); (0%Z, Join "b" None 0.25 0.75);
                     (10%Z, move "a" 3 4); (20%Z, Tick)])
                 ((30%Z, Message "a" Stop)
                  :: [(40%Z, Tick); (50%Z, move "b" 1 0); (60%Z, Tick);
                      (70%Z, Leave "b"); (80%Z, Tick)])
               = Some _) by (vm_compute; reflexivity).
  split; [exact Hs|].
  exact (stopped_player_stays (λ _ _, JS.PI_4) ∅
           [(0%Z, Join "a" None 0.5 0.5); (0%Z, Join "b" None 0.25 0.75);
            (10%Z, move "a" 3 4); (20%Z, Tick)] 30%Z _ "a" _ _ eq_refl Hq Hs).
Defined.

(** X11.  While the advanced coordinates stay inside the world bounds the
    clamp of [update] changes nothing: the tick is the plain step
    [x += velocityX * deltaTime], [z += velocityZ * deltaTime]. *)
Theorem movePlayer_inside p :
  (abs (Player.x p + Player.velocityX p * deltaTime) <=? halfWorld) = true ->
  (abs (Player.z p + Player.velocityZ p * deltaTime) <=? halfWorld) = true ->
  movePlayer p = stepped p.
Proof.
  intros Hx Hz. rewrite movePlayer_clamp. unfold stepped.
  now rewrite (clamp_inside _ Hx), (clamp_inside _ Hz).
Qed.

Lemma movePlayer_inside_witness :
  let p := Player.set_velocityZ (-4) (Player.set_velocityX 3
             (Player.set_z (-24.5) (Player.set_x 10 Player.new))) in
  (abs (Player.x p + Player.velocityX p * deltaTime) <=? halfWorld) = true /\
  (abs (Player.z p + Player.velocityZ p * deltaTime) <=? halfWorld) = true /\
  movePlayer p = stepped p /\
  Player.x (movePlayer p) = 10.05 /\
  Player.z (movePlayer p) = -24.566666666666666.
Proof.
  split_and!.
  - reflexivity.
  - reflexivity.
  - exact (movePlayer_inside
             (Player.set_velocityZ (-4) (Player.set_velocityX 3
                (Player.set_z (-24.5) (Player.set_x 10 Player.new))))
             eq_refl eq_refl).
  - reflexivity.
  - reflexivity.
Defined.

(** X12.  A moving player whose advanced coordinate leaves the world is put
    on the border it crossed: [x] becomes [WORLD_SIZE / 2] above and
    [- WORLD_SIZE / 2] below, and likewise [z]. *)
Theorem movePlayer_saturates p :
  (JS.strict_neq (Player.velocityX p) 0 || JS.strict_neq (Player.velocityZ p) 0) = true ->
  let x1 := Player.x p + Player.velocityX p * deltaTime in
  let z1 := Player.z p + Player.velocityZ p * deltaTime in
  ((halfWorld <? x1) = true -> Player.x (movePlayer p) = halfWorld) /\
  ((x1 <? - halfWorld) = true -> Player.x (movePlayer p) = - halfWorld) /\
  ((halfWorld <? z1) = true -> Player.z (movePlayer p) = halfWorld) /\
  ((z1 <? - halfWorld) = true -> Player.z (movePlayer p) = - halfWorld).
Proof.
  intros Hm x1 z1. rewrite movePlayer_clamp, Hm. simpl.
  split_and!; intros H.
  - now apply clamp_above.
  - now apply clamp_below.
  - now apply clamp_above.
  - now apply clamp_below.
Qed.

Lemma movePlayer_saturates_witness :
  let p := Player.set_velocityZ (-4) (Player.set_velocityX 3
             (Player.set_z (-24.95) (Player.set_x 24.96 Player.new))) in
  (JS.strict_neq (Player.velocityX p) 0 || JS.strict_neq (Player.velocityZ p) 0) = true /\
  (halfWorld <? Player.x p + Player.velocityX p * deltaTime) = true /\
  (Player.z p + Player.velocityZ p * deltaTime <? - halfWorld) = true /\
  Player.x (movePlayer p) = halfWorld /\
  Player.z (movePlayer p) = - halfWorld.
Proof.
  pose proof (movePlayer_saturates
                (Player.set_velocityZ (-4) (Player.set_velocityX 3
                   (Player.set_z (-24.95) (Player.set_x 24.96 Player.new))))
                eq_refl) as (Hx & _ & _ & Hz).
  split_and!.
  - reflexivity.
  - reflexivity.
  - reflexivity.
  - exact (Hx eq_refl).
  - exact (Hz eq_refl).
Defined.

(** X13.  The callbacks of [setTimeout] do one thing only: a player that
    they change was in state "action" and is now in state "idle", with every
    other field as before; the room state (players, world objects, time,
    phase) is not touched. *)
Theorem timers_only_end_actions r sid p t :
  getPlayer r sid = Some p ->
  state (advance t r) = state r /\
  (getPlayer (advance t r) sid = Some p \/
   (Player.state p = "action" /\
    getPlayer (advance t r) sid = Some (Player.set_state "idle" p))).
Proof.
  intros Hp. split; [apply state_advance|].
  destruct (getPlayer_advance t r sid) as [-> | ->]; [now left|].
  rewrite Hp. simpl. destruct (revert_cases p) as [-> | [Ha ->]]; auto.
Qed.

Lemma timers_only_end_actions_witness :
  let approx : float -> float -> float := λ _ _, JS.PI_4 in
  let r := run approx (create ∅)
             [(0%Z, Join "a" None 0.5 0.5); (10%Z, move "a" 3 4);
              (20%Z, Message "a" Action)] in
  exists p, getPlayer r "a" = Some p /\
    state (advance 520 r) = state r /\
    (getPlayer (advance 520 r) "a" = Some p \/
     (Player.state p = "action" /\
      getPlayer (advance 520 r) "a" = Some (Player.set_state "idle" p))) /\
    Player.state <$> getPlayer (advance 520 r) "a" = Some "idle" /\
    Player.velocityX <$> getPlayer (advance 520 r) "a" = Some 3.
Proof.
  eexists. split; [vm_compute; reflexivity|].
  pose proof (timers_only_end_actions
                (run (λ _ _, JS.PI_4) (create ∅)
                   [(0%Z, Join "a" None 0.5 0.5); (10%Z, move "a" 3 4);
                    (20%Z, Message "a" Action)]) "a" _ 520%Z
                ltac:(vm_compute; reflexivity)) as [H1 H2].
  split_and!.
  - exact H1.
  - exact H2.
  - vm_compute. reflexivity.
  - vm_compute. reflexivity.
Defined.

(** The "action" handler on an existing player. *)
Lemma onAction_existing approx r sid l p :
  players (state r) !! sid = Some l -> heap r !! l = Some p ->
  exists r1,
    step approx r (Message sid Action) = Some r1 /\
    state r1 = state r /\ now r1 = now r /\
    timers r1 = timers r ++ [mkTimer (now r + 500)%Z l] /\
    heap r1 !! l = Some (Player.set_state "action" p).
Proof.
  intros Hl Hh. eexists. simpl. unfold onAction. rewrite Hl.
  split; [reflexivity|]. simpl. split_and!; try reflexivity.
  now rewrite lookup_alter_eq, Hh.
Qed.

Lemma revert_frame p :
  Player.velocityX (revert p) = Player.velocityX p /\
  Player.velocityZ (revert p) = Player.velocityZ p /\
  Player.rotation (revert p) = Player.rotation p.
Proof. unfold revert. destruct (String.eqb _ _); split_and!; reflexivity. Qed.

(** X14.  An action ends.  Let a session that has a player send "action"
    at the time [t0], and let nothing further come from it (no message, no
    leave, no second join).  Whatever else the server processes (ticks,
    timers, joins, leaves and messages of other sessions), at every time [t]
    that is 500 ms or more after the action the player of the session is
    "idle", with the velocity and the rotation it had before the action (so
    a player that was walking goes on moving while "idle").  The handler
    reads the clock when it runs: [Z.max (now r) t0], which is [t0] in a
    trace whose times do not go backwards. *)
Theorem action_ends_after_500ms approx objs trace t0 later t sid p r1 :
  let r := run approx (create objs) trace in
  getPlayer r sid = Some p ->
  Forall (λ te, sender te.2 <> Some sid) later ->
  serve approx r ((t0, Message sid Action) :: later) = Some r1 ->
  (Z.max (now r) t0 + 500 <= t)%Z ->
  exists q, getPlayer (advance t r1) sid = Some q /\
    Player.state q = "idle" /\
    Player.velocityX q = Player.velocityX p /\
    Player.velocityZ q = Player.velocityZ p /\
    Player.rotation q = Player.rotation p.
Proof.
  intros r Hp Hquiet Hserve Ht.
  assert (Hw : wf r) by apply wf_run, wf_create.
  apply getPlayer_Some in Hp as (l & Hl & Hh).
  destruct (advance_quiet t0 r sid l p Hl Hh) as [Hla Hqa].
  destruct (onAction_existing approx (advance t0 r) sid l _ Hla Hqa)
    as (ra & Hstep & Hsa & _ & Htm & Hha).
  change (serve approx r ((t0, Message sid Action) :: later))
    with (step approx (advance t0 r) (Message sid Action)
            ≫= λ r', serve approx r' later) in Hserve.
  rewrite Hstep in Hserve. simpl in Hserve.
  assert (Hlra : players (state ra) !! sid = Some l) by now rewrite Hsa.
  destruct (ending_serve approx sid l (Z.max (now r) t0 + 500)
              (Player.velocityX p) (Player.velocityZ p) (Player.rotation p)
              later ra r1) as (Hl1 & Hinv); try assumption.
  - exact (step_wf approx _ _ _ (wf_advance t0 r Hw) Hstep).
  - eexists. split; [exact Hha|].
    destruct (revert_frame p) as (Ex & Ez & Er).
    split_and!; try (destruct (bool_decide _); simpl; congruence).
    right. split; [reflexivity|]. rewrite Htm. apply elem_of_app. right.
    rewrite now_advance. now left.
  - destruct (ending_advance t r1 sid l _ _ _ _ Hl1 Hinv)
      as (q & Hq & Hx & Hz & Hr & Hst).
    exists q. rewrite (getPlayer_ref (advance t r1) sid l) by now rewrite state_advance.
    split; [exact Hq|]. split_and!; try assumption.
    destruct Hst as [Hidle | (_ & Hlt & _)]; [exact Hidle | lia].
Qed.

Lemma action_ends_after_500ms_witness :
  let approx : float -> float -> float := λ _ _, JS.PI_4 in
  let trace := [(0%Z, Join "a" None 0.5 0.5); (0%Z, Join "b" None 0.25 0.75);
                (10%Z, move "a" 3 4)] in
  let later := [(40%Z, Tick); (100%Z, move "b" 1 0); (300%Z, Message "b" Action);
                (400%Z, Tick)] in
  let r := run approx (create ∅) trace in
  exists p r1, getPlayer r "a" = Some p /\
    (Player.velocityX p = 3 /\ Player.state p = "walking") /\
    Forall (λ te, sender te.2 <> Some "a") later /\
    serve approx r ((20%Z, Message "a" Action) :: later) = Some r1 /\
    (Z.max (now r) 20 + 500 <= 520)%Z /\
    Player.state <$> getPlayer r1 "a" = Some "action" /\
    exists q, getPlayer (advance 520 r1) "a" = Some q /\
      Player.state q = "idle" /\
      Player.velocityX q = Player.velocityX p /\
      Player.velocityZ q = Player.velocityZ p /\
      Player.rotation q = Player.rotation p.
Proof.
  eexists. eexists. split; [vm_compute; reflexivity|].
  split; [split; reflexivity|].
  assert (Hq : Forall (λ te : Z * event, sender te.2 <> Some "a")
                 [(40%Z, Tick); (100%Z, move "b" 1 0); (300%Z, Message "b" Action);
                  (400%Z, Tick)])
    by (repeat constructor; discriminate).
  split; [exact Hq|].
  assert (Hs : serve (λ _ _, JS.PI_4)
                 (run (λ _ _, JS.PI_4) (create ∅)
                    [(0%Z, Join "a" None 0.5 0.5); (0%Z, Join "b" None 0.25 0.75);
                     (10%Z, move "a" 3 4)])
                 ((20%Z, Message "a" Action)
                  :: [(40%Z, Tick); (100%Z, move "b" 1 0);
                      (300%Z, Message "b" Action); (400%Z, Tick)])
               = Some _) by (vm_compute; reflexivity).
  split; [exact Hs|].
  assert (Ht : (Z.max (now (run (λ _ _, JS.PI_4) (create ∅)
                       [(0%Z, Join "a" None 0.5 0.5); (0%Z, Join "b" None 0.25 0.75);
                        (10%Z, move "a" 3 4)])) 20 + 500 <= 520)%Z)
    by (vm_compute; discriminate).
  split; [exact Ht|]. split; [vm_compute; reflexivity|].
  exact (action_ends_after_500ms (λ _ _, JS.PI_4) ∅
           [(0%Z, Join "a" None 0.5 0.5); (0%Z, Join "b" None 0.25 0.75);
            (10%Z, move "a" 3 4)] 20%Z _ 520%Z "a" _ _ eq_refl Hq Hs Ht).
Defined.

(** X15.  An action lasts.  Let a session that has a player send "action"
    at the time [t0], let nothing further come from it, and let [T] be a
    time less than 500 ms after the action by which none of the callbacks
    that were pending at the action is due.  Whatever else the server
    processes up to [T] (ticks, joins, leaves and messages of other
    sessions), the player of the session is in the state "action" at [T],
    with the velocity and the rotation it had. *)
Theorem action_lasts_500ms approx objs trace t0 later T sid p r1 :
  let r := run approx (create objs) trace in
  getPlayer r sid = Some p ->
  Forall (λ tm, (T < due tm)%Z) (timers r) ->
  (t0 <= T)%Z -> (T < Z.max (now r) t0 + 500)%Z ->
  Forall (λ te, sender te.2 <> Some sid /\ (te.1 <= T)%Z) later ->
  serve approx r ((t0, Message sid Action) :: later) = Some r1 ->
  exists q, getPlayer (advance T r1) sid = Some q /\
    Player.state q = "action" /\
    Player.velocityX q = Player.velocityX p /\
    Player.velocityZ q = Player.velocityZ p /\
    Player.rotation q = Player.rotation p.
Proof.
  intros r Hp Hpending Ht0 HT Hquiet Hserve.
  assert (Hw : wf r) by apply wf_run, wf_create.
  apply getPlayer_Some in Hp as (l & Hl & Hh).
  assert (Hnone : forall t' r', (t' <= T)%Z ->
            Forall (λ tm, (T < due tm)%Z) (timers r') ->
            bool_decide (l ∈ target <$> filter (λ tm, (due tm <=? t')%Z = true) (timers r'))
            = false).
  { intros t' r' Ht' Hp'. apply bool_decide_eq_false_2. intros Hin.
    apply list_elem_of_fmap in Hin as (tm & _ & Hin).
    apply list_elem_of_filter in Hin as [Hdue Hin]. apply Z.leb_le in Hdue.
    rewrite Forall_forall in Hp'. specialize (Hp' _ Hin). lia. }
  destruct (advance_quiet t0 r sid l p Hl Hh) as [Hla Hqa].
  rewrite (Hnone t0 r Ht0 Hpending) in Hqa.
  destruct (onAction_existing approx (advance t0 r) sid l _ Hla Hqa)
    as (ra & Hstep & Hsa & Hnow & Htm & Hha).
  change (serve approx r ((t0, Message sid Action) :: later))
    with (step approx (advance t0 r) (Message sid Action)
            ≫= λ r', serve approx r' later) in Hserve.
  rewrite Hstep in Hserve. simpl in Hserve.
  assert (Hlra : players (state ra) !! sid = Some l) by now rewrite Hsa.
  rewrite now_advance in Hnow, Htm.
  destruct (lasting_serve approx sid l T (Z.max (now r) t0)
              (Player.velocityX p) (Player.velocityZ p) (Player.rotation p)
              later ra r1) as (Hl1 & Htm1 & q & Hq & Hx & Hz & Hr & Hst);
    try assumption.
  - exact (step_wf approx _ _ _ (wf_advance t0 r Hw) Hstep).
  - eexists. split; [exact Hha|]. split_and!; reflexivity.
  - rewrite Htm. apply Forall_app. split.
    + rewrite timers_advance. rewrite Forall_forall in Hpending |- *.
      intros tm Hin. apply list_elem_of_filter in Hin as [_ Hin]. now apply Hpending.
    + apply Forall_singleton. exact HT.
  - lia.
  - exists q. destruct (advance_quiet T r1 sid l q Hl1 Hq) as [Hl1' Hq'].
    rewrite (Hnone T r1 (Z.le_refl T) Htm1) in Hq'.
    rewrite (getPlayer_ref (advance T r1) sid l Hl1'). auto.
Qed.

Lemma action_lasts_500ms_witness :
  let approx : float -> float -> float := λ _ _, JS.PI_4 in
  let trace := [(0%Z, Join "a" None 0.5 0.5); (0%Z, Join "b" None 0.25 0.75);
                (10%Z, move "a" 3 4)] in
  let later := [(40%Z, Tick); (100%Z, move "b" 1 0); (300%Z, Message "b" Action);
                (400%Z, Tick)] in
  let r := run approx (create ∅) trace in
  exists p r1, getPlayer r "a" = Some p /\
    (Player.velocityX p = 3 /\ Player.state p = "walking") /\
    Forall (λ tm, (519 < due tm)%Z) (timers r) /\
    (20 <= 519)%Z /\ (519 < Z.max (now r) 20 + 500)%Z /\
    Forall (λ te, sender te.2 <> Some "a" /\ (te.1 <= 519)%Z) later /\
    serve approx r ((20%Z, Message "a" Action) :: later) = Some r1 /\
    exists q, getPlayer (advance 519 r1) "a" = Some q /\
      Player.state q = "action" /\
      Player.velocityX q = Player.velocityX p /\
      Player.velocityZ q = Player.velocityZ p /\
      Player.rotation q = Player.rotation p.
Proof.
  eexists. eexists. split; [vm_compute; reflexivity|].
  split; [split; reflexivity|].
  assert (Hf : Forall (λ tm, (519 < due tm)%Z)
                 (timers (run (λ _ _, JS.PI_4) (create ∅)
                            [(0%Z, Join "a" None 0.5 0.5);
                             (0%Z, Join "b" None 0.25 0.75); (10%Z, move "a" 3 4)])))
    by constructor.
  split; [exact Hf|].
  assert (H0 : (20 <= 519)%Z) by discriminate.
  split; [exact H0|].
  assert (HT : (519 < Z.max (now (run (λ _ _, JS.PI_4) (create ∅)
                       [(0%Z, Join "a" None 0.5 0.5); (0%Z, Join "b" None 0.25 0.75);
                        (10%Z, move "a" 3 4)])) 20 + 500)%Z) by reflexivity.
  split; [exact HT|].
  assert (Hq : Forall (λ te : Z * event, sender te.2 <> Some "a" /\ (te.1 <= 519)%Z)
                 [(40%Z, Tick); (100%Z, move "b" 1 0); (300%Z, Message "b" Action);
                  (400%Z, Tick)])
    by (repeat constructor; discriminate).
  split; [exact Hq|].
  assert (Hs : serve (λ _ _, JS.PI_4)
                 (run (λ _ _, JS.PI_4) (create ∅)
                    [(0%Z, Join "a" None 0.5 0.5); (0%Z, Join "b" None 0.25 0.75);
                     (10%Z, move "a" 3 4)])
                 ((20%Z, Message "a" Action)
                  :: [(40%Z, Tick); (100%Z, move "b" 1 0);
                      (300%Z, Message "b" Action); (400%Z, Tick)])
               = Some _) by (vm_compute; reflexivity).
  split; [exact Hs|].
  exact (action_lasts_500ms (λ _ _, JS.PI_4) ∅
           [(0%Z, Join "a" None 0.5 0.5); (0%Z, Join "b" None 0.25 0.75);
            (10%Z, move "a" 3 4)] 20%Z _ 519%Z "a" _ _ eq_refl Hf H0 HT Hq Hs).
Defined.

(** X16.  Whatever [Math.random()] returns, [generateWorld] makes 95 objects
    with 95 different ids: 30 trees, 15 rocks, 40 tufts of grass and 10 berry
    bushes, each stored under its own id, on the ground ([y = 0]) and
    interactable. *)
Theorem generateWorld_census (random : nat -> float) :
  let w := generateWorld random in
  size w = 95%nat /\
  length (objectsOfType "tree" w) = 30%nat /\
  length (objectsOfType "rock" w) = 15%nat /\
  length (objectsOfType "grass" w) = 40%nat /\
  length (objectsOfType "berry_bush" w) = 10%nat /\
  map_Forall (λ k o, WorldObject.id o = k /\ WorldObject.y o = 0 /\
                     WorldObject.interactable o = true) w.
Proof.
  intros w. split_and!; try (vm_compute; reflexivity).
  apply map_Forall_to_list. subst w.
  let l := eval vm_compute in (map_to_list (generateWorld random)) in
  assert (H : map_to_list (generateWorld random) = l) by (vm_compute; reflexivity).
  rewrite H. repeat (constructor; [split_and!; reflexivity|]). constructor.
Qed.

(** X17.  The objects take the random numbers in the order of creation, three
    each: the [i]-th tree is placed with the draws [3i], [3i+1] (position) and
    [3i+2] (rotation), and the rocks, the grass and the bushes go on from
    draw 90, 135 and 255. *)
Theorem generateWorld_draws (random : nat -> float) :
  let w := generateWorld random in
  let made prefix type (first i : nat) :=
    w !! (prefix +:+ pretty i)
    = Some (WorldObject.mk (prefix +:+ pretty i) type
              ((random (first + 3 * i)%nat - 0.5) * WORLD_SIZE * 0.9) 0
              ((random (first + 3 * i + 1)%nat - 0.5) * WORLD_SIZE * 0.9)
              (random (first + 3 * i + 2)%nat * JS.PI * 2) true) in
  Forall (made "tree_" "tree" 0%nat) (seq 0 30) /\
  Forall (made "rock_" "rock" 90%nat) (seq 0 15) /\
  Forall (made "grass_" "grass" 135%nat) (seq 0 40) /\
  Forall (made "bush_" "berry_bush" 255%nat) (seq 0 10).
Proof.
  intros w made. subst w made. cbv beta.
  split_and!; repeat (constructor; [vm_compute; reflexivity|]); constructor.
Qed.

End RoomExtras.

(** ** The order and the content of the notifications *)

Section ClientOrder.

Import NetworkManager.
Implicit Types (tr cur : list string) (k : string) (nm : NetworkManager.t).

Lemma filter_invoke (f : call -> bool) b c :
  filter (λ c, f c = true) (invoke b c) = if b && f c then [c] else [].
Proof.
  destruct b; simpl; [|reflexivity]. rewrite filter_cons, filter_nil.
  case_decide as H; destruct (f c); simpl; congruence.
Qed.

Lemma forEachPlayer_app nm a b : forall tr cur,
  forEachPlayer nm (a ++ b) tr cur =
    let r1 := forEachPlayer nm a tr cur in
    let r2 := forEachPlayer nm b r1.1.1 r1.1.2 in
    (r2.1, r1.2 ++ r2.2).
Proof.
  induction a as [|[sid p] a IH]; intros tr cur; simpl.
  - now destruct (forEachPlayer nm b tr cur) as [[? ?] ?].
  - destruct (negb (Set_has tr sid)); rewrite IH; simpl;
      destruct (forEachPlayer nm a _ _) as [[tr1 cur1] c1]; simpl;
      destruct (forEachPlayer nm b tr1 cur1) as [[tr2 cur2] c2]; simpl;
      now rewrite <- ?app_assoc.
Qed.

Lemma forEachPlayer_updates nm ps : forall tr cur,
  hasOnPlayerUpdate nm = true ->
  filter (λ c, is_update c = true) (forEachPlayer nm ps tr cur).2
  = (λ kp, onPlayerUpdate kp.1 (updateData kp.2)) <$> ps.
Proof.
  induction ps as [|[sid p] rest IH]; intros tr cur Hu; simpl; [reflexivity|].
  destruct (negb (Set_has tr sid)).
  - specialize (IH (Set_add tr sid) (Set_add cur sid) Hu).
    destruct (forEachPlayer nm rest _ _) as [[tr1 cur1] c1]. simpl in *.
    rewrite !filter_app, !filter_invoke, Hu, andb_false_r, IH. reflexivity.
  - specialize (IH tr (Set_add cur sid) Hu).
    destruct (forEachPlayer nm rest _ _) as [[tr1 cur1] c1]. simpl in *.
    rewrite !filter_app, !filter_invoke, Hu, IH. reflexivity.
Qed.

Lemma Forall_invoke (P : call -> Prop) b c : P c -> Forall P (invoke b c).
Proof. destruct b; simpl; auto. Qed.

Lemma forEachPlayer_stage nm ps : forall tr cur,
  Forall (λ c, stage c = 0) (forEachPlayer nm ps tr cur).2.
Proof.
  induction ps as [|[sid p] rest IH]; intros tr cur; simpl; [constructor|].
  destruct (negb (Set_has tr sid));
    match goal with |- context [forEachPlayer nm rest ?a ?b] =>
      specialize (IH a b); destruct (forEachPlayer nm rest a b) as [[tr1 cur1] c1]
    end; simpl in *; rewrite ?Forall_app; split_and?; auto using Forall_invoke.
Qed.

Lemma forOfTracked_stage nm ids : forall cur tr,
  Forall (λ c, stage c = 1) (forOfTracked nm ids cur tr).2.
Proof.
  induction ids as [|sid rest IH]; intros cur tr; simpl; [constructor|].
  destruct (negb (Set_has cur sid));
    match goal with |- context [forOfTracked nm rest ?a ?b] =>
      specialize (IH a b); destruct (forOfTracked nm rest a b) as [tr1 c1]
    end; simpl in *; rewrite ?Forall_app; split_and?; auto using Forall_invoke.
Qed.

Lemma forEachObject_stage nm os : forall tr,
  Forall (λ c, stage c = 2) (forEachObject nm os tr).2.
Proof.
  induction os as [|[id o] rest IH]; intros tr; simpl; [constructor|].
  destruct (negb (Set_has tr id));
    match goal with |- context [forEachObject nm rest ?a] =>
      specialize (IH a); destruct (forEachObject nm rest a) as [tr1 c1]
    end; simpl in *; rewrite ?Forall_app; split_and?; auto using Forall_invoke.
Qed.

Lemma filter_stage_nil (f : call -> bool) n (calls : list call) :
  (forall c, f c = true -> stage c <> n) ->
  Forall (λ c, stage c = n) calls -> filter (λ c, f c = true) calls = [].
Proof.
  intros Hf H. induction H as [|c calls Hc _ IH]; [reflexivity|].
  rewrite filter_cons, IH. case_decide as E; [|reflexivity].
  exfalso. exact (Hf c E Hc).
Qed.

Lemma StronglySorted_app_stage (a b : list nat) n :
  StronglySorted le a -> StronglySorted le b ->
  Forall (λ x, x <= n) a -> Forall (λ x, n <= x) b ->
  StronglySorted le (a ++ b).
Proof.
  intros Ha Hb Hla Hlb. induction Ha as [|x a Ha IH Hx]; [exact Hb|].
  apply Forall_cons in Hla as [Hxn Hla]. simpl. constructor; [now apply IH|].
  apply Forall_app. split; [exact Hx|].
  eapply Forall_impl; [exact Hlb|]. simpl. intros y Hy. lia.
Qed.

Lemma StronglySorted_const (l : list nat) n :
  Forall (λ x, x = n) l -> StronglySorted le l.
Proof.
  induction 1 as [|x l -> H IH]; constructor; [exact IH|].
  eapply Forall_impl; [exact H|]. simpl. intros y ->. lia.
Qed.

Lemma forEachPlayer_tracking nm nm' ps : forall tr cur,
  (forEachPlayer nm ps tr cur).1 = (forEachPlayer nm' ps tr cur).1.
Proof.
  induction ps as [|[sid p] rest IH]; intros tr cur; simpl; [reflexivity|].
  destruct (negb (Set_has tr sid));
    match goal with |- context [forEachPlayer nm rest ?a ?b] =>
      specialize (IH a b); destruct (forEachPlayer nm rest a b) as [[? ?] ?],
        (forEachPlayer nm' rest a b) as [[? ?] ?]
    end; exact IH.
Qed.

Lemma forOfTracked_tracking nm nm' ids : forall cur tr,
  (forOfTracked nm ids cur tr).1 = (forOfTracked nm' ids cur tr).1.
Proof.
  induction ids as [|sid rest IH]; intros cur tr; simpl; [reflexivity|].
  destruct (negb (Set_has cur sid));
    match goal with |- context [forOfTracked nm rest ?a ?b] =>
      specialize (IH a b); destruct (forOfTracked nm rest a b) as [? ?],
        (forOfTracked nm' rest a b) as [? ?]
    end; exact IH.
Qed.

Lemma forEachObject_tracking nm nm' os : forall tr,
  (forEachObject nm os tr).1 = (forEachObject nm' os tr).1.
Proof.
  induction os as [|[id o] rest IH]; intros tr; simpl; [reflexivity|].
  destruct (negb (Set_has tr id));
    match goal with |- context [forEachObject nm rest ?a] =>
      specialize (IH a); destruct (forEachObject nm rest a) as [? ?],
        (forEachObject nm' rest a) as [? ?]
    end; exact IH.
Qed.

Lemma processState_calls nm sn :
  (processState nm sn).2 =
    let r1 := forEachPlayer nm (players sn) (trackedPlayers nm) [] in
    let r2 := forOfTracked nm r1.1.1 r1.1.2 r1.1.1 in
    let r3 := forEachObject nm (worldObjects sn) (trackedObjects nm) in
    r1.2 ++ r2.2 ++ r3.2
    ++ invoke (hasOnStateChange nm) (onStateChange (worldTime sn) (dayPhase sn)).
Proof.
  unfold processState.
  destruct (forEachPlayer nm (players sn) (trackedPlayers nm) []) as [[tr1 cur] c1].
  simpl. destruct (forOfTracked nm tr1 cur tr1) as [tr2 c2].
  destruct (forEachObject nm (worldObjects sn) (trackedObjects nm)) as [objs c3].
  reflexivity.
Qed.

(** X18.  Every snapshot is passed on in full: [processState] calls
    [onPlayerUpdate] once for each player of the snapshot, in the order of
    the snapshot and with that player's values, whether the player is new or
    not. *)
Theorem processState_updates nm sn :
  hasOnPlayerUpdate nm = true ->
  filter (λ c, is_update c = true) (processState nm sn).2
  = (λ kp, onPlayerUpdate kp.1 (updateData kp.2)) <$> players sn.
Proof.
  intros Hu. rewrite processState_calls. simpl.
  rewrite !filter_app, forEachPlayer_updates by exact Hu.
  assert (H1 : forall c, is_update c = true -> stage c <> 1)
    by (intros []; simpl; congruence).
  assert (H2 : forall c, is_update c = true -> stage c <> 2)
    by (intros []; simpl; congruence).
  rewrite (filter_stage_nil is_update 1 _ H1 (forOfTracked_stage _ _ _ _)),
    (filter_stage_nil is_update 2 _ H2 (forEachObject_stage _ _ _)),
    filter_invoke, andb_false_r, !app_nil_r.
  reflexivity.
Qed.

Lemma processState_updates_witness :
  let a := Player.set_x 3 (Player.set_id "a" Player.new) in
  let b := Player.set_state "walking" (Player.set_id "b" Player.new) in
  let sn := mkSnapshot [("a", a); ("b", b)] [] 0 "day" in
  let nm := (processState new (mkSnapshot [("a", a)] [] 0 "day")).1 in
  hasOnPlayerUpdate nm = true /\
  filter (λ c, is_update c = true) (processState nm sn).2
  = [onPlayerUpdate "a" (updateData a); onPlayerUpdate "b" (updateData b)] /\
  (processState nm sn).2
  = [onPlayerUpdate "a" (updateData a); onPlayerJoin "b" (joinData b);
     onPlayerUpdate "b" (updateData b); onStateChange 0 "day"].
Proof.
  split_and!.
  - reflexivity.
  - exact (processState_updates
             (processState new
                (mkSnapshot [("a", Player.set_x 3 (Player.set_id "a" Player.new))]
                   [] 0 "day")).1
             (mkSnapshot
                [("a", Player.set_x 3 (Player.set_id "a" Player.new));
                 ("b", Player.set_state "walking" (Player.set_id "b" Player.new))]
                [] 0 "day") eq_refl).
  - vm_compute. reflexivity.
Defined.

(** X19.  The notifications of one snapshot come in four stages that never
    interleave: first the joins and updates of the players present, then the
    departures, then the new world objects, and the state change last. *)
Theorem processState_in_stages nm sn :
  StronglySorted le (stage <$> (processState nm sn).2).
Proof.
  rewrite processState_calls. simpl. rewrite !fmap_app.
  pose proof (forEachPlayer_stage nm (players sn) (trackedPlayers nm) []) as H0.
  set (r1 := forEachPlayer nm (players sn) (trackedPlayers nm) []) in *.
  pose proof (forOfTracked_stage nm r1.1.1 r1.1.2 r1.1.1) as H1.
  pose proof (forEachObject_stage nm (worldObjects sn) (trackedObjects nm)) as H2.
  assert (H3 : Forall (λ c, stage c = 3)
                 (invoke (hasOnStateChange nm)
                    (onStateChange (worldTime sn) (dayPhase sn))))
    by now apply Forall_invoke.
  assert (Hmap : forall n (l : list call),
            Forall (λ c, stage c = n) l -> Forall (λ x, x = n) (stage <$> l)).
  { intros n l H. apply Forall_fmap. exact H. }
  apply Hmap in H0, H1, H2, H3.
  apply (StronglySorted_app_stage _ _ 0); [eauto using StronglySorted_const| |
    eapply Forall_impl; [exact H0|]; simpl; lia |
    rewrite !Forall_app; split_and!; (eapply Forall_impl; [eassumption|]); simpl; lia].
  apply (StronglySorted_app_stage _ _ 1); [eauto using StronglySorted_const| |
    eapply Forall_impl; [exact H1|]; simpl; lia |
    rewrite !Forall_app; split_and!; (eapply Forall_impl; [eassumption|]); simpl; lia].
  apply (StronglySorted_app_stage _ _ 2); [eauto using StronglySorted_const| |
    eapply Forall_impl; [exact H2|]; simpl; lia |
    eapply Forall_impl; [exact H3|]; simpl; lia].
  eauto using StronglySorted_const.
Qed.

(** X20.  Which callbacks are registered has no influence on the tracking:
    two managers that track the same players and objects track the same
    players and objects after a snapshot, whatever callbacks each has. *)
Theorem tracking_ignores_callbacks nm nm' sn :
  trackedPlayers nm = trackedPlayers nm' -> trackedObjects nm = trackedObjects nm' ->
  trackedPlayers (processState nm sn).1 = trackedPlayers (processState nm' sn).1 /\
  trackedObjects (processState nm sn).1 = trackedObjects (processState nm' sn).1.
Proof.
  intros Hp Ho. unfold processState. rewrite <- Hp, <- Ho.
  pose proof (forEachPlayer_tracking nm nm' (players sn) (trackedPlayers nm) []) as E1.
  destruct (forEachPlayer nm (players sn) (trackedPlayers nm) []) as [[tr1 cur] c1],
    (forEachPlayer nm' (players sn) (trackedPlayers nm) []) as [[tr1' cur'] c1'].
  simpl in E1. injection E1 as <- <-.
  pose proof (forOfTracked_tracking nm nm' tr1 cur tr1) as E2.
  destruct (forOfTracked nm tr1 cur tr1) as [tr2 c2],
    (forOfTracked nm' tr1 cur tr1) as [tr2' c2'].
  simpl in E2. subst tr2'.
  pose proof (forEachObject_tracking nm nm' (worldObjects sn) (trackedObjects nm)) as E3.
  destruct (forEachObject nm (worldObjects sn) (trackedObjects nm)) as [o3 c3],
    (forEachObject nm' (worldObjects sn) (trackedObjects nm)) as [o3' c3'].
  simpl in E3. subst o3'. split; reflexivity.
Qed.

Lemma tracking_ignores_callbacks_witness :
  let deaf := mk [] [] false false false false false in
  let tree := WorldObject.mk "tree_0" "tree" 1 0 2 0 true in
  let sn := mkSnapshot [("a", Player.set_id "a" Player.new)] [("tree_0", tree)] 0 "day" in
  (trackedPlayers new = trackedPlayers deaf /\ trackedObjects new = trackedObjects deaf) /\
  (trackedPlayers (processState new sn).1 = trackedPlayers (processState deaf sn).1 /\
   trackedObjects (processState new sn).1 = trackedObjects (processState deaf sn).1) /\
  (processState deaf sn).2 = [] /\
  trackedPlayers (processState deaf sn).1 = ["a"].
Proof.
  split; [split; reflexivity|]. split; [|split; reflexivity].
  exact (tracking_ignores_callbacks new
           (mk [] [] false false false false false)
           (mkSnapshot [("a", Player.set_id "a" Player.new)]
              [("tree_0", WorldObject.mk "tree_0" "tree" 1 0 2 0 true)] 0 "day")
           eq_refl eq_refl).
Defined.

(** X21.  A snapshot that comes in a second time announces nothing: no
    arrival, no departure and no new world object, only the updates and the
    state change. *)
Theorem processState_again_is_silent nm sn k :
  ready nm ->
  let nm1 := (processState nm sn).1 in
  let again := (processState nm1 sn).2 in
  count (is_player_arrival k) again = 0 /\
  count (is_departure k) again = 0 /\
  count (is_object_arrival k) again = 0 /\
  (forall x, x ∈ trackedPlayers (processState nm1 sn).1 <-> x ∈ trackedPlayers nm1).
Proof.
  intros Hr nm1 again.
  destruct (processState_spec nm sn Hr) as (_ & _ & _ & T1 & O1 & Hr1).
  fold nm1 in T1, O1, Hr1.
  destruct (processState_spec nm1 sn Hr1) as (A & D & O & T2 & _ & _).
  fold again in A, D, O. split_and!.
  - rewrite A. unfold ind. case_decide as H; [|reflexivity].
    exfalso. destruct H as [H1 H2]. apply H2, T1, H1.
  - rewrite D. unfold ind. case_decide as H; [|reflexivity].
    exfalso. destruct H as [H1 H2]. apply H2, T1, H1.
  - rewrite O. unfold ind. case_decide as H; [|reflexivity].
    exfalso. destruct H as [H1 H2]. apply H2, O1. now right.
  - intros x. rewrite T2, T1. reflexivity.
Qed.

Lemma processState_again_is_silent_witness :
  let tree := WorldObject.mk "tree_0" "tree" 1 0 2 0 true in
  let sn := mkSnapshot [("a", Player.set_id "a" Player.new)] [("tree_0", tree)] 0 "day" in
  ready new /\
  (count (is_player_arrival "a") (processState new sn).2 = 1 /\
   count (is_object_arrival "tree_0") (processState new sn).2 = 1) /\
  count (is_player_arrival "a") (processState (processState new sn).1 sn).2 = 0 /\
  count (is_object_arrival "tree_0") (processState (processState new sn).1 sn).2 = 0.
Proof.
  split; [apply ready_new|]. split; [split; reflexivity|]. split.
  - exact (proj1 (processState_again_is_silent new
             (mkSnapshot [("a", Player.set_id "a" Player.new)]
                [("tree_0", WorldObject.mk "tree_0" "tree" 1 0 2 0 true)] 0 "day")
             "a" ready_new)).
  - reflexivity.
Defined.

End ClientOrder.

(** ** The game client: what the handlers keep in step *)

Section GameFacts.

Import NetworkManager.
Implicit Types (g : Game.t) (tr cur : list string) (k id : string) (nm : NetworkManager.t).

(** [removePlayer] and [setPlayerState] find the id that [createPlayer] put
    into the name of the node, whatever the id is. *)
Lemma replace_player_prefix id : JS.replace "player_" "" ("player_" +:+ id) = id.
Proof. destruct id; reflexivity. Qed.

Lemma size_insert_present `{Countable K} {A} (m : gmap K A) i x :
  is_Some (m !! i) -> size (<[i := x]> m) = size m.
Proof.
  intros [y Hy]. rewrite <- (insert_delete_id m i y Hy) at 2.
  rewrite <- (insert_delete_eq m i x).
  rewrite !map_size_insert_None by apply lookup_delete_eq. reflexivity.
Qed.

Lemma handlePlayerJoin_spec g id d :
  let g' := Game.handlePlayerJoin g id d in
  let loc := bool_decide (Game.localPlayerId g = Some id) in
  Game.players g' =
    <[id := Game.mkEntry (GameEngine.mkNode ("player_" +:+ id) (j_x d) (j_z d)) d
              (j_x d) (j_z d) loc]> (Game.players g) /\
  GameEngine.playerMeshes (Game.engine g') =
    <[id := GameEngine.mkPlayerData loc None]> (GameEngine.playerMeshes (Game.engine g)) /\
  GameEngine.cameraTarget (Game.engine g') =
    (if loc then Some ("player_" +:+ id) else GameEngine.cameraTarget (Game.engine g)) /\
  UIManager.playerCount (Game.ui g') = Some (size (Game.players g')) /\
  Game.localPlayerId g' = Game.localPlayerId g /\
  UIManager.stats (Game.ui g') = UIManager.stats (Game.ui g).
Proof.
  simpl. unfold Game.handlePlayerJoin. simpl.
  destruct (bool_decide (Game.localPlayerId g = Some id)); simpl; auto 7.
Qed.

Lemma coupled_join g tr id d :
  Game.coupled g tr -> Game.coupled (Game.handlePlayerJoin g id d) (Set_add tr id).
Proof.
  intros (C1 & C2 & C3 & C4 & C5).
  destruct (handlePlayerJoin_spec g id d) as (Hp & He & Hc & Hu & Hl & _).
  split_and!.
  - intros k. rewrite elem_of_Set_add, Hp, lookup_insert_is_Some, C1.
    destruct (decide (id = k)); naive_solver.
  - intros k. rewrite He, Hp, !lookup_insert_is_Some, C2. reflexivity.
  - intros k e. rewrite Hp, Hl. destruct (decide (id = k)) as [<-|E].
    + rewrite lookup_insert_eq. intros [= Heq]. subst e. simpl. auto.
    + rewrite lookup_insert_ne by exact E. apply C3.
  - intros k. rewrite Hl, Hc, Hp. intros Hk.
    destruct (decide (id = k)) as [<-|E].
    + intros _. rewrite bool_decide_eq_true_2 by exact Hk. reflexivity.
    + rewrite lookup_insert_ne by exact E.
      rewrite bool_decide_eq_false_2 by congruence. apply C4, Hk.
  - right. exact Hu.
Qed.

Lemma handlePlayerLeave_spec g tr id :
  Game.coupled g tr ->
  let g' := Game.handlePlayerLeave g id in
  Game.players g' = delete id (Game.players g) /\
  GameEngine.playerMeshes (Game.engine g') =
    delete id (GameEngine.playerMeshes (Game.engine g)) /\
  GameEngine.cameraTarget (Game.engine g') = GameEngine.cameraTarget (Game.engine g) /\
  UIManager.playerCount (Game.ui g') = Some (size (Game.players g')) /\
  Game.localPlayerId g' = Game.localPlayerId g /\
  UIManager.stats (Game.ui g') = UIManager.stats (Game.ui g).
Proof.
  intros (C1 & C2 & C3 & C4 & C5). simpl. unfold Game.handlePlayerLeave.
  destruct (Game.players g !! id) as [e|] eqn:E; simpl.
  - unfold GameEngine.removePlayer.
    rewrite (proj1 (C3 _ _ E)), replace_player_prefix.
    destruct (proj2 (C2 id) (mk_is_Some _ _ E)) as [pd ->].
    split_and!; reflexivity.
  - split_and!; try reflexivity.
    + symmetry. apply delete_id. exact E.
    + symmetry. apply delete_id.
      destruct (GameEngine.playerMeshes (Game.engine g) !! id) eqn:E'; [|reflexivity].
      destruct (proj1 (C2 id) (mk_is_Some _ _ E')) as [? ?]. congruence.
Qed.

Lemma coupled_leave g tr id :
  Game.coupled g tr -> Game.coupled (Game.handlePlayerLeave g id) (Set_delete tr id).
Proof.
  intros C. destruct (handlePlayerLeave_spec g tr id C) as (Hp & He & Hc & Hu & Hl & _).
  destruct C as (C1 & C2 & C3 & C4 & C5). split_and!.
  - intros k. rewrite elem_of_Set_delete, Hp, lookup_delete_is_Some, C1.
    naive_solver.
  - intros k. rewrite He, Hp, !lookup_delete_is_Some, C2. reflexivity.
  - intros k e. rewrite Hp, Hl. destruct (decide (id = k)) as [<-|E].
    + rewrite lookup_delete_eq. discriminate.
    + rewrite lookup_delete_ne by exact E. apply C3.
  - intros k. rewrite Hl, Hc, Hp, lookup_delete_is_Some. intros Hk [_ Hs].
    exact (C4 k Hk Hs).
  - right. exact Hu.
Qed.

Lemma handlePlayerUpdate_spec g tr id (u : UpdateData) e :
  Game.coupled g tr -> Game.players g !! id = Some e ->
  let g' := Game.handlePlayerUpdate g id (Game.changesOf u) in
  exists pd,
    GameEngine.playerMeshes (Game.engine g) !! id = Some pd /\
    Game.players g' =
      <[id := Game.mkEntry (Game.mesh e)
                (Game.set_data_rotation (u_rotation u)
                   (Game.set_data_state (u_state u) (Game.data e)))
                (u_x u) (u_z u) (Game.isLocal e)]> (Game.players g) /\
    GameEngine.playerMeshes (Game.engine g') =
      <[id := GameEngine.mkPlayerData (GameEngine.isLocal pd)
                (Some (String.eqb (u_state u) "walking"))]>
        (GameEngine.playerMeshes (Game.engine g)) /\
    GameEngine.cameraTarget (Game.engine g') = GameEngine.cameraTarget (Game.engine g) /\
    UIManager.playerCount (Game.ui g') = UIManager.playerCount (Game.ui g) /\
    Game.localPlayerId g' = Game.localPlayerId g /\
    UIManager.stats (Game.ui g') =
      (if Game.isLocal e
       then (Some (u_health u), Some (u_hunger u), Some (u_sanity u))
       else UIManager.stats (Game.ui g)).
Proof.
  intros (C1 & C2 & C3 & C4 & C5) E. simpl.
  destruct (proj2 (C2 id) (mk_is_Some _ _ E)) as [pd Hpd]. exists pd.
  split; [exact Hpd|].
  unfold Game.handlePlayerUpdate. rewrite E. simpl.
  unfold GameEngine.setPlayerState.
  rewrite (proj1 (C3 _ _ E)), replace_player_prefix, Hpd. simpl.
  destruct (Game.isLocal e); split_and!; reflexivity.
Qed.

Lemma coupled_update g tr id (u : UpdateData) :
  Game.coupled g tr ->
  Game.coupled (Game.handlePlayerUpdate g id (Game.changesOf u)) tr.
Proof.
  intros C. destruct (Game.players g !! id) as [e|] eqn:E.
  - destruct (handlePlayerUpdate_spec g tr id u e C E)
      as (pd & Hpd & Hp & He & Hc & Hu & Hl & _).
    destruct C as (C1 & C2 & C3 & C4 & C5). split_and!.
    + intros k. rewrite Hp, lookup_insert_is_Some, C1.
      destruct (decide (id = k)) as [<-|]; [|naive_solver].
      split; [auto|]. intros _. eauto.
    + intros k. rewrite He, Hp, !lookup_insert_is_Some, C2. reflexivity.
    + intros k e'. rewrite Hp, Hl. destruct (decide (id = k)) as [<-|Ek].
      * rewrite lookup_insert_eq. intros [= Heq]. subst e'. simpl. apply C3, E.
      * rewrite lookup_insert_ne by exact Ek. apply C3.
    + intros k. rewrite Hl, Hc, Hp, lookup_insert_is_Some. intros Hk Hs.
      apply (C4 k Hk). destruct Hs as [<-|[_ Hs]]; [eauto | exact Hs].
    + rewrite Hu, Hp, size_insert_present by eauto.
      destruct C5 as [[_ C5]|C5]; [|now right].
      rewrite C5, lookup_empty in E. discriminate.
  - unfold Game.handlePlayerUpdate. rewrite E. exact C.
Qed.

Lemma coupled_dispatch_late g tr c :
  Game.coupled g tr -> 2 <= stage c -> Game.coupled (Game.dispatch g c) tr.
Proof.
  intros C Hc. destruct c as [| | |id o|wt dp]; simpl in Hc; try lia; exact C.
Qed.

(** *** What the entry of a player shows *)

Lemma mirrors_update g tr k p :
  Game.coupled g tr -> is_Some (Game.players g !! k) ->
  Game.mirrors k p (Game.handlePlayerUpdate g k (Game.changesOf (updateData p))).
Proof.
  intros C [e E].
  destruct (handlePlayerUpdate_spec g tr k (updateData p) e C E)
    as (pd & Hpd & Hp & He & Hc & Hu & Hl & Hst).
  destruct C as (C1 & C2 & C3 & C4 & C5).
  eexists. rewrite Hp, He, Hl, Hst, !lookup_insert_eq. split; [reflexivity|]. simpl.
  split_and!; try reflexivity; [apply C3, E|]. now intros ->.
Qed.

(** A call that is not about [k] leaves the entry of [k] as it is, and the
    three bars if [k] is the local player. *)
Lemma dispatch_other_player g tr k c :
  Game.coupled g tr -> about k c = false ->
  Game.players (Game.dispatch g c) !! k = Game.players g !! k /\
  GameEngine.playerMeshes (Game.engine (Game.dispatch g c)) !! k
    = GameEngine.playerMeshes (Game.engine g) !! k /\
  Game.localPlayerId (Game.dispatch g c) = Game.localPlayerId g /\
  (Game.localPlayerId g = Some k ->
   UIManager.stats (Game.ui (Game.dispatch g c)) = UIManager.stats (Game.ui g)).
Proof.
  intros C Hk. destruct c as [id d|id u|id|id o|wt dp]; simpl in Hk;
    unfold Game.dispatch; try apply bool_decide_eq_false in Hk.
  - destruct (handlePlayerJoin_spec g id d) as (Hp & He & _ & _ & Hl & Hst).
    rewrite Hp, He, Hl, !lookup_insert_ne by exact Hk. auto.
  - destruct (Game.players g !! id) as [e|] eqn:E.
    + destruct (handlePlayerUpdate_spec g tr id u e C E)
        as (pd & _ & Hp & He & _ & _ & Hl & Hst).
      rewrite Hp, He, Hl, !lookup_insert_ne by exact Hk. split_and!; auto.
      intros Hloc. rewrite Hst.
      destruct C as (_ & _ & C3 & _). rewrite (proj2 (C3 _ _ E)).
      rewrite bool_decide_eq_false_2; [reflexivity|]. congruence.
    + unfold Game.handlePlayerUpdate. rewrite E. auto.
  - destruct (handlePlayerLeave_spec g tr id C) as (Hp & He & _ & _ & Hl & Hst).
    rewrite Hp, He, Hl, !lookup_delete_ne by exact Hk. auto.
  - auto.
  - auto.
Qed.

Lemma mirrors_dispatch_other g tr k p c :
  Game.coupled g tr -> about k c = false ->
  Game.mirrors k p g -> Game.mirrors k p (Game.dispatch g c).
Proof.
  intros C Hk (e & E & M1 & M2 & M3 & M4 & M5 & M6 & M7).
  destruct (dispatch_other_player g tr k c C Hk) as (Hp & He & Hl & Hst).
  exists e. rewrite Hp, He, Hl. split_and!; try assumption.
  intros Hloc. rewrite Hst; [auto|]. rewrite M5 in Hloc.
  now apply bool_decide_eq_true in Hloc.
Qed.

(** *** The three loops, with the game listening *)

Lemma forEachPlayer_game nm ps : forall tr cur g,
  wired nm -> NoDup ps.*1 -> Game.coupled g tr ->
  let res := forEachPlayer nm ps tr cur in
  let g' := foldl Game.dispatch g res.2 in
  Game.coupled g' res.1.1 /\
  (forall k p, (k, p) ∈ ps -> Game.mirrors k p g') /\
  (forall k p, k ∉ ps.*1 -> Game.mirrors k p g -> Game.mirrors k p g').
Proof.
  induction ps as [|[k0 p0] rest IH]; intros tr cur g Hw Hnd C.
  - simpl. split_and!; [exact C | | auto]. intros k p H. now apply elem_of_nil in H.
  - rewrite fmap_cons in Hnd. apply NoDup_cons in Hnd as [Hk0 Hnd].
    destruct Hw as (Hj & Hl & Hu & Ho & Hs).
    assert (Hw : wired nm) by (unfold wired; auto).
    simpl. rewrite Hj, Hu.
    assert (Hstep : exists g2 tr1,
      (if negb (Set_has tr k0)
       then (Set_add tr k0, invoke true (onPlayerJoin k0 (joinData p0)))
       else (tr, [])) = (tr1, if negb (Set_has tr k0)
                              then [onPlayerJoin k0 (joinData p0)] else []) /\
      g2 = foldl Game.dispatch g
             ((if negb (Set_has tr k0) then [onPlayerJoin k0 (joinData p0)] else [])
              ++ [onPlayerUpdate k0 (updateData p0)]) /\
      Game.coupled g2 tr1 /\ Game.mirrors k0 p0 g2 /\
      (forall k p, k <> k0 -> Game.mirrors k p g -> Game.mirrors k p g2)).
    { destruct (Set_has tr k0) eqn:E; simpl.
      - apply Set_has_true in E. eexists _, _. split; [reflexivity|].
        split; [reflexivity|]. split_and!.
        + now apply coupled_update.
        + apply (mirrors_update g tr); [exact C|]. now apply (proj1 C).
        + intros k p Hk M.
          apply (mirrors_dispatch_other g tr k p (onPlayerUpdate k0 _) C); [|exact M].
          simpl. now apply bool_decide_eq_false.
      - pose proof (coupled_join g tr k0 (joinData p0) C) as C1.
        eexists _, _. split; [reflexivity|]. split; [reflexivity|]. split_and!.
        + now apply coupled_update.
        + apply (mirrors_update _ (Set_add tr k0)); [exact C1|].
          apply (proj1 C1). apply elem_of_Set_add. now right.
        + intros k p Hk M.
          apply (mirrors_dispatch_other _ (Set_add tr k0) k p (onPlayerUpdate k0 _) C1).
          { simpl. now apply bool_decide_eq_false. }
          apply (mirrors_dispatch_other g tr k p (onPlayerJoin k0 _) C); [|exact M].
          simpl. now apply bool_decide_eq_false. }
    destruct Hstep as (g2 & tr1 & -> & Hg2 & C2 & M0 & Mother).
    specialize (IH tr1 (Set_add cur k0) g2 Hw Hnd C2).
    destruct (forEachPlayer nm rest tr1 (Set_add cur k0)) as [[tr' cur'] calls].
    simpl in IH |- *. destruct IH as (I1 & I2 & I3).
    replace (foldl Game.dispatch g
               ((if negb (Set_has tr k0) then [onPlayerJoin k0 (joinData p0)] else [])
                ++ onPlayerUpdate k0 (updateData p0) :: calls))
      with (foldl Game.dispatch g2 calls).
    2:{ rewrite Hg2, <- foldl_app, <- app_assoc. reflexivity. }
    split_and!.
    + exact I1.
    + intros k p Hin. apply elem_of_cons in Hin as [[= -> ->]|Hin]; [|now apply I2].
      now apply I3.
    + intros k p Hk M. change (k ∉ k0 :: rest.*1) in Hk.
      apply not_elem_of_cons in Hk as [Hk Hk']. apply I3; [exact Hk'|].
      now apply Mother.
Qed.

Lemma forOfTracked_game nm ids : forall cur tr g,
  wired nm -> Game.coupled g tr ->
  let res := forOfTracked nm ids cur tr in
  let g' := foldl Game.dispatch g res.2 in
  Game.coupled g' res.1 /\
  (forall k p, k ∈ cur -> Game.mirrors k p g -> Game.mirrors k p g').
Proof.
  induction ids as [|id rest IH]; intros cur tr g Hw C.
  - simpl. auto.
  - pose proof Hw as (Hj & Hl & Hu & Ho & Hs).
    simpl. rewrite Hl. destruct (Set_has cur id) eqn:E; simpl.
    + specialize (IH cur tr g Hw C).
      destruct (forOfTracked nm rest cur tr) as [tr' calls]. exact IH.
    + apply Set_has_false in E.
      pose proof (coupled_leave g tr id C) as C1.
      specialize (IH cur (Set_delete tr id) _ Hw C1).
      destruct (forOfTracked nm rest cur (Set_delete tr id)) as [tr' calls].
      simpl in IH |- *. destruct IH as (I1 & I2). split; [exact I1|].
      intros k p Hk M. apply I2; [exact Hk|].
      apply (mirrors_dispatch_other g tr k p (onPlayerLeave id) C); [|exact M].
      simpl. apply bool_decide_eq_false. intros ->. contradiction.
Qed.

Lemma foldl_dispatch_late g tr calls :
  Forall (λ c, 2 <= stage c) calls -> Game.coupled g tr ->
  Game.coupled (foldl Game.dispatch g calls) tr /\
  (forall k p, Game.mirrors k p g -> Game.mirrors k p (foldl Game.dispatch g calls)).
Proof.
  intros H. revert g. induction H as [|c calls Hc _ IH]; intros g C; [auto|].
  simpl. destruct (IH _ (coupled_dispatch_late g tr c C Hc)) as (I1 & I2).
  split; [exact I1|]. intros k p M. apply I2.
  apply (mirrors_dispatch_other g tr k p c C); [|exact M].
  destruct c; simpl in *; try lia; reflexivity.
Qed.

Lemma localPlayerId_dispatch g c :
  Game.localPlayerId (Game.dispatch g c) = Game.localPlayerId g.
Proof.
  destruct c as [id d|id u|id|id o|wt dp]; unfold Game.dispatch; try reflexivity.
  - unfold Game.handlePlayerUpdate. destruct (Game.players g !! id); reflexivity.
  - unfold Game.handlePlayerLeave. destruct (Game.players g !! id); reflexivity.
Qed.

Lemma localPlayerId_foldl calls : forall g,
  Game.localPlayerId (foldl Game.dispatch g calls) = Game.localPlayerId g.
Proof.
  induction calls as [|c calls IH]; intros g; [reflexivity|].
  simpl. now rewrite IH, localPlayerId_dispatch.
Qed.

Lemma processState_manager nm sn :
  let r1 := forEachPlayer nm (players sn) (trackedPlayers nm) [] in
  trackedPlayers (processState nm sn).1 = (forOfTracked nm r1.1.1 r1.1.2 r1.1.1).1 /\
  (wired nm -> wired (processState nm sn).1).
Proof.
  unfold processState.
  destruct (forEachPlayer nm (players sn) (trackedPlayers nm) []) as [[tr1 cur] c1].
  simpl. destruct (forOfTracked nm tr1 cur tr1) as [tr2 c2].
  destruct (forEachObject nm (worldObjects sn) (trackedObjects nm)) as [objs c3].
  simpl. split; [reflexivity|]. unfold wired. simpl. auto.
Qed.

(** One snapshot, with the game listening. *)
Lemma processState_game nm sn g :
  wired nm -> ready nm -> NoDup (players sn).*1 ->
  Game.coupled g (trackedPlayers nm) ->
  let res := processState nm sn in
  let g' := foldl Game.dispatch g res.2 in
  Game.coupled g' (trackedPlayers res.1) /\ wired res.1 /\ ready res.1 /\
  (forall k, k ∈ trackedPlayers res.1 <-> k ∈ (players sn).*1) /\
  (forall k p, (k, p) ∈ players sn -> Game.mirrors k p g').
Proof.
  intros Hw Hr Hnd C. simpl.
  destruct (processState_spec nm sn Hr) as (_ & _ & _ & T & _ & Hr').
  destruct (processState_manager nm sn) as (Htr & Hw').
  rewrite processState_calls, Htr. simpl.
  destruct (forEachPlayer_game nm (players sn) (trackedPlayers nm) [] g Hw Hnd C)
    as (A1 & A2 & A3).
  pose proof (forEachPlayer_spec nm (players sn) (trackedPlayers nm) []) as (_ & S2 & _).
  set (r1 := forEachPlayer nm (players sn) (trackedPlayers nm) []) in *.
  simpl in A1, A2, S2.
  destruct (forOfTracked_game nm r1.1.1 r1.1.2 r1.1.1 _ Hw A1) as (B1 & B2).
  set (r2 := forOfTracked nm r1.1.1 r1.1.2 r1.1.1) in *. simpl in B1, B2.
  rewrite !foldl_app.
  set (g2 := foldl Game.dispatch (foldl Game.dispatch g r1.2) r2.2) in *.
  assert (L3 : Forall (λ c, 2 <= stage c)
                 (forEachObject nm (worldObjects sn) (trackedObjects nm)).2).
  { eapply Forall_impl; [apply forEachObject_stage|]. simpl. intros c ->. lia. }
  destruct (foldl_dispatch_late g2 _ _ L3 B1) as (D1 & D2).
  assert (L4 : Forall (λ c, 2 <= stage c)
                 (invoke (hasOnStateChange nm)
                    (onStateChange (worldTime sn) (dayPhase sn)))).
  { apply Forall_invoke. simpl. lia. }
  destruct (foldl_dispatch_late _ _ _ L4 D1) as (E1 & E2).
  split_and!; [exact E1 | now apply Hw' | exact Hr' | now rewrite <- Htr |].
  intros k p Hin. apply E2, D2, B2; [|now apply A2].
  apply S2. right. apply list_elem_of_fmap. exists (k, p). auto.
Qed.

Lemma processStates_game ss : forall nm g,
  wired nm -> ready nm -> Forall (λ s, NoDup (players s).*1) ss ->
  Game.coupled g (trackedPlayers nm) ->
  let res := processStates nm ss in
  let g' := foldl Game.dispatch g (concat res.2) in
  Game.coupled g' (trackedPlayers res.1) /\ wired res.1 /\ ready res.1.
Proof.
  induction ss as [|sn ss IH]; intros nm g Hw Hr Hnd C; [simpl; auto|].
  apply Forall_cons in Hnd as [Hsn Hnd].
  rewrite processStates_cons. simpl. rewrite foldl_app.
  destruct (processState_game nm sn g Hw Hr Hsn C) as (C1 & Hw1 & Hr1 & _ & _).
  exact (IH _ _ Hw1 Hr1 Hnd C1).
Qed.

Lemma wired_new : wired new.
Proof. unfold wired. simpl. auto. Qed.

Lemma coupled_connect lid : Game.coupled (Game.handleConnect Game.new lid) [].
Proof.
  split_and!; simpl.
  - intros k. rewrite lookup_empty. split; [intros H; now apply elem_of_nil in H|].
    intros [? ?]. discriminate.
  - intros k. rewrite !lookup_empty. split; intros [? ?]; discriminate.
  - intros k e. rewrite lookup_empty. discriminate.
  - intros k _. rewrite lookup_empty. intros [? ?]. discriminate.
  - left. auto.
Qed.

(** The game after a sequence of snapshots, by the last of them. *)
Lemma receive_last lid ss sn :
  Forall (λ s, NoDup (players s).*1) (ss ++ [sn]) ->
  let g := Game.receive (Game.handleConnect Game.new lid) (ss ++ [sn]) in
  exists tr,
    Game.coupled g tr /\ Game.localPlayerId g = Some lid /\
    (forall k, k ∈ tr <-> k ∈ (players sn).*1) /\
    (forall k p, (k, p) ∈ players sn -> Game.mirrors k p g).
Proof.
  intros Hnd. apply Forall_app in Hnd as [Hss Hsn].
  apply Forall_cons in Hsn as [Hsn _]. cbv zeta. unfold Game.receive.
  rewrite processStates_app. cbn [fst snd]. rewrite concat_app, foldl_app.
  destruct (processStates_game ss new _ wired_new ready_new Hss (coupled_connect lid))
    as (C1 & Hw1 & Hr1).
  set (nm1 := (processStates new ss).1) in *.
  set (g1 := foldl Game.dispatch _ (concat (processStates new ss).2)) in *.
  rewrite processStates_cons. cbn [fst snd processStates concat]. rewrite app_nil_r.
  destruct (processState_game nm1 sn g1 Hw1 Hr1 Hsn C1) as (C2 & _ & _ & T & M).
  eexists. split; [exact C2|]. split; [|split; [exact T | exact M]].
  rewrite localPlayerId_foldl. unfold g1. now rewrite localPlayerId_foldl.
Qed.


End GameFacts.

(** ** Properties of the game client *)

Section GameExtras.

Import NetworkManager.
Implicit Types (k lid : string) (ss : list Snapshot) (sn : Snapshot).

Lemma wired_processStates ss : forall nm,
  wired nm -> wired (processStates nm ss).1.
Proof.
  induction ss as [|sn ss IH]; intros nm Hw; [exact Hw|].
  rewrite processStates_cons. simpl. apply IH.
  now apply (proj2 (processState_manager nm sn)).
Qed.

(** X22.  The game shows the last snapshot: after any sequence of snapshots
    the entries of [Game.players] are the players of the last one, and each
    entry has that player's position as targets, its state and rotation, the
    matching animation flag on its mesh and, for the local player, its stats
    in the three bars. *)
Theorem game_mirrors_snapshot lid ss sn :
  Forall (λ s, NoDup (players s).*1) (ss ++ [sn]) ->
  let g := Game.receive (Game.handleConnect Game.new lid) (ss ++ [sn]) in
  Game.localPlayerId g = Some lid /\
  (forall k, is_Some (Game.players g !! k) <-> k ∈ (players sn).*1) /\
  (forall k p, (k, p) ∈ players sn -> Game.mirrors k p g).
Proof.
  intros Hnd. destruct (receive_last lid ss sn Hnd) as (tr & C & Hl & T & M).
  split_and!; [exact Hl | | exact M].
  intros k. rewrite <- T. symmetry. apply (proj1 C).
Qed.

Lemma game_mirrors_snapshot_witness :
  let a x := Player.set_x x (Player.set_id "a" Player.new) in
  let b := Player.set_state "walking" (Player.set_id "b" Player.new) in
  let c := Player.set_z 7 (Player.set_id "c" Player.new) in
  let ss := [mkSnapshot [("a", a 1%float); ("b", b)] [] 0 "day";
             mkSnapshot [("a", a 2%float); ("b", b)] [] 1 "day"] in
  let sn := mkSnapshot [("a", a 3%float); ("c", c)] [] 2 "day" in
  Forall (λ s, NoDup (players s).*1) (ss ++ [sn]) /\
  (let g := Game.receive (Game.handleConnect Game.new "a") (ss ++ [sn]) in
   Game.localPlayerId g = Some "a" /\
   (forall k, is_Some (Game.players g !! k) <-> k ∈ (players sn).*1) /\
   (forall k p, (k, p) ∈ players sn -> Game.mirrors k p g)) /\
  Game.targetX <$> Game.players
     (Game.receive (Game.handleConnect Game.new "a") (ss ++ [sn])) !! "a" = Some 3%float /\
  Game.players (Game.receive (Game.handleConnect Game.new "a") (ss ++ [sn])) !! "b" = None.
Proof.
  assert (Hnd : Forall (λ s, NoDup (players s).*1)
            ([mkSnapshot [("a", Player.set_x 1 (Player.set_id "a" Player.new));
                          ("b", Player.set_state "walking" (Player.set_id "b" Player.new))]
                [] 0%float "day";
              mkSnapshot [("a", Player.set_x 2 (Player.set_id "a" Player.new));
                          ("b", Player.set_state "walking" (Player.set_id "b" Player.new))]
                [] 1%float "day"]
             ++ [mkSnapshot [("a", Player.set_x 3 (Player.set_id "a" Player.new));
                             ("c", Player.set_z 7 (Player.set_id "c" Player.new))]
                   [] 2%float "day"])).
  { repeat constructor; set_solver. }
  split; [exact Hnd|]. split; [|split; vm_compute; reflexivity].
  exact (game_mirrors_snapshot "a" _ _ Hnd).
Defined.

(** X23.  The engine keeps one mesh for each player of the last snapshot and
    none for a player that has left, and the camera is on the local player
    when it is among them. *)
Theorem engine_follows_snapshot lid ss sn :
  Forall (λ s, NoDup (players s).*1) (ss ++ [sn]) ->
  let g := Game.receive (Game.handleConnect Game.new lid) (ss ++ [sn]) in
  (forall k, is_Some (GameEngine.playerMeshes (Game.engine g) !! k)
             <-> k ∈ (players sn).*1) /\
  (lid ∈ (players sn).*1 ->
   GameEngine.cameraTarget (Game.engine g) = Some ("player_" +:+ lid)).
Proof.
  intros Hnd. destruct (receive_last lid ss sn Hnd) as (tr & C & Hl & T & M).
  destruct C as (C1 & C2 & C3 & C4 & C5). split.
  - intros k. rewrite <- T, C1. apply C2.
  - intros Hin. apply (C4 lid Hl). apply C1, T, Hin.
Qed.

Lemma engine_follows_snapshot_witness :
  let a := Player.set_id "a" Player.new in
  let b := Player.set_id "b" Player.new in
  let ss := [mkSnapshot [("b", b)] [] 0 "day"; mkSnapshot [("b", b); ("a", a)] [] 1 "day"] in
  let sn := mkSnapshot [("a", a)] [] 2 "day" in
  Forall (λ s, NoDup (players s).*1) (ss ++ [sn]) /\
  (let g := Game.receive (Game.handleConnect Game.new "a") (ss ++ [sn]) in
   (forall k, is_Some (GameEngine.playerMeshes (Game.engine g) !! k)
              <-> k ∈ (players sn).*1) /\
   (("a" : string) ∈ (players sn).*1 ->
    GameEngine.cameraTarget (Game.engine g) = Some ("player_" +:+ "a"))) /\
  ("a" : string) ∈ (players sn).*1.
Proof.
  assert (Hnd : Forall (λ s, NoDup (players s).*1)
            ([mkSnapshot [("b", Player.set_id "b" Player.new)] [] 0%float "day";
              mkSnapshot [("b", Player.set_id "b" Player.new);
                          ("a", Player.set_id "a" Player.new)] [] 1%float "day"]
             ++ [mkSnapshot [("a", Player.set_id "a" Player.new)] [] 2%float "day"])).
  { repeat constructor; set_solver. }
  split; [exact Hnd|]. split; [|set_solver].
  exact (engine_follows_snapshot "a" _ _ Hnd).
Defined.



(** X25.  After each snapshot the engine has the day phase of that snapshot,
    and the page shows it when it is one of "day", "dusk" and "night". *)
Theorem day_phase_shown (g : Game.t) ss sn :
  let g' := Game.receive g (ss ++ [sn]) in
  GameEngine.dayPhase (Game.engine g') = dayPhase sn /\
  (dayPhase sn = "day" \/ dayPhase sn = "dusk" \/ dayPhase sn = "night" ->
   UIManager.dayClass (Game.ui g') = Some (dayPhase sn) /\
   UIManager.dayText (Game.ui g') = Some (dayPhase sn)).
Proof.
  cbv zeta. unfold Game.receive.
  rewrite processStates_app. cbn [fst snd]. rewrite concat_app, foldl_app.
  pose proof (wired_processStates ss new wired_new) as (_ & _ & _ & _ & Hs).
  set (nm1 := (processStates new ss).1) in *.
  set (g1 := foldl Game.dispatch g (concat (processStates new ss).2)).
  rewrite processStates_cons. cbn [fst snd processStates concat].
  rewrite app_nil_r, processState_calls. cbv zeta.
  rewrite Hs, !app_assoc, foldl_app. simpl. split; [reflexivity|].
  intros [-> | [-> | ->]]; split; reflexivity.
Qed.

Lemma day_phase_shown_witness :
  let ss := [mkSnapshot [] [] 239.9%float "day"] in
  let sn := mkSnapshot [] [] 240%float "dusk" in
  let g' := Game.receive Game.new (ss ++ [sn]) in
  (dayPhase sn = "day" \/ dayPhase sn = "dusk" \/ dayPhase sn = "night") /\
  GameEngine.dayPhase (Game.engine g') = "dusk" /\
  UIManager.dayClass (Game.ui g') = Some "dusk" /\
  UIManager.dayText (Game.ui g') = Some "dusk".
Proof.
  assert (H : dayPhase (mkSnapshot [] [] 240%float "dusk") = "day" \/
              dayPhase (mkSnapshot [] [] 240%float "dusk") = "dusk" \/
              dayPhase (mkSnapshot [] [] 240%float "dusk") = "night") by (right; left; reflexivity).
  split; [exact H|].
  destruct (day_phase_shown Game.new [mkSnapshot [] [] 239.9%float "day"]
              (mkSnapshot [] [] 240%float "dusk")) as [H1 H2].
  split; [exact H1|]. exact (H2 H).
Defined.

(** X26.  [removePlayer] finds the mesh that [createPlayer] stored, whatever
    the id is (also one that contains "player_" itself): it recovers the id
    from the name of the node and deletes exactly that entry. *)
Theorem removePlayer_finds_created (e : GameEngine.t) (id : string) (isLocal : bool) :
  let created := GameEngine.createPlayer e id isLocal in
  JS.replace "player_" "" (GameEngine.name created.2) = id /\
  GameEngine.playerMeshes (GameEngine.removePlayer created.1 created.2)
  = delete id (GameEngine.playerMeshes e).
Proof.
  cbv zeta. unfold GameEngine.createPlayer. cbn [fst snd GameEngine.name].
  split; [apply replace_player_prefix|].
  unfold GameEngine.removePlayer. cbn [GameEngine.name GameEngine.playerMeshes].
  rewrite replace_player_prefix, lookup_insert_eq.
  cbn [GameEngine.playerMeshes]. apply delete_insert_eq.
Qed.

End GameExtras.

(** ** The input manager *)

Section InputFacts.

Variables (Math_cos Math_sin : float -> float) (atan2_approx : float -> float -> float).

Import InputManager.

Implicit Types (im : InputManager.t) (calls : list InputManager.call).

Lemma alternates_mono calls :
  alternates false calls = true -> alternates true calls = true.
Proof.
  induction calls as [|[] calls IH]; simpl; auto. discriminate.
Qed.

Lemma steady_same im im' :
  hasOnMove im' = hasOnMove im ->
  isMoving im' = isMoving im ->
  steady im im' [].
Proof. intros H1 H2. split; [exact H1|]. intros rest. now rewrite H2. Qed.

Lemma steady_stop im im' :
  hasOnMove im' = hasOnMove im ->
  isMoving im = true -> isMoving im' = false ->
  steady im im' (invoke (hasOnStop im) onStop).
Proof.
  intros H1 H2 H3. split; [exact H1|]. intros rest. rewrite H2, H3.
  destruct (hasOnStop im); simpl; [auto|apply alternates_mono].
Qed.

Lemma steady_move im im' x z :
  hasOnMove im = true ->
  hasOnMove im' = hasOnMove im ->
  isMoving im' = true ->
  steady im im' (invoke (hasOnMove im) (onMove x z)).
Proof.
  intros H0 H1 H2. split; [exact H1|]. intros rest. rewrite H0, H2. simpl. auto.
Qed.

Lemma steady_updateMovement im :
  hasOnMove im = true ->
  steady im (updateMovement im).1 (updateMovement im).2.
Proof.
  intros H. unfold updateMovement.
  destruct (_ || _); simpl.
  - now apply steady_move.
  - destruct (isMoving im) eqn:E; simpl.
    + now apply steady_stop.
    + now apply steady_same.
Qed.

Lemma steady_handleJoystickMove im x y c :
  hasOnMove im = true ->
  steady im (handleJoystickMove Math_cos Math_sin atan2_approx im x y c).1
    (handleJoystickMove Math_cos Math_sin atan2_approx im x y c).2.
Proof.
  intros H. unfold handleJoystickMove.
  destruct (_ <? _)%float; simpl.
  - now apply steady_move.
  - destruct (isMoving im) eqn:E; simpl.
    + now apply steady_stop.
    + now apply steady_same.
Qed.

Lemma steady_trans im im1 im2 calls1 calls2 :
  steady im im1 calls1 -> steady im1 im2 calls2 -> steady im im2 (calls1 ++ calls2).
Proof.
  intros [H1 A1] [H2 A2]. split; [congruence|].
  intros rest Hr. rewrite <- app_assoc. auto.
Qed.

Lemma steady_action im :
  steady im im (invoke (hasOnAction im) onAction).
Proof.
  split; [reflexivity|]. intros rest. now destruct (hasOnAction im).
Qed.

Lemma steady_keys im k :
  steady im (set_keys k im) [].
Proof. now apply steady_same. Qed.

Lemma steady_press im k :
  steady im (set_keys k im) (invoke (hasOnAction im) onAction).
Proof. split; [reflexivity|]. intros rest. now destruct (hasOnAction im). Qed.

Lemma steady_then_update im im1 calls1 :
  hasOnMove im = true -> steady im im1 calls1 ->
  let r := (let '(im2, calls2) := updateMovement im1 in (im2, calls1 ++ calls2, true)) in
  steady im r.1.1 r.1.2.
Proof.
  intros H S. pose proof (steady_updateMovement im1) as U.
  destruct (updateMovement im1) as [im2 calls2]. simpl in *.
  apply (steady_trans _ im1); [exact S|]. apply U. now rewrite (proj1 S).
Qed.

Lemma steady_handleKey im code isDown :
  hasOnMove im = true ->
  steady im (handleKey im code isDown).1.1 (handleKey im code isDown).1.2.
Proof.
  intros H. key_cases;
    try (apply (steady_then_update im _ _ H);
         first [apply steady_keys | apply steady_press | now apply steady_same]).
  now apply steady_same.
Qed.

Lemma steady_resetKeys im :
  steady im (resetKeys im).1 (resetKeys im).2.
Proof.
  unfold resetKeys. simpl. destruct (isMoving im) eqn:E; simpl.
  - apply (steady_stop im); auto.
  - now apply steady_same.
Qed.

Lemma steady_handle im e :
  hasOnMove im = true ->
  steady im (handle Math_cos Math_sin atan2_approx im e).1
    (handle Math_cos Math_sin atan2_approx im e).2.
Proof.
  intros H. destruct e; simpl.
  - now apply steady_handleKey.
  - now apply steady_handleKey.
  - apply steady_resetKeys.
  - now apply steady_same.
  - apply (steady_trans im (set_joystick true (centerX, centerY) im) _ [] _
             (steady_same _ _ eq_refl eq_refl)).
    now apply steady_handleJoystickMove.
  - destruct (joystickActive im); simpl.
    + now apply steady_handleJoystickMove.
    + now apply steady_same.
  - destruct (isMoving im) eqn:E; simpl.
    + apply (steady_stop im); auto.
    + now apply steady_same.
  - apply steady_action.
  - now apply steady_same.
Qed.

Lemma run_cons_eq im e events :
  run Math_cos Math_sin atan2_approx im (e :: events) =
    let r1 := handle Math_cos Math_sin atan2_approx im e in
    let r2 := run Math_cos Math_sin atan2_approx r1.1 events in
    (r2.1, r1.2 ++ r2.2).
Proof.
  simpl. destruct (handle Math_cos Math_sin atan2_approx im e) as [im1 calls1].
  simpl. now destruct (run Math_cos Math_sin atan2_approx im1 events).
Qed.

(** *** The keyboard alone *)

Lemma updateMovement_keys im :
  keys (updateMovement im).1 = keys im /\
  isMoving (updateMovement im).1 = anyDirection (keys im) /\
  hasOnAction (updateMovement im).1 = hasOnAction im /\
  actions (updateMovement im).2 = 0.
Proof.
  unfold updateMovement, anyDirection.
  destruct (up (keys im)), (down (keys im)), (left (keys im)), (right (keys im)),
    (isMoving im) eqn:E, (hasOnMove im), (hasOnStop im); simpl; rewrite ?E; auto.
Qed.

Lemma keyboard_step im e :
  is_keyboard e = true -> isMoving im = anyDirection (keys im) ->
  let im' := (handle Math_cos Math_sin atan2_approx im e).1 in
  isMoving im' = anyDirection (keys im').
Proof.
  intros He Hm. destruct e; try discriminate; simpl.
  - key_cases; try exact Hm; by_updateMovement updateMovement_keys; congruence.
  - key_cases; try exact Hm; by_updateMovement updateMovement_keys; congruence.
  - unfold resetKeys, set_keys. simpl. destruct (isMoving im); reflexivity.
  - exact Hm.
Qed.

Lemma actions_app calls1 calls2 :
  actions (calls1 ++ calls2) = actions calls1 + actions calls2.
Proof. unfold actions. now rewrite filter_app, length_app. Qed.

Lemma actions_press b : actions (invoke b onAction) = if b then 1 else 0.
Proof. now destruct b. Qed.

(** One keyboard event that does not release the action key: the key is held
    afterwards if it was held or is pressed now, and [onAction] is called
    only for a press while it was not held. *)
Lemma action_step im e :
  is_keyboard e = true -> releases_action e = false ->
  let r := handle Math_cos Math_sin atan2_approx im e in
  hasOnAction r.1 = hasOnAction im /\
  action (keys r.1) = action (keys im) || presses_action e /\
  actions r.2 =
    if negb (action (keys im)) && presses_action e && hasOnAction im then 1 else 0.
Proof.
  intros He Hr. destruct e as [code|code| | | | | | |]; try discriminate; simpl in *.
  - destruct (String.eqb code "Space") eqn:Hsp.
    + apply String.eqb_eq in Hsp. subst code.
      key_cases; try discriminate; by_updateMovement updateMovement_keys;
        rewrite ?actions_app, ?actions_press, ?N, ?K, ?A; simpl;
        destruct (action (keys im)), (hasOnAction im); simpl in *;
        try discriminate; auto.
    + rewrite orb_false_r, andb_false_r. simpl.
      key_cases; try discriminate; try by_updateMovement updateMovement_keys;
        rewrite ?actions_app, ?actions_press, ?N, ?K, ?A; simpl; auto.
  - rewrite orb_false_r, andb_false_r. simpl.
    key_cases; try discriminate; try by_updateMovement updateMovement_keys;
      rewrite ?actions_app, ?actions_press, ?N, ?K, ?A; simpl; auto.
  - rewrite orb_false_r, andb_false_r. auto.
Qed.

End InputFacts.

(** ** Properties of the input manager *)

Section InputExtras.

Import InputManager.

Implicit Types (Math_cos Math_sin : float -> float) (atan2_approx : float -> float -> float).
Implicit Types (im : InputManager.t) (events : list event).

(** X27.  Whatever keys are pressed and released, whatever the joystick does
    and whenever the window loses focus, [onStop] is never called first and
    never twice in a row: every [onStop] follows an [onMove] with no other
    [onStop] between them. *)
Theorem stops_follow_moves Math_cos Math_sin atan2_approx im events :
  hasOnMove im = true ->
  alternates (isMoving im) (run Math_cos Math_sin atan2_approx im events).2 = true.
Proof.
  revert im. induction events as [|e events IH]; intros im H; [reflexivity|].
  rewrite run_cons_eq. cbv zeta. cbn [snd].
  destruct (steady_handle Math_cos Math_sin atan2_approx im e H) as [H1 A].
  apply A, IH. now rewrite H1.
Qed.

Lemma stops_follow_moves_witness :
  let events := [keydown "KeyW"; keydown "KeyD"; keyup "KeyW"; keydown "KeyQ";
                 keyup "KeyD"; keyup "KeyD"; keydown "ArrowLeft"; blur; blur] in
  let log := (run (λ _, 1%float) (λ _, 0%float) (λ _ _, 0%float) new events).2 in
  hasOnMove new = true /\
  alternates (isMoving new) log = true /\
  log = [onMove 0 (-1); onMove 1 (-1); onMove 1 0; onStop; onMove (-1) (-0); onStop].
Proof.
  split; [reflexivity|]. split; [|vm_compute; reflexivity].
  exact (stops_follow_moves (λ _, 1%float) (λ _, 0%float) (λ _ _, 0%float) new
           [keydown "KeyW"; keydown "KeyD"; keyup "KeyW"; keydown "KeyQ";
            keyup "KeyD"; keyup "KeyD"; keydown "ArrowLeft"; blur; blur] eq_refl).
Defined.

(** X28.  With the keyboard alone, [isMoving] says whether a direction key is
    held: it is true exactly while at least one of the four is down, also
    when two opposite keys are. *)
Theorem keyboard_moving_iff_key_held Math_cos Math_sin atan2_approx im events :
  isMoving im = anyDirection (keys im) ->
  Forall (λ e, is_keyboard e = true) events ->
  let im' := (run Math_cos Math_sin atan2_approx im events).1 in
  isMoving im' = anyDirection (keys im').
Proof.
  revert im. induction events as [|e events IH]; intros im Hm Hk; [exact Hm|].
  apply Forall_cons in Hk as [He Hk]. rewrite run_cons_eq. cbv zeta. cbn [fst].
  apply IH; [|exact Hk]. now apply keyboard_step.
Qed.

Lemma keyboard_moving_iff_key_held_witness :
  let events := [keydown "KeyW"; keydown "KeyS"; keyup "KeyW"] in
  let im' := (run (λ _, 1%float) (λ _, 0%float) (λ _ _, 0%float) new events).1 in
  isMoving new = anyDirection (keys new) /\
  Forall (λ e, is_keyboard e = true) events /\
  isMoving im' = anyDirection (keys im') /\
  keys im' = mkKeys false true false false false /\ isMoving im' = true.
Proof.
  assert (Hk : Forall (λ e, is_keyboard e = true)
                 [keydown "KeyW"; keydown "KeyS"; keyup "KeyW"])
    by (repeat constructor).
  split; [reflexivity|]. split; [exact Hk|]. split; [|split; reflexivity].
  exact (keyboard_moving_iff_key_held (λ _, 1%float) (λ _, 0%float) (λ _ _, 0%float) new _ eq_refl Hk).
Defined.

(** X29.  Holding the space bar acts once: as long as the key is not released
    and the window keeps the focus, the keyboard calls [onAction] for the
    first press only, however often the key repeats and whatever other keys
    are used meanwhile. *)
Theorem held_space_acts_once Math_cos Math_sin atan2_approx im events :
  hasOnAction im = true -> action (keys im) = false ->
  Forall (λ e, is_keyboard e = true /\ releases_action e = false) events ->
  actions (run Math_cos Math_sin atan2_approx im events).2
  = if existsb presses_action events then 1 else 0.
Proof.
  intros Ha Hk Hev.
  assert (Hheld : forall events im,
            action (keys im) = true ->
            Forall (λ e, is_keyboard e = true /\ releases_action e = false) events ->
            actions (run Math_cos Math_sin atan2_approx im events).2 = 0).
  { clear. induction events as [|e events IH]; intros im Hk Hev; [reflexivity|].
    apply Forall_cons in Hev as [[He Hr] Hev]. rewrite run_cons_eq. cbv zeta. cbn [snd].
    destruct (action_step Math_cos Math_sin atan2_approx im e He Hr) as (_ & K & N).
    rewrite actions_app, N, Hk. simpl. apply IH; [|exact Hev]. now rewrite K, Hk. }
  revert im Ha Hk. induction Hev as [|e events [He Hr] Hev IH]; intros im Ha Hk;
    [reflexivity|].
  rewrite run_cons_eq. cbv zeta. cbn [snd].
  destruct (action_step Math_cos Math_sin atan2_approx im e He Hr) as (A & K & N).
  rewrite actions_app, N, Hk, Ha. simpl. rewrite Hk in K. simpl in K.
  destruct (presses_action e) eqn:Ep; simpl.
  - rewrite Hheld; [reflexivity | exact K | exact Hev].
  - apply IH; [now rewrite A | exact K].
Qed.

Lemma held_space_acts_once_witness :
  let events := [keydown "KeyW"; keydown "Space"; keydown "Space"; keydown "KeyD";
                 keydown "Space"; keyup "KeyW"; keydown "Space"] in
  hasOnAction new = true /\ action (keys new) = false /\
  Forall (λ e, is_keyboard e = true /\ releases_action e = false) events /\
  actions (run (λ _, 1%float) (λ _, 0%float) (λ _ _, 0%float) new events).2 = 1 /\
  actions (run (λ _, 1%float) (λ _, 0%float) (λ _ _, 0%float) new
             (events ++ [keyup "Space"; keydown "Space"])).2 = 2.
Proof.
  assert (Hev : Forall (λ e, is_keyboard e = true /\ releases_action e = false)
                  [keydown "KeyW"; keydown "Space"; keydown "Space"; keydown "KeyD";
                   keydown "Space"; keyup "KeyW"; keydown "Space"])
    by (repeat constructor).
  split; [reflexivity|]. split; [reflexivity|]. split; [exact Hev|].
  split; [|vm_compute; reflexivity].
  exact (held_space_acts_once (λ _, 1%float) (λ _, 0%float) (λ _ _, 0%float) new _ eq_refl eq_refl Hev).
Defined.

(** X30.  Opposite keys do not cancel: while S is held the direction sent is
    the one of S whether W is held or not, and while D is held it is the one
    of D whether A is held or not. *)
Theorem opposite_keys_do_not_cancel im (w a : bool) :
  (down (keys im) = true ->
   (updateMovement (set_keys (set_up w (keys im)) im)).2 = (updateMovement im).2) /\
  (right (keys im) = true ->
   (updateMovement (set_keys (set_left a (keys im)) im)).2 = (updateMovement im).2).
Proof.
  unfold updateMovement. split; intros H; simpl; rewrite H.
  - destruct w, (up (keys im)), (left (keys im)), (right (keys im)); reflexivity.
  - destruct a, (left (keys im)), (up (keys im)), (down (keys im)); reflexivity.
Qed.

End InputExtras.
